(** * danos-bootstrap: build-order resolution and the sequential build executor

    A shallow embedding of the two variants of the program kept in the
    repository, [src/main.go] (module [MainGo]) and [src/unnamed/part_000]
    (module [Part000]), and the properties of the dependency graph, the
    build order and the executor that are proved about them.

    Layout: the definitions come first (packaging metadata, the graph
    library, the process state and its monad, the code shared by the two
    variants, then each variant), the lemmas and theorems follow. *)

From Stdlib Require Import Ascii.
From stdpp Require Import base gmap sets list strings sorting relations pretty.

Open Scope string_scope.
Open Scope list_scope.
Open Scope nat_scope.

Set Warnings "-register-all,-clear-no-such-hyp".

(** ** Packaging metadata

    The structures of [pault.ag/go/debian] that the program reads: a
    control file holds a source paragraph with its build-time dependency
    and the binary paragraphs; a dependency is a list of relations, each an
    alternation of possibilities. *)

Module control.

Record Possibility := mkPossibility { Name : string }.

Record Relation := mkRelation { Possibilities : list Possibility }.

Record Dependency := mkDependency { Relations : list Relation }.

(** [Dependency.GetAllPossibilities]: the possibilities of every relation,
    in order. *)
Definition GetAllPossibilities (dep : Dependency) : list Possibility :=
  mjoin (Possibilities <$> Relations dep).

Record SourceParagraph := mkSource { BuildDepends : Dependency }.

Record BinaryParagraph := mkBinary {
  Package : string;
  Values : gmap string string
}.

Record Control := mkControl {
  Source : SourceParagraph;
  Binaries : list BinaryParagraph
}.

End control.

(** ** The graph library

    [github.com/danos/utils/tsort] is imported by both variants and is not
    part of the sources. *)

Module tsort.

(** Modelled from the spec: the graph type of the tsort package, which is
    missing from the sources. Vertices are unit names and are added at most
    once, edges are directed pairs whose multiplicity is irrelevant, and an
    edge makes both its ends vertices of the graph (the resolver has to
    place every edge's target in the order). *)
Record Graph := mkGraph {
  vertices : gset string;
  edges : gset (string * string)
}.

(** Modelled from the spec: [tsort.New], the empty graph. *)
Definition New : Graph := mkGraph ∅ ∅.

(** Modelled from the spec: [Graph.AddVertex]; adding a vertex twice changes
    nothing. *)
Definition AddVertex (name : string) (g : Graph) : Graph :=
  mkGraph ({[name]} ∪ vertices g) (edges g).

(** Modelled from the spec: [Graph.AddEdge]; a duplicate edge is a no-op. *)
Definition AddEdge (from to : string) (g : Graph) : Graph :=
  mkGraph ({[from]} ∪ ({[to]} ∪ vertices g)) ({[(from, to)]} ∪ edges g).

(** The targets of the edges that leave [v]. *)
Definition targets (g : Graph) (v : string) : list string :=
  (filter (λ e, e.1 = v) (elements (edges g))).*2.

(** A vertex can be emitted once every target of its edges has been. *)
Definition ready (g : Graph) (emitted : list string) (v : string) : bool :=
  forallb (λ d, bool_decide (d ∈ emitted)) (targets g v).

(** The first element of [l] that satisfies [ok], and [l] without it. *)
Fixpoint pick (ok : string → bool) (l : list string)
  : option (string * list string) :=
  match l with
  | [] => None
  | x :: l =>
      if ok x then Some (x, l)
      else match pick ok l with
           | Some (y, r) => Some (y, x :: r)
           | None => None
           end
  end.

(** Modelled from the spec: Kahn's algorithm, one vertex per round; among
    the vertices that are ready the first by name is taken ([pending] is
    kept sorted). A round that finds no ready vertex reports a cycle. *)
Fixpoint kahn (g : Graph) (rounds : nat) (pending emitted : list string)
  : option (list string) :=
  match rounds with
  | O => Some emitted
  | S rounds =>
      match pick (ready g emitted) pending with
      | None => None
      | Some (v, rest) => kahn g rounds rest (emitted ++ [v])
      end
  end.

(** Modelled from the spec: [Graph.Sort], which is missing from the sources;
    [None] is its cycle error. There is one round per vertex. *)
Definition Sort (g : Graph) : option (list string) :=
  let pending := merge_sort String.le (elements (vertices g)) in
  kahn g (length pending) pending [].

Definition edge (g : Graph) (u d : string) : Prop := (u, d) ∈ edges g.

#[global] Instance edge_dec g u d : Decision (edge g u d).
Proof. unfold edge. apply _. Defined.

(** A cycle is a non-empty path from a vertex back to itself; a self-edge
    is one. *)
Definition cyclic (g : Graph) : Prop := ∃ v, tc (edge g) v v.

Definition acyclic (g : Graph) : Prop := ∀ v, ¬ tc (edge g) v v.

(** Both ends of every edge are vertices. *)
Definition closed (g : Graph) : Prop :=
  ∀ u d, edge g u d → u ∈ vertices g ∧ d ∈ vertices g.

(** Every edge that leaves an element of [l] has its target at a strictly
    smaller index of [l]. *)
Definition ordered (g : Graph) (l : list string) : Prop :=
  ∀ j u d, l !! j = Some u → edge g u d → ∃ i, i < j ∧ l !! i = Some d.

End tsort.

(** ** Errors *)

(** The error values of the program: [buildError], [cloneError] and
    [errList] are its own types, [Errorf] stands for the errors made by
    [fmt.Errorf] and by the libraries, with their text. *)
Inductive error :=
  | Errorf (msg : string)
  | buildError (repo : string) (err : error)
  | cloneError (repo : string) (err : error)
  | errList (l : list error).

(** The [Error] methods. *)
Fixpoint Error (e : error) : string :=
  match e with
  | Errorf msg => msg
  | buildError repo err => "build for " +:+ repo +:+ " failed: " +:+ Error err
  | cloneError repo err => "clone for " +:+ repo +:+ " failed: " +:+ Error err
  | errList l =>
      (fix lines (l : list error) : string :=
         match l with
         | [] => ""
         | err :: l => Error err +:+ "
" +:+ lines l
         end) l
  end.

(** The error of [Graph.Sort]. *)
Definition errCycle : error := Errorf "graph contains a cycle".

(** A call of a function without side effects returns or panics. *)
Inductive Go (A : Type) :=
  | Returns (a : A)
  | Panics (e : error).
Arguments Returns {A} a.
Arguments Panics {A} e.

(** ** The process and its environment *)

(** A path is the list of its components; [filepath.Join] adds some. *)
Definition path := list string.

Definition Join (dir : path) (name : string) : path := dir ++ [name].

(** The options handed to [bpkg.MakeBuilder]. [ImageName] and [LocalImage]
    exist in [Part000] only. *)
Record BuildOpts := mkBuildOpts {
  SourceDirectory : path;
  DestinationDirectory : path;
  PreferredPackageDirectory : path;
  ImageName : option string;
  Version : string;
  LocalImage : bool
}.

(** What one run of the package builder does: [MakeBuilder] fails, or the
    builder is made and [Build] writes [out] to the process's standard
    streams and returns [res]. *)
Inductive BuildRun :=
  | MakeBuilderFails (e : error)
  | Builds (out : list string) (res : option error).

(** Calls of the package builder, recorded in the order they are made. *)
Inductive Event :=
  | EvMakeBuilder (o : BuildOpts)
  | EvBuild (o : BuildOpts).

(** The values [os.Stdout] and [os.Stderr] take: a descriptor the process
    was started with, or the write end of a pipe. *)
Inductive File :=
  | Fd (n : nat)
  | PipeW (id : nat).

#[global] Instance File_eq_dec : EqDecision File.
Proof. solve_decision. Defined.

(** A regular file opened by [os.OpenFile]: its path and file offset. *)
Record Handle := mkHandle { hpath : path; hpos : nat }.

Inductive OpenFlag := O_RDWR | O_CREATE | O_TRUNC.

#[global] Instance OpenFlag_eq_dec : EqDecision OpenFlag.
Proof. solve_decision. Defined.

(** What [os.Open] and [control.ParseControl] give for the [debian/control]
    file of a directory entry. *)
Inductive ctrlFile :=
  | Absent
  | Malformed
  | Parsed (ctrl : control.Control).

Record DirEntry := mkDirEntry { entryName : string; entryControl : ctrlFile }.

Record World := mkWorld {
  os_Stdout : File;
  os_Stderr : File;
  (** the bytes written to the descriptors the process was started with *)
  console : string;
  (** the bytes written to each pipe and not read yet *)
  pipes : gmap nat string;
  (** how many more pipes the system grants *)
  pipe_quota : nat;
  dirs : gset path;
  files : gmap path string;
  (** the source directories as [ioutil.ReadDir] lists them *)
  srcTree : gmap path (list DirEntry);
  trace : list Event
}.

Definition set_Stdout (f : File) (w : World) : World :=
  mkWorld f (os_Stderr w) (console w) (pipes w) (pipe_quota w) (dirs w)
    (files w) (srcTree w) (trace w).

Definition set_Stderr (f : File) (w : World) : World :=
  mkWorld (os_Stdout w) f (console w) (pipes w) (pipe_quota w) (dirs w)
    (files w) (srcTree w) (trace w).

Definition set_console (c : string) (w : World) : World :=
  mkWorld (os_Stdout w) (os_Stderr w) c (pipes w) (pipe_quota w) (dirs w)
    (files w) (srcTree w) (trace w).

Definition set_pipes (p : gmap nat string) (w : World) : World :=
  mkWorld (os_Stdout w) (os_Stderr w) (console w) p (pipe_quota w) (dirs w)
    (files w) (srcTree w) (trace w).

Definition set_pipe_quota (q : nat) (w : World) : World :=
  mkWorld (os_Stdout w) (os_Stderr w) (console w) (pipes w) q (dirs w)
    (files w) (srcTree w) (trace w).

Definition set_dirs (d : gset path) (w : World) : World :=
  mkWorld (os_Stdout w) (os_Stderr w) (console w) (pipes w) (pipe_quota w) d
    (files w) (srcTree w) (trace w).

Definition set_files (f : gmap path string) (w : World) : World :=
  mkWorld (os_Stdout w) (os_Stderr w) (console w) (pipes w) (pipe_quota w)
    (dirs w) f (srcTree w) (trace w).

Definition set_trace (t : list Event) (w : World) : World :=
  mkWorld (os_Stdout w) (os_Stderr w) (console w) (pipes w) (pipe_quota w)
    (dirs w) (files w) (srcTree w) t.

(** A call returns a value, ends the process ([os.Exit]) or panics; each
    leaves a state of the world. *)
Inductive Outcome (A : Type) :=
  | Ret (a : A) (w : World)
  | Exit (code : nat) (w : World)
  | Panic (e : error) (w : World).
Arguments Ret {A} a w.
Arguments Exit {A} code w.
Arguments Panic {A} e w.

Definition M (A : Type) : Type := World → Outcome A.

Definition ret {A} (a : A) : M A := λ w, Ret a w.

Definition bind {A B} (m : M A) (k : A → M B) : M B :=
  λ w, match m w with
       | Ret a w' => k a w'
       | Exit c w' => Exit c w'
       | Panic e w' => Panic e w'
       end.

#[global] Instance M_ret : MRet M := @ret.

#[global] Instance M_bind : MBind M := λ A B k m, bind m k.

Definition get : M World := λ w, Ret w w.

Definition modify (f : World → World) : M unit := λ w, Ret tt (f w).

Definition os_Exit {A} (code : nat) : M A := λ w, Exit code w.

Definition panic {A} (e : error) : M A := λ w, Panic e w.

Definition lift {A} (r : Go A) : M A :=
  match r with
  | Returns a => ret a
  | Panics e => panic e
  end.

(** The world a call leaves, however it ends. *)
Definition world_of {A} (o : Outcome A) : World :=
  match o with
  | Ret _ w => w
  | Exit _ w => w
  | Panic _ w => w
  end.

(** *** Streams and files *)

(** A write to a stream: the console for a descriptor, the buffer for a
    pipe. *)
Definition Fprint (f : File) (s : string) : M unit :=
  modify (λ w,
    match f with
    | Fd _ => set_console (console w +:+ s) w
    | PipeW id => set_pipes (<[id := default "" (pipes w !! id) +:+ s]> (pipes w)) w
    end).

Definition Fprintln (f : File) (s : string) : M unit := Fprint f (s +:+ "
").

(** [fmt.Println] and [fmt.Printf] write to the current [os.Stdout]. *)
Definition Println (s : string) : M unit :=
  w ← get; Fprintln (os_Stdout w) s.

(** [os.Pipe]: a fresh pipe with an empty buffer; the pipe is named by one
    number, which stands for both of its ends. *)
Definition os_Pipe : M (error + nat) :=
  λ w, match pipe_quota w with
       | O => Ret (inl (Errorf "pipe: too many open files")) w
       | S q =>
           let id := fresh (dom (pipes w)) in
           Ret (inr id) (set_pipe_quota q (set_pipes (<[id := ""]> (pipes w)) w))
       end.

(** The prefixes of a path, the path itself included. *)
Definition prefixes (p : path) : list path :=
  (λ n, take n p) <$> seq 1 (length p).

(** [os.MkdirAll]: fails when a component is a regular file. *)
Definition os_MkdirAll (p : path) : M (option error) :=
  λ w, if bool_decide (Exists (λ q, q ∈ dom (files w)) (prefixes p))
       then Ret (Some (Errorf "mkdir: not a directory")) w
       else Ret None (set_dirs (list_to_set (prefixes p) ∪ dirs w) w).

Definition parent (p : path) : path := take (length p - 1) p.

(** [os.OpenFile] for writing: the directory of the file must exist and the
    path must not be a directory; a missing file is created with
    [O_CREATE], an existing one is emptied with [O_TRUNC] and kept as it is
    without; the offset starts at 0. *)
Definition os_OpenFile (p : path) (flags : list OpenFlag) : M (error + Handle) :=
  λ w, if bool_decide (p ∈ dirs w)
       then Ret (inl (Errorf "open: is a directory")) w
       else if bool_decide (parent p ∈ dirs w)
       then match files w !! p with
            | Some old =>
                Ret (inr (mkHandle p 0))
                  (if bool_decide (O_TRUNC ∈ flags)
                   then set_files (<[p := ""]> (files w)) w else w)
            | None =>
                if bool_decide (O_CREATE ∈ flags)
                then Ret (inr (mkHandle p 0)) (set_files (<[p := ""]> (files w)) w)
                else Ret (inl (Errorf "open: no such file or directory")) w
            end
       else Ret (inl (Errorf "open: no such file or directory")) w.

(** The first [n] bytes of a string, and the string without them. *)
Fixpoint stake (n : nat) (s : string) : string :=
  match n, s with
  | S n, String a s => String a (stake n s)
  | _, _ => EmptyString
  end.

Fixpoint sdrop (n : nat) (s : string) : string :=
  match n, s with
  | S n, String a s => sdrop n s
  | _, _ => s
  end.

(** Writing [data] at offset [pos] replaces what was there and leaves the
    rest of the file. *)
Definition pwrite (old : string) (pos : nat) (data : string) : string :=
  stake pos old +:+ data +:+ sdrop (pos + String.length data) old.

(** A write through a handle, which returns the handle at its new offset. *)
Definition Write (h : Handle) (data : string) : M Handle :=
  λ w, Ret (mkHandle (hpath h) (hpos h + String.length data))
         (set_files
            (<[hpath h := pwrite (default "" (files w !! hpath h)) (hpos h) data]>
               (files w)) w).

(** ** What the program takes from outside

    The library functions and the collaborators the two variants call, and
    the choices the run time makes for them. *)
Record Externals := mkExternals {
  (** [strings.TrimSpace] *)
  TrimSpace : string → string;
  (** [dependency.Parse] of [pault.ag/go/debian]; [None] is a parse error *)
  dependency_Parse : string → option control.Dependency;
  (** [filepath.Abs]; [None] is its error *)
  filepath_Abs : path → option path;
  (** the package builder, [bpkg.MakeBuilder] followed by [Build] *)
  bpkg : BuildOpts → BuildRun;
  (** the order in which a [range] over the map of control files visits its
      entries: some enumeration of them *)
  mapRange : gmap string control.Control → list (string * control.Control);
  mapRange_perm : ∀ m, mapRange m ≡ₚ map_to_list m;
  (** listing the organisation's repositories and cloning them, the work of
      [cloneRepos] *)
  cloning : path → M (option error);
  (** how many units the worker had finished when the interrupt signal was
      received, [None] when the worker finished first *)
  interrupt : option nat
}.

(** ** Code shared by the two variants *)

(** [resolvePath]; the text of the error it prints is not kept. *)
Definition resolvePath (X : Externals) (p : path) : M path :=
  match filepath_Abs X p with
  | Some out => mret out
  | None =>
      w ← get;
      Fprintln (os_Stderr w) "cannot resolve path";;
      os_Exit 1
  end.

Record repoMetaData := mkRepoMetaData {
  ctrlFiles : gmap string control.Control;
  pack2repo : gmap string string;
  unparseable : list string
}.

(** The initial value of [out] in [enumerateBuildableRepos]. *)
Definition noRepos : repoMetaData := mkRepoMetaData ∅ ∅ [].

(** The two inner loops of [determineBuildOrder]: an edge for every
    possibility of every build-time relation whose name is in the index. *)
Definition addBuildDepends (X : Externals) (repos : repoMetaData)
    (repo : string) (ctrl : control.Control) (depGraph : tsort.Graph)
  : tsort.Graph :=
  foldl (λ g rel,
    foldl (λ g pos,
      let name := TrimSpace X (control.Name pos) in
      match pack2repo repos !! name with
      | None => g
      | Some drepo => tsort.AddEdge repo drepo g
      end) g (control.Possibilities rel))
    depGraph (control.Relations (control.BuildDepends (control.Source ctrl))).

(** The end of [determineBuildOrder]: sort, panic on the error, append the
    unparseable units. *)
Definition sortAndAppend (depGraph : tsort.Graph) (repos : repoMetaData)
  : Go (list string) :=
  match tsort.Sort depGraph with
  | None => Panics errCycle
  | Some sorted => Returns (sorted ++ unparseable repos)
  end.

Definition record (e : Event) : M unit :=
  modify (λ w, set_trace (trace w ++ [e]) w).

(** The builder's output goes to the current standard output. *)
Fixpoint emit (out : list string) : M unit :=
  match out with
  | [] => mret tt
  | chunk :: out => w ← get; Fprint (os_Stdout w) chunk;; emit out
  end.

(** The body of [buildRepo] once the options are made. *)
Definition runBuilder (X : Externals) (repo : string) (opts : BuildOpts)
  : M (option error) :=
  record (EvMakeBuilder opts);;
  match bpkg X opts with
  | MakeBuilderFails err => mret (Some (buildError repo err))
  | Builds out res =>
      record (EvBuild opts);;
      emit out;;
      match res with
      | Some err => mret (Some (buildError repo err))
      | None => mret None
      end
  end.

(** [io.Copy(out, outr)] with [out := io.MultiWriter(stdout, outf)], run to
    the end of the pipe: what the pipe holds goes to [stdout] and to the
    log file. *)
Definition io_Copy (stdout : File) (outf : Handle) (outr : nat) : M Handle :=
  w ← get;
  let data := default "" (pipes w !! outr) in
  modify (λ w, set_pipes (<[outr := ""]> (pipes w)) w);;
  Fprint stdout data;;
  Write outf data.

(** [teeAndEval], with the flags of its [os.OpenFile] as a parameter. The
    copying goroutine runs beside [fn]; [wg.Wait] returns once it has
    drained the pipe, which is where the copy is placed here. *)
Definition teeAndEvalWith (flags : list OpenFlag) (logdir : path)
    (repo : string) (fn : M (option error)) : M (option error) :=
  w ← get;
  let stdout := os_Stdout w in
  let stderr := os_Stderr w in
  p ← os_Pipe;
  match p with
  | inl e => mret (Some e)
  | inr pipe =>
      modify (set_Stdout (PipeW pipe));;
      modify (set_Stderr (PipeW pipe));;
      o ← os_OpenFile (Join logdir (repo +:+ ".log")) flags;
      match o with
      | inl e => mret (Some e)
      | inr outf =>
          rval ← fn;
          modify (set_Stdout stdout);;
          modify (set_Stderr stderr);;
          io_Copy stdout outf pipe;;
          mret rval
      end
  end.

(** The loop of the goroutine of [buildRepos]; [unit repo] is the call of
    [teeAndEval] for [repo]. *)
Fixpoint worker (unit : string → M (option error)) (repos : list string)
    (buildErrs : list error) (logf : Handle) : M (list error * Handle) :=
  match repos with
  | [] => mret (buildErrs, logf)
  | repo :: repos =>
      err ← unit repo;
      match err with
      | Some e =>
          logf ← Write logf (Error e +:+ "
");
          worker unit repos (buildErrs ++ [e]) logf
      | None => worker unit repos buildErrs logf
      end
  end.

(** [buildRepos], with the flags of its [os.OpenFile] as a parameter. When
    the interrupt wins the [select], the function returns with what the
    worker has done until then. *)
Definition buildReposWith (flags : list OpenFlag) (X : Externals)
    (unit : string → M (option error)) (repos : list string) (logDir : path)
  : M (option error) :=
  o ← os_OpenFile (Join logDir "failed-builds.log") flags;
  match o with
  | inl err => mret (Some err)
  | inr logf =>
      r ← worker unit
            (match interrupt X with
             | None => repos
             | Some k => take k repos
             end) [] logf;
      Println (match interrupt X with
               | None => "finished builds"
               | Some _ => "interrupt received"
               end);;
      match r.1 with
      | [] => mret None
      | _ :: _ => mret (Some (errList r.1))
      end
  end.

Definition handleError (err : option error) : M unit :=
  match err with
  | Some e => w ← get; Fprintln (os_Stderr w) (Error e);; os_Exit 1
  | None => mret tt
  end.

(** [fmt.Printf("Build order (%d repos): %s\n", len(buildOrder), buildOrder)] *)
Definition buildOrderLine (buildOrder : list string) : string :=
  "Build order (" +:+ pretty (length buildOrder) +:+ " repos): [" +:+
  String.concat " " buildOrder +:+ "]
".

Definition printBuildOrder (buildOrder : list string) : M unit :=
  w ← get; Fprint (os_Stdout w) (buildOrderLine buildOrder).

(** ** [src/main.go] *)

Module MainGo.

Record Flags := mkFlags {
  clone : bool;
  build : bool;
  srcDir : path;
  pkgDir : path;
  logDir : path;
  version : string
}.

Definition cloneRepos (X : Externals) (into : path) : M (option error) :=
  cloning X into.

(** One round of the loop over the directory entries. *)
Definition visitEntry (X : Externals) (out : repoMetaData) (repo : DirEntry)
  : repoMetaData :=
  match entryControl repo with
  | Absent => out
  | Malformed =>
      mkRepoMetaData (ctrlFiles out) (pack2repo out)
        (unparseable out ++ [entryName repo])
  | Parsed ctrl =>
      mkRepoMetaData (<[entryName repo := ctrl]> (ctrlFiles out))
        (foldl (λ p2r bin,
           let pkgName := TrimSpace X (control.Package bin) in
           <[pkgName := entryName repo]> p2r)
           (pack2repo out) (control.Binaries ctrl))
        (unparseable out)
  end.

Definition enumerateBuildableRepos (X : Externals) (from : path)
  : M repoMetaData :=
  w ← get;
  match srcTree w !! from with
  | None => panic (Errorf "open: no such file or directory")
  | Some repos => mret (foldl (visitEntry X) noRepos repos)
  end.

(** One round of the loop over [repos.ctrlFiles]. *)
Definition visitRepo (X : Externals) (repos : repoMetaData)
    (depGraph : tsort.Graph) (entry : string * control.Control) : tsort.Graph :=
  let '(repo, ctrl) := entry in
  let depGraph := tsort.AddVertex repo depGraph in
  let depGraph := tsort.AddEdge repo "base-files" depGraph in
  addBuildDepends X repos repo ctrl depGraph.

(** The graph [determineBuildOrder] hands to [Sort]. *)
Definition depGraph (X : Externals) (repos : repoMetaData) : tsort.Graph :=
  foldl (visitRepo X repos) tsort.New (mapRange X (ctrlFiles repos)).

Definition determineBuildOrder (X : Externals) (repos : repoMetaData)
  : Go (list string) :=
  sortAndAppend (depGraph X repos) repos.

Definition buildRepo (X : Externals) (debDir baseDir : path)
    (repo version : string) : M (option error) :=
  Println ("Building " +:+ repo);;
  src ← resolvePath X (Join baseDir repo);
  dst ← resolvePath X debDir;
  pref ← resolvePath X debDir;
  runBuilder X repo (mkBuildOpts src dst pref None version false).

Definition teeAndEval : path → string → M (option error) → M (option error) :=
  teeAndEvalWith [O_RDWR; O_CREATE].

Definition buildRepos (X : Externals) (repos : list string)
    (logDir debDir baseDir : path) (version : string) : M (option error) :=
  buildReposWith [O_RDWR; O_CREATE] X
    (λ repo, teeAndEval logDir repo (buildRepo X debDir baseDir repo version))
    repos logDir.

(** The rest of [main] once the repositories are enumerated. *)
Definition orderAndBuild (X : Externals) (f : Flags) (repos : repoMetaData)
  : M unit :=
  buildOrder ← lift (determineBuildOrder X repos);
  printBuildOrder buildOrder;;
  if build f
  then
    err ← os_MkdirAll (logDir f);
    handleError err;;
    err ← buildRepos X buildOrder (logDir f) (pkgDir f) (srcDir f) (version f);
    handleError err
  else mret tt.

Definition main (X : Externals) (f : Flags) : M unit :=
  (if clone f
   then err ← cloneRepos X (srcDir f); handleError err
   else mret tt);;
  repos ← enumerateBuildableRepos X (srcDir f);
  orderAndBuild X f repos.

End MainGo.

(** ** [src/unnamed/part_000] *)

Module Part000.

Record Flags := mkFlags {
  clone : bool;
  build : bool;
  local : bool;
  srcDir : path;
  pkgDir : path;
  logDir : path;
  imageName : string;
  version : string;
  gitRef : string
}.

Definition cloneRepos (X : Externals) (into : path) : M (option error) :=
  os_MkdirAll into;;
  cloning X into.

(** The body of the loop over [ctrl.Binaries]. *)
Definition indexBinary (X : Externals) (repo : string)
    (p2r : gmap string string) (bin : control.BinaryParagraph)
  : gmap string string :=
  let pkgName := TrimSpace X (control.Package bin) in
  let p2r := <[pkgName := repo]> p2r in
  match control.Values bin !! "Provides" with
  | None => p2r
  | Some providesStr =>
      match dependency_Parse X providesStr with
      | None => p2r
      | Some provides =>
          foldl (λ p2r poss,
            let name := TrimSpace X (control.Name poss) in
            <[name := repo]> p2r)
            p2r (control.GetAllPossibilities provides)
      end
  end.

(** One round of the loop over the directory entries. *)
Definition visitEntry (X : Externals) (out : repoMetaData) (repo : DirEntry)
  : repoMetaData :=
  match entryControl repo with
  | Absent => out
  | Malformed =>
      mkRepoMetaData (ctrlFiles out) (pack2repo out)
        (unparseable out ++ [entryName repo])
  | Parsed ctrl =>
      mkRepoMetaData (<[entryName repo := ctrl]> (ctrlFiles out))
        (foldl (indexBinary X (entryName repo)) (pack2repo out)
           (control.Binaries ctrl))
        (unparseable out)
  end.

Definition enumerateBuildableRepos (X : Externals) (from : path)
  : M repoMetaData :=
  w ← get;
  match srcTree w !! from with
  | None => panic (Errorf "open: no such file or directory")
  | Some repos => mret (foldl (visitEntry X) noRepos repos)
  end.

(** The edges every unit gets, but for the units the code leaves out. *)
Definition addBaseEdges (repo : string) (depGraph : tsort.Graph) : tsort.Graph :=
  if bool_decide (repo ≠ "base-files" ∧ repo ≠ "lintian-profile-vyatta")
  then
    let depGraph := tsort.AddEdge repo "base-files" depGraph in
    let depGraph := tsort.AddEdge repo "lintian-profile-vyatta" depGraph in
    if bool_decide (repo ≠ "linux-vyatta")
    then tsort.AddEdge repo "linux-vyatta" depGraph
    else depGraph
  else depGraph.

(** One round of the loop over [repos.ctrlFiles]. *)
Definition visitRepo (X : Externals) (repos : repoMetaData)
    (depGraph : tsort.Graph) (entry : string * control.Control) : tsort.Graph :=
  let '(repo, ctrl) := entry in
  let depGraph := tsort.AddVertex repo depGraph in
  let depGraph := addBaseEdges repo depGraph in
  addBuildDepends X repos repo ctrl depGraph.

(** The graph [determineBuildOrder] hands to [Sort]. *)
Definition depGraph (X : Externals) (repos : repoMetaData) : tsort.Graph :=
  foldl (visitRepo X repos) tsort.New (mapRange X (ctrlFiles repos)).

Definition determineBuildOrder (X : Externals) (repos : repoMetaData)
  : Go (list string) :=
  sortAndAppend (depGraph X repos) repos.

Definition buildRepo (X : Externals) (debDir baseDir : path)
    (repo imageName version : string) (local : bool) : M (option error) :=
  Println ("Building " +:+ repo);;
  repoPath ← resolvePath X (Join baseDir repo);
  dst ← resolvePath X debDir;
  pref ← resolvePath X debDir;
  runBuilder X repo (mkBuildOpts repoPath dst pref (Some imageName) version local).

Definition teeAndEval : path → string → M (option error) → M (option error) :=
  teeAndEvalWith [O_RDWR; O_CREATE; O_TRUNC].

Definition buildRepos (X : Externals) (repos : list string)
    (logDir debDir baseDir : path) (imageName version : string) (local : bool)
  : M (option error) :=
  buildReposWith [O_RDWR; O_CREATE; O_TRUNC] X
    (λ repo, teeAndEval logDir repo
               (buildRepo X debDir baseDir repo imageName version local))
    repos logDir.

(** The rest of [main] once the repositories are enumerated. *)
Definition orderAndBuild (X : Externals) (f : Flags) (repos : repoMetaData)
  : M unit :=
  buildOrder ← lift (determineBuildOrder X repos);
  printBuildOrder buildOrder;;
  if build f
  then
    err ← os_MkdirAll (logDir f);
    handleError err;;
    err ← buildRepos X buildOrder (logDir f) (pkgDir f) (srcDir f)
            (imageName f) (version f) (local f);
    handleError err
  else mret tt.

Definition main (X : Externals) (f : Flags) : M unit :=
  (if clone f
   then
     (if bool_decide (gitRef f = "")
      then handleError (Some (Errorf "Must supply git ref to clone"))
      else mret tt);;
     err ← cloneRepos X (srcDir f);
     handleError err
   else mret tt);;
  repos ← enumerateBuildableRepos X (srcDir f);
  orderAndBuild X f repos.

End Part000.

(** ** Concrete inputs

    A small environment and a few source trees, on which the definitions
    are evaluated. *)

Module demo.

Fixpoint ltrim (s : string) : string :=
  match s with
  | String a s' => if Ascii.is_space a then ltrim s' else s
  | EmptyString => EmptyString
  end.

(** Trimming of the ASCII white space. *)
Definition trim (s : string) : string :=
  String.rev (ltrim (String.rev (ltrim s))).

(** The fields of [s] between commas; [cur] is the field being read,
    reversed. *)
Fixpoint fields (cur : string) (s : string) : list string :=
  match s with
  | EmptyString => [String.rev cur]
  | String a s' =>
      if Ascii.eqb a ","%char
      then String.rev cur :: fields EmptyString s'
      else fields (String a cur) s'
  end.

Fixpoint has_dollar (s : string) : bool :=
  match s with
  | EmptyString => false
  | String a s' => Ascii.eqb a "$"%char || has_dollar s'
  end.

(** A parser of dependency declarations: one relation of one possibility
    per field; a declaration with a substitution variable is an error. *)
Definition parse (s : string) : option control.Dependency :=
  if has_dollar s then None
  else Some (control.mkDependency
               ((λ n, control.mkRelation [control.mkPossibility n])
                  <$> fields EmptyString s)).

(** A builder that fails for the unit whose directory is named [broken]. *)
Definition builder (o : BuildOpts) : BuildRun :=
  match last (SourceDirectory o) with
  | Some "broken" => Builds ["compiling
"] (Some (Errorf "exit status 2"))
  | Some "nobuilder" => MakeBuilderFails (Errorf "no such image")
  | _ => Builds ["compiling
"; "done
"] None
  end.

Definition X : Externals := {|
  TrimSpace := trim;
  dependency_Parse := parse;
  filepath_Abs := λ p, Some ("work" :: p);
  bpkg := builder;
  mapRange := map_to_list;
  mapRange_perm := λ m, Permutation_refl _;
  cloning := λ _, mret None;
  interrupt := None
|}.

(** A control file with the given build-time relations (lists of
    alternatives) and binary packages (name and [Provides] field). *)
Definition ctrl (deps : list (list string))
    (bins : list (string * option string)) : control.Control :=
  control.mkControl
    (control.mkSource
       (control.mkDependency
          ((λ alts, control.mkRelation (control.mkPossibility <$> alts)) <$> deps)))
    ((λ b, control.mkBinary b.1
             (match b.2 with
              | Some p => {["Provides" := p]}
              | None => ∅
              end)) <$> bins).

(** Unit [a] needs [libb-dev], which unit [b] provides under an alias. *)
Definition tree : list DirEntry := [
  mkDirEntry "a" (Parsed (ctrl [["debhelper"]; [" libb-dev "; "libother-dev"]]
                            [("a-bin", None)]));
  mkDirEntry "b" (Parsed (ctrl [] [(" libb1 ", Some "libb-dev, libb-abi-1")]));
  mkDirEntry "base-files" (Parsed (ctrl [] [("base-files", None)]));
  mkDirEntry "docs" Absent
].

(** The units [a] and [b] alone. *)
Definition treeAlias : list DirEntry := take 2 tree.

(** A tree in which the control file of [base-files] does not parse. *)
Definition treeMalformed : list DirEntry := [
  mkDirEntry "a" (Parsed (ctrl [] [("a-bin", None)]));
  mkDirEntry "base-files" Malformed
].

(** Three units, the metadata of the middle one does not parse. *)
Definition treeMiddle : list DirEntry := [
  mkDirEntry "a" (Parsed (ctrl [["z-dev"]] [("a-bin", None)]));
  mkDirEntry "m" Malformed;
  mkDirEntry "z" (Parsed (ctrl [] [("z-dev", None)]))
].

(** Two units that need each other. *)
Definition treeCycle : list DirEntry := [
  mkDirEntry "a" (Parsed (ctrl [["b-dev"]] [("a-dev", None)]));
  mkDirEntry "b" (Parsed (ctrl [["a-dev"]] [("b-dev", None)]))
].

(** A process with its standard descriptors and no log directory. *)
Definition worldNoLog : World :=
  mkWorld (Fd 1) (Fd 2) "" ∅ 8 ∅ ∅ {[ ["src"] := tree ]} [].

(** A process with its standard descriptors, a log directory that holds
    the failure log of an earlier run, and the source tree. *)
Definition world : World :=
  mkWorld (Fd 1) (Fd 2) "" ∅ 8 {[ ["log"] ]}
    {[ ["log"; "failed-builds.log"] := "build for old failed: exit status 2
" ]}
    {[ ["src"] := tree ]} [].

End demo.

(** ** The two variants side by side *)

Inductive variant := main_go | part_000.

Definition depGraph_of (v : variant) : Externals → repoMetaData → tsort.Graph :=
  match v with
  | main_go => MainGo.depGraph
  | part_000 => Part000.depGraph
  end.

Definition determineBuildOrder_of (v : variant)
  : Externals → repoMetaData → Go (list string) :=
  match v with
  | main_go => MainGo.determineBuildOrder
  | part_000 => Part000.determineBuildOrder
  end.

Definition visitEntry_of (v : variant)
  : Externals → repoMetaData → DirEntry → repoMetaData :=
  match v with
  | main_go => MainGo.visitEntry
  | part_000 => Part000.visitEntry
  end.

(** The names the implicit edges of a variant point to. *)
Definition baseNames (v : variant) : list string :=
  match v with
  | main_go => ["base-files"]
  | part_000 => ["base-files"; "lintian-profile-vyatta"; "linux-vyatta"]
  end.

(** The implicit edges of a variant, as a relation between a unit and the
    target of the edge. *)
Definition implicit (v : variant) (u d : string) : Prop :=
  match v with
  | main_go => d = "base-files"
  | part_000 =>
      u ≠ "base-files" ∧ u ≠ "lintian-profile-vyatta" ∧
      (d = "base-files" ∨ d = "lintian-profile-vyatta" ∨
       (d = "linux-vyatta" ∧ u ≠ "linux-vyatta"))
  end.

(** A unit with control file [ctrl] declares a build-time requirement that
    the index resolves to unit [d]. *)
Definition declared (X : Externals) (repos : repoMetaData)
    (ctrl : control.Control) (d : string) : Prop :=
  ∃ rel pos,
    rel ∈ control.Relations (control.BuildDepends (control.Source ctrl)) ∧
    pos ∈ control.Possibilities rel ∧
    pack2repo repos !! TrimSpace X (control.Name pos) = Some d.

Definition is_malformed (e : DirEntry) : bool :=
  match entryControl e with
  | Malformed => true
  | _ => false
  end.

Definition is_parsed (e : DirEntry) : bool :=
  match entryControl e with
  | Parsed _ => true
  | _ => false
  end.

(** The names a binary paragraph is indexed under in [Part000]: its
    package name and the names of its [Provides] field when the field is
    there and parses. *)
Definition indexedNames (X : Externals) (bin : control.BinaryParagraph)
  : list string :=
  TrimSpace X (control.Package bin) ::
  match control.Values bin !! "Provides" with
  | None => []
  | Some providesStr =>
      match dependency_Parse X providesStr with
      | None => []
      | Some provides =>
          (λ poss, TrimSpace X (control.Name poss))
            <$> control.GetAllPossibilities provides
      end
  end.

(** The names a variant indexes for a unit with control file [ctrl]. *)
Definition namesOf (v : variant) (X : Externals) (ctrl : control.Control)
  : list string :=
  match v with
  | main_go => (λ bin, TrimSpace X (control.Package bin)) <$> control.Binaries ctrl
  | part_000 => mjoin (indexedNames X <$> control.Binaries ctrl)
  end.

(** ** What one unit of the build order does *)

Definition cat (l : list string) : string := foldr String.append "" l.

(** [buildRepo] for any way [mk] of making the options from the three
    resolved paths; [MainGo.buildRepo] and [Part000.buildRepo] are
    instances. *)
Definition buildRepoWith (X : Externals) (mk : path → path → path → BuildOpts)
    (debDir baseDir : path) (repo : string) : M (option error) :=
  Println ("Building " +:+ repo);;
  src ← resolvePath X (Join baseDir repo);
  dst ← resolvePath X debDir;
  pref ← resolvePath X debDir;
  runBuilder X repo (mk src dst pref).

(** The path of the log of a unit. *)
Definition logPath (logDir : path) (repo : string) : path :=
  Join logDir (repo +:+ ".log").

(** The error [buildRepo] returns for a run of the builder. *)
Definition unitFailure (repo : string) (run : BuildRun) : option error :=
  match run with
  | MakeBuilderFails err => Some (buildError repo err)
  | Builds _ (Some err) => Some (buildError repo err)
  | Builds _ None => None
  end.

(** The calls of the builder [buildRepo] makes. *)
Definition unitEvents (opts : BuildOpts) (run : BuildRun) : list Event :=
  match run with
  | MakeBuilderFails _ => [EvMakeBuilder opts]
  | Builds _ _ => [EvMakeBuilder opts; EvBuild opts]
  end.

(** The bytes [buildRepo] writes to the standard output. *)
Definition unitOutput (repo : string) (run : BuildRun) : string :=
  ("Building " +:+ repo +:+ "
") +:+
  match run with
  | MakeBuilderFails _ => ""
  | Builds out _ => cat out
  end.

(** The world after [teeAndEval] has run a unit that wrote [data] and made
    the calls [evs]: a pipe has been used, [data] has reached the stream
    that was the standard output at entry and the log of the unit, written
    from offset 0. *)
Definition afterUnit (flags : list OpenFlag) (logdir : path) (repo : string)
    (data : string) (evs : list Event) (w : World) : World :=
  let id := fresh (dom (pipes w)) in
  let p := logPath logdir repo in
  let old := if bool_decide (O_TRUNC ∈ flags) then ""
             else default "" (files w !! p) in
  world_of
    (Fprint (os_Stdout w) data
       (mkWorld (os_Stdout w) (os_Stderr w) (console w)
          (<[id := ""]> (pipes w)) (pipe_quota w - 1) (dirs w)
          (<[p := pwrite old 0 data]> (files w)) (srcTree w)
          (trace w ++ evs))).

(** ** A run of [buildRepos] *)

(** The options [buildRepo] hands to the builder for a unit, with the
    paths as [filepath.Abs] resolves them. *)
Definition unitOpts (X : Externals) (mk : path → path → path → BuildOpts)
    (debDir baseDir : path) (repo : string) : BuildOpts :=
  mk (default [] (filepath_Abs X (Join baseDir repo)))
     (default [] (filepath_Abs X debDir))
     (default [] (filepath_Abs X debDir)).

Definition unitRun (X : Externals) (mk : path → path → path → BuildOpts)
    (debDir baseDir : path) (repo : string) : BuildRun :=
  bpkg X (unitOpts X mk debDir baseDir repo).

(** The path of the aggregate failure log. *)
Definition failureLog (logDir : path) : path := Join logDir "failed-builds.log".

(** The line [fmt.Fprintln(logf, err)] writes. *)
Definition logLine (e : error) : string := Error e +:+ "
".

(** A world in which every unit of [repos] can be run: the log directory
    exists, no log path is a directory or the path of the failure log, the
    system grants a pipe per unit and the paths resolve. *)
Definition canRun (X : Externals) (logDir debDir baseDir : path)
    (repos : list string) (w : World) : Prop :=
  logDir ∈ dirs w ∧
  (failureLog logDir ∉ dirs w) ∧
  length repos ≤ pipe_quota w ∧
  is_Some (filepath_Abs X debDir) ∧
  ∀ repo, repo ∈ repos →
    (logPath logDir repo ∉ dirs w) ∧
    logPath logDir repo ≠ failureLog logDir ∧
    is_Some (filepath_Abs X (Join baseDir repo)).

(** The call of [teeAndEval] the worker makes for a unit. *)
Definition unitCall (flags : list OpenFlag) (X : Externals)
    (mk : path → path → path → BuildOpts) (logDir debDir baseDir : path)
    (repo : string) : M (option error) :=
  teeAndEvalWith flags logDir repo (buildRepoWith X mk debDir baseDir repo).

(** The options each variant makes, the flags it opens its logs with, and
    its [buildRepos]. *)
Definition mkOpts_of (v : variant) (imageName version : string) (local : bool)
  : path → path → path → BuildOpts :=
  match v with
  | main_go => λ src dst pref, mkBuildOpts src dst pref None version false
  | part_000 => λ src dst pref, mkBuildOpts src dst pref (Some imageName) version local
  end.

Definition flags_of (v : variant) : list OpenFlag :=
  match v with
  | main_go => [O_RDWR; O_CREATE]
  | part_000 => [O_RDWR; O_CREATE; O_TRUNC]
  end.

Definition buildRepos_of (v : variant) (X : Externals) (repos : list string)
    (logDir debDir baseDir : path) (imageName version : string) (local : bool)
  : M (option error) :=
  match v with
  | main_go => MainGo.buildRepos X repos logDir debDir baseDir version
  | part_000 =>
      Part000.buildRepos X repos logDir debDir baseDir imageName version local
  end.

Definition teeAndEval_of (v : variant)
  : path → string → M (option error) → M (option error) :=
  match v with
  | main_go => MainGo.teeAndEval
  | part_000 => Part000.teeAndEval
  end.

(** The command line of either variant. *)
Inductive CommandLine :=
  | ForMainGo (f : MainGo.Flags)
  | ForPart000 (f : Part000.Flags).

Definition variant_of (c : CommandLine) : variant :=
  match c with
  | ForMainGo _ => main_go
  | ForPart000 _ => part_000
  end.

Definition clone_of (c : CommandLine) : bool :=
  match c with
  | ForMainGo f => MainGo.clone f
  | ForPart000 f => Part000.clone f
  end.

Definition build_of (c : CommandLine) : bool :=
  match c with
  | ForMainGo f => MainGo.build f
  | ForPart000 f => Part000.build f
  end.

Definition srcDir_of (c : CommandLine) : path :=
  match c with
  | ForMainGo f => MainGo.srcDir f
  | ForPart000 f => Part000.srcDir f
  end.

Definition main_of (X : Externals) (c : CommandLine) : M unit :=
  match c with
  | ForMainGo f => MainGo.main X f
  | ForPart000 f => Part000.main X f
  end.

(** ** The two goroutines of [teeAndEval]

    Once the pipe and the log are open, [teeAndEval] runs [fn] in the
    calling goroutine while a second goroutine copies the pipe to the
    stream that was the standard output at entry and to the log. The
    steps of the two are interleaved in any order. [fn] is taken to write
    a list of chunks to the standard output and to return. *)

Module Tee.

(** Where the calling goroutine is: in [fn] with the chunks it has still
    to write, then before each statement that follows the call. *)
Inductive Caller :=
  | InFn (todo : list string)
  | AtClose
  | AtRestoreStdout
  | AtRestoreStderr
  | AtWait
  | Returned.

Inductive Copier := Copying | Finished.

Record State := mkState {
  Stdout : File;
  Stderr : File;
  (** the bytes in the pipe *)
  buffer : string;
  outwClosed : bool;
  (** the bytes the copy has written to the stream saved in [stdout] *)
  terminal : string;
  (** the contents of the log and the offset of [outf] *)
  logFile : string;
  offset : nat;
  (** the counter of the wait group *)
  wg : nat;
  caller : Caller;
  copier : Copier
}.

(** The state after [wg.Add(1)] and the [go] statement: both standard
    streams are the pipe, the log holds [old]. *)
Definition init (pipe : nat) (chunks : list string) (old : string) : State :=
  mkState (PipeW pipe) (PipeW pipe) "" false "" old 0 1 (InFn chunks) Copying.

(** A write of [fn] to the file [os.Stdout] holds: into the pipe when it is
    the pipe. *)
Definition fnWrite (pipe : nat) (c : string) (s : State) : string :=
  if bool_decide (Stdout s = PipeW pipe) then buffer s +:+ c else buffer s.

Inductive step (stdout stderr : File) (pipe : nat) : State → State → Prop :=
  (** [fn] writes its next chunk *)
  | fn_writes s c todo :
      caller s = InFn (c :: todo) →
      step stdout stderr pipe s
        (mkState (Stdout s) (Stderr s) (fnWrite pipe c s) (outwClosed s)
           (terminal s) (logFile s) (offset s) (wg s) (InFn todo) (copier s))
  (** [rval := fn()] *)
  | fn_returns s :
      caller s = InFn [] →
      step stdout stderr pipe s
        (mkState (Stdout s) (Stderr s) (buffer s) (outwClosed s)
           (terminal s) (logFile s) (offset s) (wg s) AtClose (copier s))
  (** [outw.Close()] *)
  | closes s :
      caller s = AtClose →
      step stdout stderr pipe s
        (mkState (Stdout s) (Stderr s) (buffer s) true
           (terminal s) (logFile s) (offset s) (wg s) AtRestoreStdout (copier s))
  (** [os.Stdout = stdout] *)
  | restores_stdout s :
      caller s = AtRestoreStdout →
      step stdout stderr pipe s
        (mkState stdout (Stderr s) (buffer s) (outwClosed s)
           (terminal s) (logFile s) (offset s) (wg s) AtRestoreStderr (copier s))
  (** [os.Stderr = stderr] *)
  | restores_stderr s :
      caller s = AtRestoreStderr →
      step stdout stderr pipe s
        (mkState (Stdout s) stderr (buffer s) (outwClosed s)
           (terminal s) (logFile s) (offset s) (wg s) AtWait (copier s))
  (** [wg.Wait()] returns when the counter is zero *)
  | waits s :
      caller s = AtWait → wg s = 0 →
      step stdout stderr pipe s
        (mkState (Stdout s) (Stderr s) (buffer s) (outwClosed s)
           (terminal s) (logFile s) (offset s) (wg s) Returned (copier s))
  (** [io.Copy] reads some bytes of the pipe and writes them to [stdout]
      and to the log *)
  | copies s d1 d2 :
      copier s = Copying → buffer s = d1 +:+ d2 → d1 ≠ "" →
      step stdout stderr pipe s
        (mkState (Stdout s) (Stderr s) d2 (outwClosed s)
           (terminal s +:+ d1) (pwrite (logFile s) (offset s) d1)
           (offset s + String.length d1) (wg s) (caller s) (copier s))
  (** [io.Copy] reads the end of the pipe and returns; [wg.Done()] *)
  | copy_ends s :
      copier s = Copying → buffer s = "" → outwClosed s = true →
      step stdout stderr pipe s
        (mkState (Stdout s) (Stderr s) (buffer s) (outwClosed s)
           (terminal s) (logFile s) (offset s) (wg s - 1) (caller s) Finished).

(** The bytes [fn] has written when the calling goroutine is at [c]. *)
Definition written (chunks : list string) (c : Caller) (data : string) : Prop :=
  match c with
  | InFn todo => ∃ before, chunks = before ++ todo ∧ data = cat before
  | _ => data = cat chunks
  end.

(** What holds in every state of a run. *)
Definition Inv (stdout stderr : File) (pipe : nat) (chunks : list string)
    (old : string) (s : State) : Prop :=
  written chunks (caller s) (terminal s +:+ buffer s) ∧
  logFile s = pwrite old 0 (terminal s) ∧
  offset s = String.length (terminal s) ∧
  match caller s with
  | InFn _ | AtClose =>
      outwClosed s = false ∧ Stdout s = PipeW pipe ∧ Stderr s = PipeW pipe
  | AtRestoreStdout =>
      outwClosed s = true ∧ Stdout s = PipeW pipe ∧ Stderr s = PipeW pipe
  | AtRestoreStderr =>
      outwClosed s = true ∧ Stdout s = stdout ∧ Stderr s = PipeW pipe
  | AtWait =>
      outwClosed s = true ∧ Stdout s = stdout ∧ Stderr s = stderr
  | Returned =>
      outwClosed s = true ∧ Stdout s = stdout ∧ Stderr s = stderr ∧
      copier s = Finished
  end ∧
  match copier s with
  | Copying => wg s = 1
  | Finished => wg s = 0 ∧ buffer s = "" ∧ outwClosed s = true
  end.

End Tee.

(** ** Further names for the two variants *)

Definition enumerateBuildableRepos_of (v : variant)
  : Externals → path → M repoMetaData :=
  match v with
  | main_go => MainGo.enumerateBuildableRepos
  | part_000 => Part000.enumerateBuildableRepos
  end.

Definition is_absent (e : DirEntry) : bool :=
  match entryControl e with
  | Absent => true
  | _ => false
  end.

(** A directory entry whose control file parsed declares the name [n]. *)
Definition declares (v : variant) (X : Externals) (n : string) (e : DirEntry)
  : Prop :=
  ∃ ctrl, entryControl e = Parsed ctrl ∧ n ∈ namesOf v X ctrl.

Definition logDir_of (c : CommandLine) : path :=
  match c with
  | ForMainGo f => MainGo.logDir f
  | ForPart000 f => Part000.logDir f
  end.

Definition pkgDir_of (c : CommandLine) : path :=
  match c with
  | ForMainGo f => MainGo.pkgDir f
  | ForPart000 f => Part000.pkgDir f
  end.

Definition cloneRepos_of (v : variant) : Externals → path → M (option error) :=
  match v with
  | main_go => MainGo.cloneRepos
  | part_000 => Part000.cloneRepos
  end.

Definition buildRepo_of (v : variant) (X : Externals) (debDir baseDir : path)
    (repo imageName version : string) (local : bool) : M (option error) :=
  match v with
  | main_go => MainGo.buildRepo X debDir baseDir repo version
  | part_000 => Part000.buildRepo X debDir baseDir repo imageName version local
  end.

(** [Part000] wants a git reference with [-clone]; [MainGo] has no such
    flag. *)
Definition gitRefGiven (c : CommandLine) : Prop :=
  match c with
  | ForMainGo _ => True
  | ForPart000 f => Part000.gitRef f ≠ ""
  end.

(** ** Standard streams that are pipes *)

Definition is_pipe (f : File) : Prop :=
  match f with
  | PipeW _ => True
  | Fd _ => False
  end.

(** Both standard streams are write ends of pipes. *)
Definition piped (w : World) : Prop :=
  is_pipe (os_Stdout w) ∧ is_pipe (os_Stderr w).

(** A call that, started with both standard streams on pipes, leaves them
    on pipes and writes nothing to the console, however it ends. *)
Definition quiet {A} (m : M A) : Prop :=
  ∀ w, piped w → piped (world_of (m w)) ∧ console (world_of (m w)) = console w.

(** ** A run of [main] with [-build] *)

Definition imageName_of (c : CommandLine) : string :=
  match c with
  | ForMainGo _ => ""
  | ForPart000 f => Part000.imageName f
  end.

Definition version_of (c : CommandLine) : string :=
  match c with
  | ForMainGo f => MainGo.version f
  | ForPart000 f => Part000.version f
  end.

Definition local_of (c : CommandLine) : bool :=
  match c with
  | ForMainGo _ => false
  | ForPart000 f => Part000.local f
  end.

(** A world in which [main] can make the log directory and then run every
    unit of [repos]: no component of the path of the log directory is a
    regular file, and the rest as in [canRun]. *)
Definition canStart (X : Externals) (logDir debDir baseDir : path)
    (repos : list string) (w : World) : Prop :=
  logDir ≠ [] ∧
  ¬ Exists (λ q, q ∈ dom (files w)) (prefixes logDir) ∧
  (failureLog logDir ∉ dirs w) ∧
  length repos ≤ pipe_quota w ∧
  is_Some (filepath_Abs X debDir) ∧
  ∀ repo, repo ∈ repos →
    (logPath logDir repo ∉ dirs w) ∧
    logPath logDir repo ≠ failureLog logDir ∧
    is_Some (filepath_Abs X (Join baseDir repo)).

(** ** [tagIsElementOf] and [cloneRepos] in full

    The part of the two variants that talks to GitHub and to git. What
    the program asks of them is recorded as a list of actions, each with
    the error it gave. *)

Module Cloning.

(** [github.RepositoryTag] and [github.Repository]: the fields the
    program reads, pointers that may be nil. The slices hold pointers to
    these structures; a nil one is the structure with every field nil, the
    first dereference of a field panics either way. *)
Record RepositoryTag := mkRepositoryTag { TagName : option string }.

Record Repository := mkRepository {
  Name : option string;
  CloneURL : option string;
  Archived : option bool
}.

(** The panic of a dereference of a nil pointer. *)
Definition nilDeref : error :=
  Errorf "runtime error: invalid memory address or nil pointer dereference".

Fixpoint tagIsElementOf (tag : string) (set : list RepositoryTag) : Go bool :=
  match set with
  | [] => Returns false
  | elem :: set =>
      match TagName elem with
      | None => Panics nilDeref
      | Some name =>
          if bool_decide (tag = name) then Returns true
          else tagIsElementOf tag set
      end
  end.

Inductive Stream := Stdout | Stderr.

Inductive Action :=
  | MkdirAll (p : path)
  (** [git clone url name], run in [dir] *)
  | GitClone (url : string) (dir : path) (name : string)
  (** [git.PlainClone(dest, false, &git.CloneOptions{URL: url, ...})] *)
  | PlainClone (dest : path) (url : string)
  (** [git checkout ref], run in [dir] *)
  | GitCheckout (ref : string) (dir : path)
  | RemoveAll (dir : path)
  | Print (s : Stream) (text : string).

(** An action that was made, with the error it gave. *)
Definition Made : Type := Action * option error.

Record Env := mkEnv {
  (** [client.Repositories.ListByOrg] for a page: an error, or the
      repositories of the page and [resp.NextPage] *)
  ListByOrg : nat → error + (list Repository * nat);
  (** the error of a command or of a call of the file system, made after
      the given ones *)
  result : list Made → Action → option error
}.

(** The loop that gets all pages; [None] when [fuel] requests did not
    reach the last page. *)
Fixpoint listAll (E : Env) (fuel page : nat) (allRepos : list Repository)
  : option (error + list Repository) :=
  match fuel with
  | O => None
  | S fuel =>
      match ListByOrg E page with
      | inl err => Some (inl err)
      | inr (repos, NextPage) =>
          let allRepos := allRepos ++ repos in
          if bool_decide (NextPage = 0) then Some (inr allRepos)
          else listAll E fuel NextPage allRepos
      end
  end.

(** [repo.Archived != nil && *repo.Archived] *)
Definition archived (repo : Repository) : bool :=
  match Archived repo with
  | Some true => true
  | _ => false
  end.

(** What the loop over the repositories has done and collected. *)
Record Progress := mkProgress {
  made : list Made;
  cloneErrs : list error
}.

Definition perform (E : Env) (a : Action) (p : Progress)
  : option error * Progress :=
  let err := result E (made p) a in
  (err, mkProgress (made p ++ [(a, err)]) (cloneErrs p)).

Definition print (s : Stream) (text : string) (p : Progress) : Progress :=
  mkProgress (made p ++ [(Print s text, None)]) (cloneErrs p).

(** [cloneErrs = append(cloneErrs, err)] *)
Definition collect (err : error) (p : Progress) : Progress :=
  mkProgress (made p) (cloneErrs p ++ [err]).

(** The loop over [allRepos], with the body [one] for a repository that
    is not archived. *)
Fixpoint cloneEach (one : string → string → Progress → Progress)
    (allRepos : list Repository) (p : Progress) : Go Progress :=
  match allRepos with
  | [] => Returns p
  | repo :: allRepos =>
      if archived repo then cloneEach one allRepos p
      else
        match CloneURL repo, Name repo with
        | Some url, Some name => cloneEach one allRepos (one url name p)
        | _, _ => Panics nilDeref
        end
  end.

(** The end of [cloneRepos]. *)
Definition finish (p : Progress) : list Made * option error :=
  (made p,
   match cloneErrs p with
   | [] => None
   | _ :: _ => Some (errList (cloneErrs p))
   end).

(** [cloneRepos] from the listing on, from the progress [p]. *)
Definition listAndClone (E : Env) (fuel : nat)
    (one : string → string → Progress → Progress) (p : Progress)
  : option (Go (list Made * option error)) :=
  match listAll E fuel 0 [] with
  | None => None
  | Some (inl err) => Some (Returns (made p, Some err))
  | Some (inr allRepos) =>
      Some (match cloneEach one allRepos p with
            | Returns p => Returns (finish p)
            | Panics e => Panics e
            end)
  end.

Module MainGo.

(** The body of the loop of [src/main.go]. *)
Definition cloneOne (E : Env) (into : path) (url name : string) (p : Progress)
  : Progress :=
  let p := print Stdout ("Cloning " +:+ name +:+ " from " +:+ url +:+ "
") p in
  let '(err, p) := perform E (PlainClone (Join into name) url) p in
  match err with
  | Some err => collect (cloneError name err) p
  | None => p
  end.

Definition cloneRepos (E : Env) (fuel : nat) (into : path)
  : option (Go (list Made * option error)) :=
  listAndClone E fuel (cloneOne E into) (mkProgress [] []).

End MainGo.

Module Part000.

(** The body of the loop of [src/unnamed/part_000]. *)
Definition cloneOne (E : Env) (gitRef : string) (into : path)
    (url name : string) (p : Progress) : Progress :=
  let '(err, p) := perform E (GitClone url into name) p in
  match err with
  | Some err =>
      let err := cloneError name err in
      let p := collect err p in
      print Stderr ("clone " +:+ Error err +:+ "
") p
  | None =>
      let dir := Join into name in
      let '(err, p) := perform E (GitCheckout gitRef dir) p in
      match err with
      | Some _ =>
          let err := cloneError name (Errorf "the reference did not exist") in
          let p := collect err p in
          let p := print Stderr ("checkout " +:+ Error err +:+ "
") p in
          let '(err, p) := perform E (RemoveAll dir) p in
          match err with
          | Some err => collect (cloneError name err) p
          | None => p
          end
      | None => p
      end
  end.

Definition cloneRepos (E : Env) (fuel : nat) (gitRef : string) (into : path)
  : option (Go (list Made * option error)) :=
  listAndClone E fuel (cloneOne E gitRef into)
    (perform E (MkdirAll into) (mkProgress [] [])).2.

End Part000.

Definition cloneOne_of (v : variant) (E : Env) (gitRef : string) (into : path)
  : string → string → Progress → Progress :=
  match v with
  | main_go => MainGo.cloneOne E into
  | part_000 => Part000.cloneOne E gitRef into
  end.

Definition cloneRepos_of (v : variant) (E : Env) (fuel : nat)
    (gitRef : string) (into : path) : option (Go (list Made * option error)) :=
  match v with
  | main_go => MainGo.cloneRepos E fuel into
  | part_000 => Part000.cloneRepos E fuel gitRef into
  end.

(** What is made before the listing. *)
Definition before (v : variant) (E : Env) (into : path) : list Made :=
  match v with
  | main_go => []
  | part_000 => [(MkdirAll into, result E [] (MkdirAll into))]
  end.

(** The clone an action makes: the URL and the directory it clones to. *)
Definition cloned (m : Made) : option (string * path) :=
  match m.1 with
  | GitClone url dir name => Some (url, Join dir name)
  | PlainClone dest url => Some (url, dest)
  | _ => None
  end.

(** The clone the loop is to make for a repository of the listing. *)
Definition target (into : path) (repo : Repository) : option (string * path) :=
  if archived repo then None
  else
    match CloneURL repo, Name repo with
    | Some url, Some name => Some (url, Join into name)
    | _, _ => None
    end.

(** A run of git. *)
Definition is_command (a : Action) : bool :=
  match a with
  | GitClone _ _ _ | PlainClone _ _ | GitCheckout _ _ => true
  | _ => false
  end.

(** An action that is no run of git, or a run of git without an error. *)
Definition went_well (m : Made) : Prop :=
  is_command m.1 = true → m.2 = None.

Definition is_cloneError (e : error) : Prop :=
  match e with
  | cloneError _ _ => True
  | _ => False
  end.

(** A small organisation: two pages, an archived repository without a
    name on the first; the reference is missing in [tools]. *)
Definition demoPages (page : nat) : error + (list Repository * nat) :=
  match page with
  | 0 => inr ([mkRepository (Some "vyatta-cfg") (Some "https://github.com/danos/vyatta-cfg") None;
               mkRepository None None (Some true)], 2)
  | 2 => inr ([mkRepository (Some "tools") (Some "https://github.com/danos/tools") (Some false)], 0)
  | _ => inl (Errorf "404 Not Found")
  end.

Definition demoResult (history : list Made) (a : Action) : option error :=
  match a with
  | GitCheckout _ dir =>
      if bool_decide (last dir = Some "tools") then Some (Errorf "exit status 1")
      else None
  | _ => None
  end.

Definition demoEnv : Env := mkEnv demoPages demoResult.

(** A listing whose second page fails. *)
Definition demoBroken : Env :=
  mkEnv (λ page, match page with
                 | 0 => demoPages 0
                 | _ => inl (Errorf "403 rate limit exceeded")
                 end) demoResult.

End Cloning.

(** * Properties *)

(** ** The graph library: what [Sort] returns *)

Section tsort_facts.
Import tsort.
Implicit Types (g : Graph) (l pending emitted : list string) (u d v : string).

Lemma closed_New : closed New.
Proof. intros u d H. unfold edge in H. simpl in H. set_solver. Qed.

Lemma closed_AddVertex name g : closed g → closed (AddVertex name g).
Proof.
  intros Hg u d H. destruct (Hg u d H) as [Hu Hd].
  unfold AddVertex; simpl. set_solver.
Qed.

Lemma closed_AddEdge from to g : closed g → closed (AddEdge from to g).
Proof.
  intros Hg u d H. unfold edge in H. simpl in H.
  apply elem_of_union in H as [H|H].
  - apply elem_of_singleton in H. injection H as -> ->. simpl. set_solver.
  - destruct (Hg u d H) as [Hu Hd]. simpl. set_solver.
Qed.

Lemma elem_of_targets g v d : d ∈ targets g v ↔ edge g v d.
Proof.
  unfold targets, edge. rewrite list_elem_of_fmap. split.
  - intros [[a b] [-> H]]. apply list_elem_of_filter in H as [H1 H2].
    simpl in *. subst. by apply elem_of_elements in H2.
  - intros H. exists (v, d). split; [done|].
    apply list_elem_of_filter. split; [done|]. by apply elem_of_elements.
Qed.

Lemma ready_spec g emitted v :
  ready g emitted v = true ↔ ∀ d, edge g v d → d ∈ emitted.
Proof.
  unfold ready. rewrite forallb_forall. split.
  - intros H d Hd. apply elem_of_targets, list_elem_of_In, H in Hd.
    by apply bool_decide_eq_true in Hd.
  - intros H d Hd. apply bool_decide_eq_true, H, elem_of_targets.
    by apply list_elem_of_In.
Qed.

Lemma pick_Some ok l y r :
  pick ok l = Some (y, r) → ok y = true ∧ l ≡ₚ y :: r.
Proof.
  revert y r. induction l as [|x l IH]; intros y r; simpl; [done|].
  destruct (ok x) eqn:Hx.
  - intros [= <- <-]. done.
  - destruct (pick ok l) as [[y' r']|]; [|done].
    intros [= <- <-]. destruct (IH _ _ eq_refl) as [? Hp].
    split; [done|]. rewrite Hp. apply Permutation_swap.
Qed.

Lemma pick_None ok l : pick ok l = None → ∀ x, x ∈ l → ok x = false.
Proof.
  induction l as [|x l IH]; simpl; intros H y Hy.
  - by apply not_elem_of_nil in Hy.
  - destruct (ok x) eqn:Hx; [done|].
    destruct (pick ok l) as [[??]|]; [done|].
    apply elem_of_cons in Hy as [->|Hy]; auto.
Qed.

Lemma ordered_snoc g emitted v :
  ordered g emitted → ready g emitted v = true → ordered g (emitted ++ [v]).
Proof.
  intros Ho Hr j u d Hj He.
  destruct (decide (j < length emitted)) as [Hlt|Hge].
  - rewrite lookup_app_l in Hj by done.
    destruct (Ho j u d Hj He) as (i & Hi & Hd).
    exists i. split; [done|]. rewrite lookup_app_l by lia. done.
  - assert (u = v) as ->.
    { rewrite lookup_app_r in Hj by lia.
      apply list_lookup_singleton_Some in Hj. by destruct Hj. }
    assert (j = length emitted) as ->.
    { apply lookup_lt_Some in Hj. rewrite length_app in Hj. simpl in Hj. lia. }
    apply ready_spec with (d := d) in Hr; [|done].
    apply list_elem_of_lookup in Hr as [i Hi].
    exists i. split; [by apply lookup_lt_Some in Hi|].
    rewrite lookup_app_l; [done|by apply lookup_lt_Some in Hi].
Qed.

Lemma kahn_Some g rounds pending emitted l :
  rounds = length pending → ordered g emitted →
  kahn g rounds pending emitted = Some l →
  ordered g l ∧ l ≡ₚ emitted ++ pending.
Proof.
  revert pending emitted. induction rounds as [|n IH]; intros pending emitted Hn Ho; simpl.
  - intros [= <-]. symmetry in Hn. apply nil_length_inv in Hn as ->.
    by rewrite app_nil_r.
  - destruct (pick (ready g emitted) pending) as [[v rest]|] eqn:Hp; [|done].
    apply pick_Some in Hp as [Hr Hperm]. intros Hk.
    apply IH in Hk as [Hl Hpl].
    + split; [done|]. rewrite Hpl, Hperm, <- app_assoc. done.
    + apply Permutation_length in Hperm. simpl in Hperm. lia.
    + by apply ordered_snoc.
Qed.

Lemma Sort_Some g l :
  Sort g = Some l → ordered g l ∧ l ≡ₚ elements (vertices g).
Proof.
  unfold Sort. intros H. apply kahn_Some in H as [H1 H2]; [|done|].
  - split; [done|]. rewrite H2. simpl. apply merge_sort_Permutation.
  - intros j u d Hj. by rewrite lookup_nil in Hj.
Qed.

Lemma ordered_tc g l u d j :
  ordered g l → tc (edge g) u d → l !! j = Some u →
  ∃ i, i < j ∧ l !! i = Some d.
Proof.
  intros Ho Htc. revert j. induction Htc as [x y Hxy|x y z Hxy _ IH]; intros j Hj.
  - by eapply Ho.
  - destruct (Ho j x y Hj Hxy) as (i & Hi & Hy).
    destruct (IH i Hy) as (k & Hk & Hz). exists k. split; [lia|done].
Qed.

Lemma ordered_no_cycle g l v j :
  ordered g l → tc (edge g) v v → l !! j = Some v → False.
Proof.
  intros Ho Htc. induction (lt_wf j) as [j _ IH]. intros Hj.
  destruct (ordered_tc g l v v j Ho Htc Hj) as (i & Hi & Hv). eauto.
Qed.

Lemma tc_edge_vertex g u d : closed g → tc (edge g) u d → u ∈ vertices g.
Proof. intros Hg [x y H|x y z H _]; by destruct (Hg _ _ H). Qed.

Lemma Sort_Some_acyclic g l : closed g → Sort g = Some l → acyclic g.
Proof.
  intros Hg Hs v Hv. apply Sort_Some in Hs as [Ho Hp].
  assert (v ∈ l) as Hin.
  { rewrite Hp. apply elem_of_elements. by eapply tc_edge_vertex. }
  apply list_elem_of_lookup in Hin as [j Hj]. by eapply ordered_no_cycle.
Qed.

Lemma ready_false g emitted v :
  ready g emitted v = false → ∃ d, edge g v d ∧ d ∉ emitted.
Proof.
  unfold ready. intros H.
  assert (∃ d, d ∈ targets g v ∧ d ∉ emitted) as (d & Hd & Hn).
  { induction (targets g v) as [|t ts IH]; simpl in H; [done|].
    apply andb_false_iff in H as [H|H].
    - exists t. split; [left|]. by apply bool_decide_eq_false in H.
    - destruct (IH H) as (d & ? & ?). exists d. split; [by right|done]. }
  exists d. split; [by apply elem_of_targets|done].
Qed.

Lemma successor_cycle (R : relation string) `{!Transitive R} (S : list string) :
  S ≠ [] → (∀ x, x ∈ S → ∃ y, y ∈ S ∧ R x y) → ∃ x, R x x.
Proof.
  induction S as [|x0 S IH]; [done|]. intros _ Hsucc.
  destruct (Hsucc x0) as (z & Hz & Hxz); [left|].
  destruct (decide (z = x0)) as [->|Hne]; [by exists x0|].
  apply elem_of_cons in Hz as [?|Hz]; [done|].
  apply IH.
  - intros ->. by apply not_elem_of_nil in Hz.
  - intros y Hy. destruct (Hsucc y) as (s & Hs & Hys); [by right|].
    destruct (decide (s = x0)) as [->|Hs0].
    + exists z. split; [done|]. transitivity x0; done.
    + apply elem_of_cons in Hs as [?|Hs]; [done|]. by exists s.
Qed.

Lemma kahn_None g rounds pending emitted :
  closed g → rounds = length pending →
  (∀ v, v ∈ vertices g → v ∈ emitted ∨ v ∈ pending) →
  kahn g rounds pending emitted = None → cyclic g.
Proof.
  intros Hg. revert pending emitted.
  induction rounds as [|n IH]; intros pending emitted Hn Hcov; simpl; [done|].
  destruct (pick (ready g emitted) pending) as [[v rest]|] eqn:Hp.
  - apply pick_Some in Hp as [_ Hperm]. apply IH.
    + apply Permutation_length in Hperm. simpl in Hperm. lia.
    + intros w Hw. destruct (Hcov w Hw) as [Hd|Hd].
      * left. apply elem_of_app. by left.
      * rewrite Hperm in Hd. apply elem_of_cons in Hd as [->|Hd]; [|by right].
        left. apply elem_of_app. right. by left.
  - intros _. apply (successor_cycle (tc (edge g)) pending).
    + intros ->. done.
    + intros x Hx. apply (pick_None _ _ Hp), ready_false in Hx as (d & He & Hd).
      exists d. split; [|by apply tc_once].
      destruct (Hg _ _ He) as [_ Hv]. by destruct (Hcov d Hv).
Qed.

Lemma Sort_None g : closed g → Sort g = None → cyclic g.
Proof.
  intros Hg. unfold Sort. apply kahn_None; [done..|].
  intros v Hv. right. rewrite merge_sort_Permutation. by apply elem_of_elements.
Qed.

Lemma Sort_acyclic g :
  closed g → acyclic g → ∃ l, Sort g = Some l.
Proof.
  intros Hg Ha. destruct (Sort g) as [l|] eqn:Hs; [by exists l|].
  destruct (Sort_None g Hg Hs) as [v Hv]. by destruct (Ha v).
Qed.

Lemma Sort_cyclic g : closed g → cyclic g → Sort g = None.
Proof.
  intros Hg [v Hv]. destruct (Sort g) as [l|] eqn:Hs; [|done].
  by destruct (Sort_Some_acyclic g l Hg Hs v).
Qed.

End tsort_facts.

(** ** The dependency graph of the two variants *)

Lemma foldl_invariant {A B} (P : A → Prop) (f : A → B → A) (l : list B) (a : A) :
  P a → (∀ a b, P a → P (f a b)) → P (foldl f a l).
Proof.
  intros Ha Hf. revert a Ha. induction l as [|b l IH]; simpl; auto.
Qed.

Lemma closed_addBuildDepends X repos repo ctrl g :
  tsort.closed g → tsort.closed (addBuildDepends X repos repo ctrl g).
Proof.
  intros Hg. unfold addBuildDepends.
  apply (foldl_invariant tsort.closed); [done|]. intros g1 rel Hg1.
  apply (foldl_invariant tsort.closed); [done|]. intros g2 pos Hg2.
  simpl. destruct (pack2repo repos !! _); [|done].
  by apply closed_AddEdge.
Qed.

Lemma closed_addBaseEdges repo g :
  tsort.closed g → tsort.closed (Part000.addBaseEdges repo g).
Proof.
  intros Hg. unfold Part000.addBaseEdges.
  repeat case_bool_decide; repeat apply closed_AddEdge; done.
Qed.

Lemma closed_depGraph_of v X repos : tsort.closed (depGraph_of v X repos).
Proof.
  destruct v; simpl.
  - apply (foldl_invariant tsort.closed); [apply closed_New|].
    intros g [repo ctrl] Hg. simpl.
    by apply closed_addBuildDepends, closed_AddEdge, closed_AddVertex.
  - apply (foldl_invariant tsort.closed); [apply closed_New|].
    intros g [repo ctrl] Hg. simpl.
    by apply closed_addBuildDepends, closed_addBaseEdges, closed_AddVertex.
Qed.

Lemma determineBuildOrder_of_unfold v X repos :
  determineBuildOrder_of v X repos = sortAndAppend (depGraph_of v X repos) repos.
Proof. by destruct v. Qed.

(** ** The build order *)

(** C1. When the graph [determineBuildOrder] builds has no cycle, the
    function returns an order, and for every edge from a unit [U] to a unit
    [D] the order holds [U], and every index of [U] in it has an index of
    [D] strictly below. In both variants. *)
Theorem determineBuildOrder_dependency_first v X repos :
  tsort.acyclic (depGraph_of v X repos) →
  ∃ order,
    determineBuildOrder_of v X repos = Returns order ∧
    ∀ U D, tsort.edge (depGraph_of v X repos) U D →
      U ∈ order ∧
      ∀ j, order !! j = Some U → ∃ i, i < j ∧ order !! i = Some D.
Proof.
  intros Hacyc. pose proof (closed_depGraph_of v X repos) as Hcl.
  destruct (Sort_acyclic _ Hcl Hacyc) as [sorted Hs].
  exists (sorted ++ unparseable repos). split.
  { rewrite determineBuildOrder_of_unfold. unfold sortAndAppend. by rewrite Hs. }
  apply Sort_Some in Hs as [Hord Hperm].
  intros U D He. destruct (Hcl U D He) as [HU HD].
  assert (∀ x, x ∈ tsort.vertices (depGraph_of v X repos) → x ∈ sorted) as Hin.
  { intros x Hx. rewrite Hperm. by apply elem_of_elements. }
  split; [apply elem_of_app; left; by apply Hin|].
  intros j Hj. destruct (decide (j < length sorted)) as [Hlt|Hge].
  - rewrite lookup_app_l in Hj by done.
    destruct (Hord j U D Hj He) as (i & Hi & HDi).
    exists i. split; [done|]. by rewrite lookup_app_l by lia.
  - apply Hin, list_elem_of_lookup in HD as [i Hi].
    pose proof (lookup_lt_Some _ _ _ Hi) as Hlt.
    exists i. split; [lia|]. by rewrite lookup_app_l.
Qed.

(** The order of [determineBuildOrder] on a source tree whose unit [a]
    needs a package of unit [b]. *)
Lemma determineBuildOrder_dependency_first_witness :
  let repos := foldl (Part000.visitEntry demo.X) noRepos demo.tree in
  tsort.acyclic (depGraph_of part_000 demo.X repos) ∧
  ∃ order,
    determineBuildOrder_of part_000 demo.X repos = Returns order ∧
    ∀ U D, tsort.edge (depGraph_of part_000 demo.X repos) U D →
      U ∈ order ∧
      ∀ j, order !! j = Some U → ∃ i, i < j ∧ order !! i = Some D.
Proof.
  intros repos.
  assert (tsort.acyclic (depGraph_of part_000 demo.X repos)) as Hacyc.
  { apply (Sort_Some_acyclic _
             ["base-files"; "lintian-profile-vyatta"; "linux-vyatta"; "b"; "a"]).
    - apply closed_depGraph_of.
    - vm_compute. reflexivity. }
  split; [exact Hacyc|].
  exact (determineBuildOrder_dependency_first part_000 demo.X repos Hacyc).
Defined.

Lemma determineBuildOrder_cycle_is_fatal_aux v X repos :
  tsort.cyclic (depGraph_of v X repos) →
  determineBuildOrder_of v X repos = Panics errCycle.
Proof.
  intros Hcyc. rewrite determineBuildOrder_of_unfold. unfold sortAndAppend.
  by rewrite (Sort_cyclic _ (closed_depGraph_of v X repos) Hcyc).
Qed.

(** C2. When the graph [determineBuildOrder] builds has a cycle, the
    function panics with the error of the sort and returns no order, and
    the rest of [main] ends in that panic with the world as it was:
    nothing is printed and nothing is built. In both variants. *)
Theorem determineBuildOrder_cycle_is_fatal v X repos :
  tsort.cyclic (depGraph_of v X repos) →
  determineBuildOrder_of v X repos = Panics errCycle ∧
  match v with
  | main_go => ∀ f w, MainGo.orderAndBuild X f repos w = Panic errCycle w
  | part_000 => ∀ f w, Part000.orderAndBuild X f repos w = Panic errCycle w
  end.
Proof.
  intros Hcyc.
  pose proof (determineBuildOrder_cycle_is_fatal_aux v X repos Hcyc) as Hp.
  split; [done|].
  destruct v; simpl in Hp; intros f w.
  - unfold MainGo.orderAndBuild. by rewrite Hp.
  - unfold Part000.orderAndBuild. by rewrite Hp.
Qed.

(** Two units that need each other make [determineBuildOrder] panic. *)
Lemma determineBuildOrder_cycle_is_fatal_witness :
  let repos := foldl (Part000.visitEntry demo.X) noRepos demo.treeCycle in
  tsort.cyclic (depGraph_of part_000 demo.X repos) ∧
  determineBuildOrder_of part_000 demo.X repos = Panics errCycle ∧
  ∀ f w, Part000.orderAndBuild demo.X f repos w = Panic errCycle w.
Proof.
  intros repos.
  assert (tsort.cyclic (depGraph_of part_000 demo.X repos)) as Hcyc.
  { exists "a". apply tc_l with "b"; [|apply tc_once];
      apply (bool_decide_unpack _); vm_compute; exact I. }
  split; [exact Hcyc|].
  exact (determineBuildOrder_cycle_is_fatal part_000 demo.X repos Hcyc).
Defined.

(** ** Edges of the graph *)

Lemma foldl_elem_invariant {A B} (Q : A → Prop) (f : A → B → A)
    (l : list B) (a : A) (x : B) :
  x ∈ l → (∀ a, Q (f a x)) → (∀ a b, Q a → Q (f a b)) → Q (foldl f a l).
Proof.
  intros Hx Hadd Hkeep. revert a.
  induction l as [|b l IH]; intros a; [by apply not_elem_of_nil in Hx|].
  apply elem_of_cons in Hx as [<-|Hx]; simpl.
  - apply (foldl_invariant Q); auto.
  - by apply IH.
Qed.

Lemma edge_AddVertex name g u d :
  tsort.edge (tsort.AddVertex name g) u d ↔ tsort.edge g u d.
Proof. done. Qed.

Lemma edge_AddEdge from to g u d :
  tsort.edge (tsort.AddEdge from to g) u d ↔
  (u = from ∧ d = to) ∨ tsort.edge g u d.
Proof.
  unfold tsort.edge, tsort.AddEdge. simpl.
  rewrite elem_of_union, elem_of_singleton. split.
  - intros [[= -> ->]|?]; auto.
  - intros [[-> ->]|?]; auto.
Qed.

Lemma edge_addBuildDepends_keep X repos repo ctrl g u d :
  tsort.edge g u d → tsort.edge (addBuildDepends X repos repo ctrl g) u d.
Proof.
  intros Hg. unfold addBuildDepends.
  apply (foldl_invariant (λ g, tsort.edge g u d)); [done|]. intros g1 rel Hg1.
  apply (foldl_invariant (λ g, tsort.edge g u d)); [done|]. intros g2 pos Hg2.
  simpl. destruct (pack2repo repos !! _); [|done].
  apply edge_AddEdge. by right.
Qed.

Lemma elem_of_mapRange X (m : gmap string control.Control) repo ctrl :
  (repo, ctrl) ∈ mapRange X m ↔ m !! repo = Some ctrl.
Proof. rewrite (mapRange_perm X m). apply elem_of_map_to_list. Qed.

(** C3, in [src/main.go]. The edge to [base-files] is added for every unit
    with parsed metadata, [base-files] included: when that unit is among
    them it gets an edge to itself, and [determineBuildOrder] panics on the
    cycle. *)
Theorem MainGo_base_files_self_edge X repos ctrl :
  ctrlFiles repos !! "base-files" = Some ctrl →
  tsort.edge (MainGo.depGraph X repos) "base-files" "base-files" ∧
  MainGo.determineBuildOrder X repos = Panics errCycle.
Proof.
  intros Hbf.
  assert (tsort.edge (MainGo.depGraph X repos) "base-files" "base-files") as He.
  { unfold MainGo.depGraph.
    apply (foldl_elem_invariant (λ g, tsort.edge g "base-files" "base-files")
             _ _ _ ("base-files", ctrl)).
    - by apply elem_of_mapRange.
    - intros g. simpl. apply edge_addBuildDepends_keep, edge_AddEdge. by left.
    - intros g [repo c] Hg. simpl.
      apply edge_addBuildDepends_keep, edge_AddEdge. by right. }
  split; [done|].
  apply (determineBuildOrder_cycle_is_fatal_aux main_go).
  exists "base-files". by apply tc_once.
Qed.

(** The self-edge on a tree that holds [base-files]. *)
Lemma MainGo_base_files_self_edge_witness :
  let repos := foldl (MainGo.visitEntry demo.X) noRepos demo.tree in
  ctrlFiles repos !! "base-files" = Some (demo.ctrl [] [("base-files", None)]) ∧
  tsort.edge (MainGo.depGraph demo.X repos) "base-files" "base-files" ∧
  MainGo.determineBuildOrder demo.X repos = Panics errCycle.
Proof.
  intros repos.
  assert (ctrlFiles repos !! "base-files"
          = Some (demo.ctrl [] [("base-files", None)])) as Hbf.
  { vm_compute. reflexivity. }
  split; [exact Hbf|].
  exact (MainGo_base_files_self_edge demo.X repos _ Hbf).
Defined.

Lemma foldl_char {A B} (f : A → B → A) (P : A → Prop) (Q : B → Prop) :
  (∀ a b, P (f a b) ↔ P a ∨ Q b) →
  ∀ l a, P (foldl f a l) ↔ P a ∨ ∃ b, b ∈ l ∧ Q b.
Proof.
  intros Hf l. induction l as [|b l IH]; intros a; simpl.
  - split; [auto|]. intros [?|(b & Hb & _)]; [done|].
    by apply not_elem_of_nil in Hb.
  - rewrite IH, Hf. split.
    + intros [[?|?]|(b' & ? & ?)]; [by left|right..].
      * exists b. split; [left|done].
      * exists b'. split; [by right|done].
    + intros [?|(b' & Hb' & ?)]; [by left; left|].
      apply elem_of_cons in Hb' as [->|?]; [by left; right|].
      right. by exists b'.
Qed.

Lemma edge_addBuildDepends X repos repo ctrl g u d :
  tsort.edge (addBuildDepends X repos repo ctrl g) u d ↔
  tsort.edge g u d ∨ (u = repo ∧ declared X repos ctrl d).
Proof.
  unfold addBuildDepends, declared.
  rewrite (foldl_char _ (λ g, tsort.edge g u d)
             (λ rel, u = repo ∧ ∃ pos, pos ∈ control.Possibilities rel ∧
                pack2repo repos !! TrimSpace X (control.Name pos) = Some d)).
  - split; (intros [?|H]; [by left|right]).
    + destruct H as (rel & ? & -> & pos & ? & ?). eauto 10.
    + destruct H as (-> & rel & pos & ? & ? & ?). eauto 10.
  - intros g1 rel.
    rewrite (foldl_char _ (λ g, tsort.edge g u d)
               (λ pos, u = repo ∧
                  pack2repo repos !! TrimSpace X (control.Name pos) = Some d)).
    + split; (intros [?|H]; [by left|right]).
      * destruct H as (pos & ? & -> & ?). eauto.
      * destruct H as (-> & pos & ? & ?). eauto.
    + intros g2 pos. simpl.
      destruct (pack2repo repos !! _) as [drepo|] eqn:Hd.
      * rewrite edge_AddEdge. split.
        -- intros [[-> ->]|?]; auto.
        -- intros [?|[-> [= ->]]]; auto.
      * split; [auto|]. by intros [?|[_ ?]].
Qed.

Lemma edge_addBaseEdges repo g u d :
  tsort.edge (Part000.addBaseEdges repo g) u d ↔
  tsort.edge g u d ∨ (u = repo ∧ implicit part_000 u d).
Proof.
  unfold Part000.addBaseEdges, implicit.
  repeat case_bool_decide; rewrite ?edge_AddEdge; naive_solver.
Qed.

(** The edges of the graph [determineBuildOrder] builds: the implicit and
    the declared edges of the units with parsed metadata. *)
Lemma edge_depGraph_of v X repos u d :
  tsort.edge (depGraph_of v X repos) u d ↔
  ∃ ctrl, ctrlFiles repos !! u = Some ctrl ∧
          (implicit v u d ∨ declared X repos ctrl d).
Proof.
  assert (∀ visit,
    (∀ g repo ctrl, tsort.edge (visit g (repo, ctrl)) u d ↔
       tsort.edge g u d ∨ (u = repo ∧ (implicit v u d ∨ declared X repos ctrl d))) →
    tsort.edge (foldl visit tsort.New (mapRange X (ctrlFiles repos))) u d ↔
    ∃ ctrl, ctrlFiles repos !! u = Some ctrl ∧
            (implicit v u d ∨ declared X repos ctrl d)) as Hfold.
  { intros visit Hvisit.
    rewrite (foldl_char _ (λ g, tsort.edge g u d)
               (λ e, u = e.1 ∧ (implicit v u d ∨ declared X repos e.2 d))).
    - split.
      + intros [H|([repo ctrl] & Hin & -> & H)].
        * unfold tsort.edge in H. simpl in H. by apply not_elem_of_empty in H.
        * apply elem_of_mapRange in Hin. eauto.
      + intros (ctrl & Hc & H). right. exists (u, ctrl).
        split; [by apply elem_of_mapRange|done].
    - intros g [repo ctrl]. apply Hvisit. }
  destruct v; apply Hfold; intros g repo ctrl; simpl.
  - rewrite edge_addBuildDepends, edge_AddEdge, edge_AddVertex. naive_solver.
  - rewrite edge_addBuildDepends, edge_addBaseEdges, edge_AddVertex. naive_solver.
Qed.

(** In [Part000] no implicit edge is a self-edge, the units of the
    exclusion set get none, and every other unit with parsed metadata gets
    its implicit edges. *)
Lemma Part000_base_edges X repos u ctrl :
  ctrlFiles repos !! u = Some ctrl →
  (∀ d, implicit part_000 u d → tsort.edge (Part000.depGraph X repos) u d) ∧
  ¬ implicit part_000 u u ∧
  (u ∈ ["base-files"; "lintian-profile-vyatta"] → ∀ d, ¬ implicit part_000 u d) ∧
  (u ∉ ["base-files"; "lintian-profile-vyatta"] →
   implicit part_000 u "base-files" ∧ implicit part_000 u "lintian-profile-vyatta" ∧
   (u ≠ "linux-vyatta" → implicit part_000 u "linux-vyatta")).
Proof.
  intros Hu. split; [|split; [|split]].
  - intros d Hd. apply (edge_depGraph_of part_000). eauto.
  - simpl. naive_solver.
  - rewrite !elem_of_cons, elem_of_nil. simpl. naive_solver.
  - rewrite !elem_of_cons, elem_of_nil. simpl. naive_solver.
Qed.

(** ** The index of package names *)

Lemma lookup_foldl_insert {B} (k : B → string) (r : string) (l : list B)
    (m : gmap string string) (n : string) :
  foldl (λ m x, <[k x := r]> m) m l !! n =
  if decide (n ∈ k <$> l) then Some r else m !! n.
Proof.
  revert m. induction l as [|x l IH]; intros m; simpl; [done|].
  rewrite IH. destruct (decide (n ∈ k <$> l)) as [Hin|Hout].
  - rewrite decide_True; [done|by right].
  - destruct (decide (n = k x)) as [->|Hne].
    + rewrite lookup_insert_eq, decide_True; [done|left].
    + rewrite lookup_insert_ne by done. rewrite decide_False; [done|].
      intros [?|?]%elem_of_cons; done.
Qed.

Lemma lookup_indexBinary X repo p2r bin n :
  Part000.indexBinary X repo p2r bin !! n =
  if decide (n ∈ indexedNames X bin) then Some repo else p2r !! n.
Proof.
  unfold Part000.indexBinary, indexedNames.
  destruct (control.Values bin !! "Provides") as [providesStr|];
    [destruct (dependency_Parse X providesStr) as [provides|]|].
  - rewrite (lookup_foldl_insert (λ poss, TrimSpace X (control.Name poss))).
    destruct (decide (n ∈ _ <$> control.GetAllPossibilities provides)) as [Hin|Hout].
    + rewrite decide_True; [done|by right].
    + destruct (decide (n = TrimSpace X (control.Package bin))) as [->|Hne].
      * rewrite lookup_insert_eq, decide_True; [done|left].
      * rewrite lookup_insert_ne by done. rewrite decide_False; [done|].
        intros [?|?]%elem_of_cons; done.
  - destruct (decide (n = TrimSpace X (control.Package bin))) as [->|Hne].
    + rewrite lookup_insert_eq, decide_True; [done|left].
    + rewrite lookup_insert_ne by done. rewrite decide_False; [done|].
      intros [?|?%elem_of_nil]%elem_of_cons; done.
  - destruct (decide (n = TrimSpace X (control.Package bin))) as [->|Hne].
    + rewrite lookup_insert_eq, decide_True; [done|left].
    + rewrite lookup_insert_ne by done. rewrite decide_False; [done|].
      intros [?|?%elem_of_nil]%elem_of_cons; done.
Qed.

Lemma lookup_foldl_indexBinary X repo bins p2r n :
  foldl (Part000.indexBinary X repo) p2r bins !! n =
  if decide (n ∈ mjoin (indexedNames X <$> bins)) then Some repo else p2r !! n.
Proof.
  revert p2r. induction bins as [|bin bins IH]; intros p2r; [done|].
  rewrite fmap_cons. cbn [foldl mjoin list_join].
  rewrite IH, lookup_indexBinary.
  destruct (decide (n ∈ mjoin (indexedNames X <$> bins))) as [Hin|Hout].
  - rewrite decide_True; [done|]. apply elem_of_app. by right.
  - destruct (decide (n ∈ indexedNames X bin)) as [Hb|Hb].
    + rewrite decide_True; [done|]. apply elem_of_app. by left.
    + rewrite decide_False; [done|]. by intros [?|?]%elem_of_app.
Qed.

(** What one directory entry does to the index. *)
Lemma pack2repo_visitEntry_of v X out e n :
  pack2repo (visitEntry_of v X out e) !! n =
  match entryControl e with
  | Parsed ctrl =>
      if decide (n ∈ namesOf v X ctrl) then Some (entryName e)
      else pack2repo out !! n
  | _ => pack2repo out !! n
  end.
Proof.
  destruct v; simpl; unfold MainGo.visitEntry, Part000.visitEntry;
    destruct (entryControl e) as [| |ctrl]; simpl; try done.
  - apply (lookup_foldl_insert (λ bin, TrimSpace X (control.Package bin))).
  - apply lookup_foldl_indexBinary.
Qed.

(** The index after the whole directory: a name is owned by the last unit
    that declares it. *)
Lemma pack2repo_last_writer v X out l1 e l2 ctrl n :
  entryControl e = Parsed ctrl → n ∈ namesOf v X ctrl →
  (∀ e' ctrl', e' ∈ l2 → entryControl e' = Parsed ctrl' → n ∉ namesOf v X ctrl') →
  pack2repo (foldl (visitEntry_of v X) out (l1 ++ e :: l2)) !! n
  = Some (entryName e).
Proof.
  intros He Hn Hl2. rewrite foldl_app. simpl.
  set (out1 := visitEntry_of v X (foldl (visitEntry_of v X) out l1) e).
  assert (pack2repo out1 !! n = Some (entryName e)) as H1.
  { unfold out1. rewrite pack2repo_visitEntry_of, He. by rewrite decide_True. }
  clearbody out1. revert out1 H1.
  induction l2 as [|e' l2 IH]; intros out1 H1; simpl; [done|].
  apply IH.
  - intros e'' ctrl'' ? ?. apply (Hl2 e'' ctrl''); [by right|done].
  - rewrite pack2repo_visitEntry_of.
    destruct (entryControl e') as [| |ctrl'] eqn:He'; try done.
    rewrite decide_False; [done|]. apply (Hl2 e' ctrl'); [left|done].
Qed.

(** In [Part000] a build-time requirement on a name that unit [B] declares,
    as a package name or in a [Provides] field, and that no later unit
    declares, gives the edge to [B]; a [Provides] field that does not parse
    takes nothing from the names of the other binary packages. *)
Lemma Part000_alias_edge X l1 eB l2 ctrlB bin n A ctrlA rel pos :
  let repos := foldl (Part000.visitEntry X) noRepos (l1 ++ eB :: l2) in
  entryControl eB = Parsed ctrlB →
  bin ∈ control.Binaries ctrlB → n ∈ indexedNames X bin →
  (∀ e' ctrl', e' ∈ l2 → entryControl e' = Parsed ctrl' →
     n ∉ namesOf part_000 X ctrl') →
  ctrlFiles repos !! A = Some ctrlA →
  rel ∈ control.Relations (control.BuildDepends (control.Source ctrlA)) →
  pos ∈ control.Possibilities rel →
  TrimSpace X (control.Name pos) = n →
  pack2repo repos !! n = Some (entryName eB) ∧
  tsort.edge (Part000.depGraph X repos) A (entryName eB).
Proof.
  intros repos HB Hbin Hn Hlast HA Hrel Hpos Htrim.
  assert (pack2repo repos !! n = Some (entryName eB)) as Hidx.
  { apply (pack2repo_last_writer part_000 X noRepos l1 eB l2 ctrlB); [done| |done].
    simpl. apply list_elem_of_join. exists (indexedNames X bin).
    split; [done|]. apply list_elem_of_fmap. by exists bin. }
  split; [done|].
  apply (edge_depGraph_of part_000). exists ctrlA. split; [done|].
  right. exists rel, pos. by rewrite Htrim.
Qed.

(** C4, in [src/main.go]. Unit [b] provides [libb-dev] through a
    [Provides] field only and unit [a] requires it: the index of
    [src/main.go] has no entry for the name, the graph has no edge from [a]
    to [b], and [a] is ordered before [b]. On the same tree [Part000]
    indexes the name and has the edge. *)
Theorem MainGo_alias_not_indexed :
  let repos := foldl (MainGo.visitEntry demo.X) noRepos demo.treeAlias in
  let repos' := foldl (Part000.visitEntry demo.X) noRepos demo.treeAlias in
  pack2repo repos !! "libb-dev" = None ∧
  ¬ tsort.edge (MainGo.depGraph demo.X repos) "a" "b" ∧
  MainGo.determineBuildOrder demo.X repos = Returns ["base-files"; "a"; "b"] ∧
  pack2repo repos' !! "libb-dev" = Some "b" ∧
  tsort.edge (Part000.depGraph demo.X repos') "a" "b".
Proof.
  intros repos repos'. split; [|split; [|split; [|split]]].
  - vm_compute. reflexivity.
  - apply (bool_decide_eq_false_1 _). vm_compute. reflexivity.
  - vm_compute. reflexivity.
  - vm_compute. reflexivity.
  - apply (bool_decide_unpack _). vm_compute. exact I.
Qed.

(** ** Units whose metadata does not parse *)

Lemma foldl_invariant_in {A B} (P : A → Prop) (f : A → B → A) (l : list B) (a : A) :
  P a → (∀ a b, b ∈ l → P a → P (f a b)) → P (foldl f a l).
Proof.
  revert a. induction l as [|b l IH]; intros a Ha Hf; simpl; [done|].
  apply IH.
  - apply Hf; [left|done].
  - intros a' b' Hb'. apply Hf. by right.
Qed.

Lemma vertices_AddEdge from to g x :
  x ∈ tsort.vertices (tsort.AddEdge from to g) ↔
  x = from ∨ x = to ∨ x ∈ tsort.vertices g.
Proof. simpl. rewrite !elem_of_union, !elem_of_singleton. done. Qed.

(** Every vertex of the graph is a unit with parsed metadata, a target of
    the implicit edges or a unit the index names. *)
Lemma vertices_depGraph_of v X repos x :
  x ∈ tsort.vertices (depGraph_of v X repos) →
  is_Some (ctrlFiles repos !! x) ∨ x ∈ baseNames v ∨
  ∃ n, pack2repo repos !! n = Some x.
Proof.
  set (Q := λ x, is_Some (ctrlFiles repos !! x) ∨ x ∈ baseNames v ∨
                 ∃ n, pack2repo repos !! n = Some x).
  set (P := λ g, ∀ x, x ∈ tsort.vertices g → Q x).
  assert (∀ g from to, Q from → Q to → P g → P (tsort.AddEdge from to g))
    as Hedge.
  { intros g from to ? ? Hg y. rewrite vertices_AddEdge.
    intros [->|[->|?]]; auto. }
  assert (∀ g repo ctrl, Q repo → P g → P (addBuildDepends X repos repo ctrl g))
    as Hdep.
  { intros g repo ctrl Hrepo Hg. unfold addBuildDepends.
    apply (foldl_invariant P); [done|]. intros g1 rel Hg1.
    apply (foldl_invariant P); [done|]. intros g2 pos Hg2. simpl.
    destruct (pack2repo repos !! _) as [drepo|] eqn:Hd; [|done].
    apply Hedge; [done| |done]. right; right. eauto. }
  intros Hx. revert x Hx. fold P.
  assert (∀ g repo, Q repo → P g → P (tsort.AddVertex repo g)) as Hvert.
  { intros g repo ? Hg y. simpl. rewrite elem_of_union, elem_of_singleton.
    intros [->|?]; auto. }
  assert (P tsort.New) as Hnew.
  { intros y Hy. simpl in Hy. by apply not_elem_of_empty in Hy. }
  destruct v; simpl; (apply (foldl_invariant_in P); [done|]);
    intros g [repo ctrl] Hin%elem_of_mapRange Hg; simpl;
    (assert (Q repo) as Hrepo by (left; eauto)).
  - apply Hdep; [done|]. apply Hedge; [done| |by apply Hvert].
    right; left. simpl. left.
  - apply Hdep; [done|]. unfold Part000.addBaseEdges.
    assert (∀ b, b ∈ baseNames part_000 → Q b) as Hb by (intros; right; by left).
    repeat case_bool_decide; repeat apply Hedge; try done; try (by apply Hvert);
      apply Hb; simpl; rewrite !elem_of_cons; auto.
Qed.

Lemma unparseable_foldl v X out dir :
  unparseable (foldl (visitEntry_of v X) out dir) =
  unparseable out ++ (entryName <$> filter is_malformed dir).
Proof.
  revert out. induction dir as [|e dir IH]; intros out; simpl.
  - by rewrite app_nil_r.
  - rewrite IH, filter_cons.
    assert (unparseable (visitEntry_of v X out e) =
            if is_malformed e then unparseable out ++ [entryName e]
            else unparseable out) as ->.
    { destruct v; simpl; unfold MainGo.visitEntry, Part000.visitEntry,
        is_malformed; by destruct (entryControl e). }
    destruct (is_malformed e); simpl; [|done].
    by rewrite <- app_assoc.
Qed.

Lemma ctrlFiles_foldl v X out dir u :
  is_Some (ctrlFiles (foldl (visitEntry_of v X) out dir) !! u) →
  is_Some (ctrlFiles out !! u) ∨
  ∃ e, e ∈ dir ∧ entryName e = u ∧ is_parsed e.
Proof.
  revert out. induction dir as [|e dir IH]; intros out; simpl; [auto|].
  intros [H|(e' & ? & ? & ?)]%IH.
  - assert (ctrlFiles (visitEntry_of v X out e) =
            match entryControl e with
            | Parsed ctrl => <[entryName e := ctrl]> (ctrlFiles out)
            | _ => ctrlFiles out
            end) as Heq.
    { destruct v; simpl; unfold MainGo.visitEntry, Part000.visitEntry;
        by destruct (entryControl e). }
    rewrite Heq in H. destruct (entryControl e) as [| |ctrl] eqn:He; auto.
    destruct (decide (entryName e = u)) as [Hu|Hu].
    + right. exists e. split; [left|]. split; [done|].
      unfold is_parsed. by rewrite He.
    + rewrite lookup_insert_ne in H by done. by left.
  - right. exists e'. split; [by right|done].
Qed.

Lemma pack2repo_foldl v X out dir n r :
  pack2repo (foldl (visitEntry_of v X) out dir) !! n = Some r →
  pack2repo out !! n = Some r ∨
  ∃ e, e ∈ dir ∧ entryName e = r ∧ is_parsed e.
Proof.
  revert out. induction dir as [|e dir IH]; intros out; simpl; [auto|].
  intros [H|(e' & ? & ? & ?)]%IH.
  - rewrite pack2repo_visitEntry_of in H.
    destruct (entryControl e) as [| |ctrl] eqn:He; auto.
    destruct (decide (n ∈ namesOf v X ctrl)); auto.
    injection H as <-. right. exists e. split; [left|]. split; [done|].
    unfold is_parsed. by rewrite He.
  - right. exists e'. split; [by right|done].
Qed.

(** The units left out of the graph do not change the two maps the graph
    is built from. *)
Lemma maps_without_malformed v X out out' dir :
  ctrlFiles out = ctrlFiles out' → pack2repo out = pack2repo out' →
  let r := foldl (visitEntry_of v X) out dir in
  let r' := foldl (visitEntry_of v X) out' (filter (λ e, ¬ is_malformed e) dir) in
  ctrlFiles r = ctrlFiles r' ∧ pack2repo r = pack2repo r'.
Proof.
  revert out out'. induction dir as [|e dir IH]; intros out out' Hc Hp; simpl; [done|].
  rewrite filter_cons.
  destruct (entryControl e) as [| |ctrl] eqn:He.
  - rewrite decide_True by (unfold is_malformed; rewrite He; simpl; auto).
    simpl. apply IH;
      destruct v; simpl; unfold MainGo.visitEntry, Part000.visitEntry;
      by rewrite He.
  - rewrite decide_False by (unfold is_malformed; rewrite He; simpl; auto).
    apply IH;
      destruct v; simpl; unfold MainGo.visitEntry, Part000.visitEntry;
      by rewrite He.
  - rewrite decide_True by (unfold is_malformed; rewrite He; simpl; auto).
    simpl. apply IH;
      destruct v; simpl; unfold MainGo.visitEntry, Part000.visitEntry;
      rewrite He; simpl; congruence.
Qed.

Lemma depGraph_of_maps v X r r' :
  ctrlFiles r = ctrlFiles r' → pack2repo r = pack2repo r' →
  depGraph_of v X r = depGraph_of v X r'.
Proof.
  destruct r as [c p u], r' as [c' p' u']. simpl. intros <- <-.
  destruct v; reflexivity.
Qed.

(** C5, amended. Over a directory with distinct entry names, when
    [determineBuildOrder] returns: the units whose control file does not
    parse are recorded in the order of the directory; leaving them out of
    the directory gives the same graph; the order is the sorted graph
    followed by these units, each once among them; and such a unit, when
    its name is not a target of the implicit edges, is not in the sorted
    part, so it has exactly one index in the order, after the sorted
    part. In both variants. *)
Theorem unparseable_units_appended v X dir order :
  let repos := foldl (visitEntry_of v X) noRepos dir in
  NoDup (entryName <$> dir) →
  determineBuildOrder_of v X repos = Returns order →
  unparseable repos = entryName <$> filter is_malformed dir ∧
  depGraph_of v X repos =
    depGraph_of v X
      (foldl (visitEntry_of v X) noRepos (filter (λ e, ¬ is_malformed e) dir)) ∧
  ∃ sorted,
    tsort.Sort (depGraph_of v X repos) = Some sorted ∧
    order = sorted ++ unparseable repos ∧
    NoDup (unparseable repos) ∧
    ∀ u, u ∈ unparseable repos → u ∉ baseNames v →
      (u ∉ sorted) ∧
      ∃ j, order !! j = Some u ∧ length sorted ≤ j ∧
           (∀ j', order !! j' = Some u → j' = j).
Proof.
  intros repos Hnd Hret.
  assert (unparseable repos = entryName <$> filter is_malformed dir) as Hunp.
  { unfold repos. by rewrite unparseable_foldl. }
  split; [done|]. split.
  { apply depGraph_of_maps; by apply maps_without_malformed. }
  rewrite determineBuildOrder_of_unfold in Hret. unfold sortAndAppend in Hret.
  destruct (tsort.Sort (depGraph_of v X repos)) as [sorted|] eqn:Hs; [|done].
  injection Hret as <-. exists sorted. split; [done|]. split; [done|].
  assert (NoDup (unparseable repos)) as Hndu.
  { rewrite Hunp. apply (sublist_NoDup _ (entryName <$> dir)); [exact Hnd|].
    apply fmap_sublist, sublist_filter. }
  split; [done|]. intros u Hu Hbase.
  assert (∀ e, e ∈ dir → entryName e = u → is_parsed e → False) as Hparsed.
  { intros e He Hname Hp. rewrite Hunp in Hu.
    apply list_elem_of_fmap in Hu as (e' & Hname' & He').
    apply list_elem_of_filter in He' as [Hm He'].
    assert (e = e') as ->.
    { apply list_elem_of_lookup in He as [i Hi].
      apply list_elem_of_lookup in He' as [i' Hi'].
      assert (i = i') as ->; [|congruence].
      apply (NoDup_lookup _ i i' u Hnd);
        rewrite list_lookup_fmap; [rewrite Hi|rewrite Hi']; simpl; congruence. }
    unfold is_parsed in Hp. unfold is_malformed in Hm.
    by destruct (entryControl e'). }
  assert (u ∉ sorted) as Hns.
  { intros Hin. apply Sort_Some in Hs as [_ Hperm].
    rewrite Hperm in Hin. apply elem_of_elements in Hin.
    apply vertices_depGraph_of in Hin as [Hc|[?|[n Hn]]]; [|done|].
    - apply ctrlFiles_foldl in Hc as [[? Hc]|(e & ? & ? & ?)].
      + simpl in Hc. by rewrite lookup_empty in Hc.
      + by eapply Hparsed.
    - apply pack2repo_foldl in Hn as [Hn|(e & ? & ? & ?)].
      + simpl in Hn. by rewrite lookup_empty in Hn.
      + by eapply Hparsed. }
  split; [done|].
  apply list_elem_of_lookup in Hu as [k Hk].
  exists (length sorted + k). split; [|split; [lia|]].
  - rewrite lookup_app_r by lia. by replace (length sorted + k - length sorted) with k by lia.
  - intros j' Hj'. destruct (decide (j' < length sorted)) as [Hlt|Hge].
    + rewrite lookup_app_l in Hj' by done.
      destruct Hns. apply list_elem_of_lookup. eauto.
    + rewrite lookup_app_r in Hj' by lia.
      pose proof (NoDup_lookup _ _ _ _ Hndu Hj' Hk). lia.
Qed.

(** The order for three units when the control file of the middle one does
    not parse. *)
Lemma unparseable_units_appended_witness :
  let repos := foldl (visitEntry_of part_000 demo.X) noRepos demo.treeMiddle in
  let order :=
    ["base-files"; "lintian-profile-vyatta"; "linux-vyatta"; "z"; "a"; "m"] in
  NoDup (entryName <$> demo.treeMiddle) ∧
  determineBuildOrder_of part_000 demo.X repos = Returns order ∧
  unparseable repos = entryName <$> filter is_malformed demo.treeMiddle ∧
  depGraph_of part_000 demo.X repos =
    depGraph_of part_000 demo.X
      (foldl (visitEntry_of part_000 demo.X) noRepos
         (filter (λ e, ¬ is_malformed e) demo.treeMiddle)) ∧
  ∃ sorted,
    tsort.Sort (depGraph_of part_000 demo.X repos) = Some sorted ∧
    order = sorted ++ unparseable repos ∧
    NoDup (unparseable repos) ∧
    ∀ u, u ∈ unparseable repos → u ∉ baseNames part_000 →
      (u ∉ sorted) ∧
      ∃ j, order !! j = Some u ∧ length sorted ≤ j ∧
           (∀ j', order !! j' = Some u → j' = j).
Proof.
  intros repos order.
  assert (NoDup (entryName <$> demo.treeMiddle)) as Hnd.
  { apply (bool_decide_unpack _). vm_compute. exact I. }
  assert (determineBuildOrder_of part_000 demo.X repos = Returns order) as Hret.
  { vm_compute. reflexivity. }
  split; [exact Hnd|]. split; [exact Hret|].
  exact (unparseable_units_appended part_000 demo.X demo.treeMiddle order Hnd Hret).
Defined.

(** C5 as stated fails: when the control file of [base-files] does not
    parse and another unit has parsed metadata, [base-files] is recorded as
    unparseable and is appended to the order, and it is also in the sorted
    part, as the target of the implicit edge: it has two indices in the
    order. *)
Lemma unparseable_base_files_twice :
  let repos := foldl (MainGo.visitEntry demo.X) noRepos demo.treeMalformed in
  unparseable repos = ["base-files"] ∧
  ∃ order,
    MainGo.determineBuildOrder demo.X repos = Returns order ∧
    order = ["base-files"; "a"; "base-files"] ∧
    order !! 0 = Some "base-files" ∧ order !! 2 = Some "base-files" ∧
    ¬ (∃ j, ∀ j', order !! j' = Some "base-files" → j' = j).
Proof.
  intros repos. split; [vm_compute; reflexivity|].
  exists ["base-files"; "a"; "base-files"].
  split; [vm_compute; reflexivity|]. split; [done|].
  split; [done|]. split; [done|].
  intros [j Hj]. pose proof (Hj 0 eq_refl). pose proof (Hj 2 eq_refl). lia.
Qed.

(** ** Strings and positional writes *)

Lemma sapp_cons a s t : String a s +:+ t = String a (s +:+ t).
Proof. reflexivity. Qed.

Lemma sapp_nil_l s : "" +:+ s = s.
Proof. reflexivity. Qed.

Lemma sapp_nil_r s : s +:+ "" = s.
Proof. induction s as [|a s IH]; [done|]. by rewrite sapp_cons, IH. Qed.

Lemma sapp_assoc s t u : (s +:+ t) +:+ u = s +:+ (t +:+ u).
Proof. induction s as [|a s IH]; [done|]. by rewrite !sapp_cons, IH. Qed.

Lemma slength_app s t : String.length (s +:+ t) = String.length s + String.length t.
Proof. induction s as [|a s IH]; [done|]. rewrite sapp_cons. simpl. by rewrite IH. Qed.

Lemma stake_app s t : stake (String.length s) (s +:+ t) = s.
Proof. induction s as [|a s IH]; [by destruct t|]. rewrite sapp_cons. simpl. by rewrite IH. Qed.

Lemma sdrop_app s t : sdrop (String.length s) (s +:+ t) = t.
Proof. induction s as [|a s IH]; [by destruct t|]. rewrite sapp_cons. simpl. by rewrite IH. Qed.

Lemma sdrop_add n m s : sdrop (n + m) s = sdrop m (sdrop n s).
Proof.
  revert s. induction n as [|n IH]; intros s; [done|].
  destruct s as [|a s]; simpl; [by destruct m|]. apply IH.
Qed.

Lemma sdrop_nil n : sdrop n "" = "".
Proof. by destruct n. Qed.

Lemma pwrite_0 old data :
  pwrite old 0 data = data +:+ sdrop (String.length data) old.
Proof. unfold pwrite. simpl. by destruct old. Qed.

Lemma pwrite_empty data : pwrite "" 0 data = data.
Proof. by rewrite pwrite_0, sdrop_nil, sapp_nil_r. Qed.

(** Two writes one after the other are one write of both. *)
Lemma pwrite_pwrite old a b :
  pwrite (pwrite old 0 a) (String.length a) b = pwrite old 0 (a +:+ b).
Proof.
  rewrite !pwrite_0. unfold pwrite.
  rewrite stake_app, sdrop_add, sdrop_app, slength_app, sdrop_add.
  by rewrite sapp_assoc.
Qed.

Lemma cat_app l k : cat (l ++ k) = cat l +:+ cat k.
Proof.
  induction l as [|x l IH]; [done|].
  simpl. unfold cat in *. simpl. by rewrite IH, sapp_assoc.
Qed.

(** ** One unit under [teeAndEval] *)

Ltac run_monad :=
  unfold mbind, M_bind, mret, M_ret, bind, ret, get, modify; simpl.

Lemma emit_to_pipe out w id buf :
  os_Stdout w = PipeW id → pipes w !! id = Some buf →
  emit out w = Ret tt (set_pipes (<[id := buf +:+ cat out]> (pipes w)) w).
Proof.
  revert w buf. induction out as [|chunk out IH]; intros w buf Hout Hbuf.
  - simpl. run_monad. unfold cat. simpl.
    rewrite sapp_nil_r, insert_id by done. by destruct w.
  - simpl. run_monad. rewrite Hout. unfold Fprint. run_monad.
    rewrite Hbuf. simpl.
    rewrite (IH _ (buf +:+ chunk)); [|done|simpl; by rewrite lookup_insert_eq].
    unfold set_pipes. simpl.
    rewrite insert_insert_eq. unfold cat. simpl. by rewrite sapp_assoc.
Qed.

Lemma parent_Join dir name : parent (Join dir name) = dir.
Proof.
  unfold parent, Join. rewrite length_app. simpl.
  replace (length dir + 1 - 1) with (length dir) by lia.
  by rewrite take_app_length.
Qed.

(** [buildRepo] while the standard output is the pipe [id]. *)
Lemma buildRepoWith_in_pipe X mk debDir baseDir repo w id buf src dst :
  os_Stdout w = PipeW id → pipes w !! id = Some buf →
  filepath_Abs X (Join baseDir repo) = Some src →
  filepath_Abs X debDir = Some dst →
  let opts := mk src dst dst in
  let run := bpkg X opts in
  buildRepoWith X mk debDir baseDir repo w =
  Ret (unitFailure repo run)
    (set_trace (trace w ++ unitEvents opts run)
       (set_pipes (<[id := buf +:+ unitOutput repo run]> (pipes w)) w)).
Proof.
  intros Hout Hbuf Hsrc Hdst opts run.
  unfold buildRepoWith, Println, Fprintln, Fprint, resolvePath, runBuilder, record.
  run_monad. rewrite Hout, Hsrc, Hdst. run_monad. rewrite Hbuf. simpl.
  fold opts. fold run. unfold unitFailure, unitEvents, unitOutput.
  destruct run as [err|out res].
  - rewrite sapp_nil_r. by destruct w.
  - run_monad.
    rewrite (emit_to_pipe out _ id (buf +:+ ("Building " +:+ repo +:+ "
")));
      [|done|simpl; by rewrite lookup_insert_eq].
    unfold set_pipes, set_trace. simpl.
    rewrite insert_insert_eq, <- app_assoc, sapp_assoc. simpl.
    by destruct res.
Qed.

Lemma fresh_pipe_not_in (w : World) : pipes w !! fresh (dom (pipes w)) = None.
Proof. apply not_elem_of_dom, is_fresh. Qed.

(** [os.OpenFile] in an existing directory, on a path that is not a
    directory. *)
Lemma os_OpenFile_ok dir name flags w :
  O_CREATE ∈ flags → dir ∈ dirs w → Join dir name ∉ dirs w →
  os_OpenFile (Join dir name) flags w =
  Ret (inr (mkHandle (Join dir name) 0))
    (match files w !! Join dir name with
     | Some old =>
         if bool_decide (O_TRUNC ∈ flags)
         then set_files (<[Join dir name := ""]> (files w)) w else w
     | None => set_files (<[Join dir name := ""]> (files w)) w
     end).
Proof.
  intros Hcreate Hdir Hnot. unfold os_OpenFile.
  rewrite (bool_decide_eq_false_2 _ Hnot).
  rewrite bool_decide_eq_true_2 by (by rewrite parent_Join).
  destruct (files w !! Join dir name); [done|].
  by rewrite (bool_decide_eq_true_2 _ Hcreate).
Qed.

(** [teeAndEval] around [buildRepo] when the system grants a pipe, the log
    directory exists, the log of the unit can be opened and the paths
    resolve. *)
Lemma teeAndEval_runs flags X mk logdir debDir baseDir repo w src dst :
  O_CREATE ∈ flags →
  pipe_quota w ≠ 0 → logdir ∈ dirs w → logPath logdir repo ∉ dirs w →
  filepath_Abs X (Join baseDir repo) = Some src →
  filepath_Abs X debDir = Some dst →
  let opts := mk src dst dst in
  let run := bpkg X opts in
  teeAndEvalWith flags logdir repo (buildRepoWith X mk debDir baseDir repo) w =
  Ret (unitFailure repo run)
    (afterUnit flags logdir repo (unitOutput repo run) (unitEvents opts run) w).
Proof.
  intros Hcreate Hquota Hdir Hlog Hsrc Hdst opts run.
  unfold teeAndEvalWith, os_Pipe. run_monad.
  destruct (pipe_quota w) as [|q] eqn:Hq; [done|]. simpl.
  rewrite os_OpenFile_ok; [|done..]. simpl.
  fold (logPath logdir repo).
  pose proof (fresh_pipe_not_in w) as Hfresh.
  assert (∀ w1 id, os_Stdout w1 = PipeW id → pipes w1 !! id = Some "" →
    buildRepoWith X mk debDir baseDir repo w1 =
    Ret (unitFailure repo run)
      (set_trace (trace w1 ++ unitEvents opts run)
         (set_pipes (<[id := unitOutput repo run]> (pipes w1)) w1))) as Hfn.
  { intros w1 id H1 H2.
    by rewrite (buildRepoWith_in_pipe X mk debDir baseDir repo w1 id "" src dst). }
  unfold afterUnit. rewrite Hq. replace (S q - 1) with q by lia.
  destruct w as [so se con pi qu di fi st tr]. simpl in *.
  set (id := fresh (dom pi)) in *.
  set (p := logPath logdir repo) in *.
  destruct (fi !! p) as [old|] eqn:Hold; simpl;
    [destruct (bool_decide (O_TRUNC ∈ flags)) eqn:Htrunc|];
    (rewrite (Hfn _ id); [|done|simpl; by rewrite lookup_insert_eq]); simpl;
    unfold io_Copy, Write, Fprint; run_monad;
    rewrite !lookup_insert_eq; simpl; rewrite !insert_insert_eq;
    destruct so as [n|k]; simpl;
    rewrite ?lookup_insert_eq, ?Hold; simpl; rewrite ?insert_insert_eq, ?pwrite_empty;
    try done.
  all: destruct (bool_decide (O_TRUNC ∈ flags)); by rewrite ?pwrite_empty.
Qed.

(** What [afterUnit] leaves as it was. *)
Lemma afterUnit_frame flags logdir repo data evs w :
  let w' := afterUnit flags logdir repo data evs w in
  os_Stdout w' = os_Stdout w ∧ os_Stderr w' = os_Stderr w ∧
  dirs w' = dirs w ∧ pipe_quota w' = pipe_quota w - 1 ∧
  trace w' = trace w ++ evs ∧ srcTree w' = srcTree w ∧
  is_Some (files w' !! logPath logdir repo) ∧
  ∀ p, p ≠ logPath logdir repo → files w' !! p = files w !! p.
Proof.
  unfold afterUnit. destruct w as [so se con pi qu di fi st tr]. simpl.
  destruct so as [n|k]; simpl; repeat split; try done;
    try (by rewrite lookup_insert_eq);
    intros p Hp; by rewrite lookup_insert_ne.
Qed.

(** ** The loop of the worker *)

Lemma bind_Ret {A B} (m : M A) (k : A → M B) w a w1 :
  m w = Ret a w1 → (m ≫= k) w = k a w1.
Proof. intros H. unfold mbind, M_bind, bind. by rewrite H. Qed.

Lemma worker_runs flags X mk logDir debDir baseDir repos :
  O_CREATE ∈ flags →
  ∀ w buildErrs logf old written,
  canRun X logDir debDir baseDir repos w →
  hpath logf = failureLog logDir → hpos logf = String.length written →
  files w !! failureLog logDir = Some (pwrite old 0 written) →
  ∃ w' logf',
    let failures := omap (λ repo, unitFailure repo (unitRun X mk debDir baseDir repo)) repos in
    worker (unitCall flags X mk logDir debDir baseDir) repos buildErrs logf w
      = Ret (buildErrs ++ failures, logf') w' ∧
    trace w' = trace w ++
      mjoin ((λ repo, unitEvents (unitOpts X mk debDir baseDir repo)
                        (unitRun X mk debDir baseDir repo)) <$> repos) ∧
    files w' !! failureLog logDir
      = Some (pwrite old 0 (written +:+ cat (logLine <$> failures))) ∧
    (∀ repo, repo ∈ repos → is_Some (files w' !! logPath logDir repo)) ∧
    (∀ p, is_Some (files w !! p) → is_Some (files w' !! p)) ∧
    os_Stdout w' = os_Stdout w ∧ os_Stderr w' = os_Stderr w ∧
    dirs w' = dirs w.
Proof.
  intros Hcreate. induction repos as [|repo repos IH];
    intros w buildErrs logf old written Hcan Hpath Hpos Hfile.
  - exists w, logf. simpl. rewrite app_nil_r. unfold cat. simpl.
    rewrite sapp_nil_r. repeat split; try done.
    + by rewrite app_nil_r.
    + intros repo Hin. by apply not_elem_of_nil in Hin.
  - destruct Hcan as (Hdir & Hflog & Hquota & [dst Hdst] & Hall).
    destruct (Hall repo) as (Hlog & Hne & [src Hsrc]); [left|].
    simpl in Hquota.
    pose proof (teeAndEval_runs flags X mk logDir debDir baseDir repo w src dst
                  Hcreate ltac:(lia) Hdir Hlog Hsrc Hdst) as Hunit.
    simpl in Hunit.
    assert (unitOpts X mk debDir baseDir repo = mk src dst dst) as Hopts.
    { unfold unitOpts. by rewrite Hsrc, Hdst. }
    rewrite <- Hopts in Hunit. fold (unitRun X mk debDir baseDir repo) in Hunit.
    set (run := unitRun X mk debDir baseDir repo) in *.
    set (w1 := afterUnit flags logDir repo (unitOutput repo run)
                 (unitEvents (unitOpts X mk debDir baseDir repo) run) w) in *.
    destruct (afterUnit_frame flags logDir repo (unitOutput repo run)
                (unitEvents (unitOpts X mk debDir baseDir repo) run) w)
      as (Hso & Hse & Hd & Hq & Htr & _ & Hmade & Hother).
    fold w1 in Hso, Hse, Hd, Hq, Htr, Hmade, Hother.
    assert (∀ p, is_Some (files w !! p) → is_Some (files w1 !! p)) as Hgrow1.
    { intros p Hp. destruct (decide (p = logPath logDir repo)) as [->|Hp'];
        [done|by rewrite Hother]. }
    assert (∀ w2, dirs w2 = dirs w → pipe_quota w2 = pipe_quota w1 →
              canRun X logDir debDir baseDir repos w2) as Hcan2.
    { intros w2 Hd2 Hq2. unfold canRun. rewrite Hd2, Hq2, Hq.
      repeat split; try done; try lia; try (by eexists);
        apply Hall; by right. }
    cbn [worker].
    rewrite (bind_Ret (unitCall flags X mk logDir debDir baseDir repo) _ _ _ _ Hunit).
    cbn [omap list_omap fmap list_fmap mjoin list_join]. fold run.
    destruct (unitFailure repo run) as [e|] eqn:Hfail.
    + fold (logLine e).
      assert (Write logf (logLine e) w1 =
              Ret (mkHandle (hpath logf) (hpos logf + String.length (logLine e)))
                (set_files (<[failureLog logDir :=
                     pwrite old 0 (written +:+ logLine e)]> (files w1)) w1)) as Hwr.
      { unfold Write. rewrite Hpath, Hother, Hfile by done. simpl.
        by rewrite Hpos, pwrite_pwrite. }
      rewrite (bind_Ret _ _ _ _ _ Hwr). cbv beta.
      set (w2 := set_files _ w1).
      assert (∀ p, is_Some (files w1 !! p) → is_Some (files w2 !! p)) as Hgrow2.
      { intros p Hp. unfold w2. destruct w1. simpl in *.
        destruct (decide (p = failureLog logDir)) as [->|Hp'];
          [by rewrite lookup_insert_eq|by rewrite lookup_insert_ne]. }
      destruct (IH w2 (buildErrs ++ [e])
                  (mkHandle (hpath logf) (hpos logf + String.length (logLine e)))
                  old (written +:+ logLine e))
        as (w' & logf' & Hw & Htr' & Hf' & Hlogs & Hgrow & Hso' & Hse' & Hd');
        [apply Hcan2; unfold w2; by destruct w1|done
        |simpl; rewrite slength_app; lia
        |unfold w2; destruct w1; simpl; by rewrite lookup_insert_eq|].
      exists w', logf'. simpl in Hw. rewrite Hw.
      split; [by rewrite <- app_assoc|].
      split; [rewrite Htr'; unfold w2; destruct w1; simpl in *; by rewrite Htr, <- app_assoc|].
      split; [rewrite Hf'; simpl; unfold cat; simpl; by rewrite sapp_assoc|].
      split.
      { intros r [->|Hr]%elem_of_cons; [|by apply Hlogs]. auto. }
      split; [auto|].
      unfold w2 in *. destruct w1; simpl in *. by rewrite Hso', Hse', Hd'.
    + destruct (IH w1 buildErrs logf old written)
        as (w' & logf' & Hw & Htr' & Hf' & Hlogs & Hgrow & Hso' & Hse' & Hd');
        [by apply Hcan2|done|done|by rewrite Hother|].
      exists w', logf'. simpl in Hw. rewrite Hw.
      split; [done|]. split; [by rewrite Htr', Htr, <- app_assoc|].
      split; [done|]. split.
      { intros r [->|Hr]%elem_of_cons; [|by apply Hlogs]. auto. }
      split; [auto|].
      by rewrite Hso', Hse', Hd'.
Qed.

(** ** A run of [buildRepos] *)

Lemma buildRepos_of_unfold v X repos logDir debDir baseDir imageName version local :
  buildRepos_of v X repos logDir debDir baseDir imageName version local =
  buildReposWith (flags_of v) X
    (unitCall (flags_of v) X (mkOpts_of v imageName version local)
       logDir debDir baseDir)
    repos logDir.
Proof. by destruct v. Qed.

Lemma flags_of_create v : O_CREATE ∈ flags_of v.
Proof. destruct v; simpl; rewrite !elem_of_cons; auto. Qed.

(** A run that no interrupt cuts short, in a world where every unit can be
    run. *)
Lemma buildRepos_runs flags X mk logDir debDir baseDir repos w :
  O_CREATE ∈ flags → interrupt X = None →
  canRun X logDir debDir baseDir repos w →
  let failures :=
    omap (λ repo, unitFailure repo (unitRun X mk debDir baseDir repo)) repos in
  let old := if bool_decide (O_TRUNC ∈ flags) then ""
             else default "" (files w !! failureLog logDir) in
  ∃ w',
    buildReposWith flags X (unitCall flags X mk logDir debDir baseDir) repos logDir w
      = Ret (match failures with
             | [] => None
             | _ :: _ => Some (errList failures)
             end) w' ∧
    trace w' = trace w ++
      mjoin ((λ repo, unitEvents (unitOpts X mk debDir baseDir repo)
                        (unitRun X mk debDir baseDir repo)) <$> repos) ∧
    files w' !! failureLog logDir
      = Some (pwrite old 0 (cat (logLine <$> failures))) ∧
    (∀ repo, repo ∈ repos → is_Some (files w' !! logPath logDir repo)) ∧
    dirs w' = dirs w.
Proof.
  intros Hcreate Hint Hcan failures old.
  pose proof Hcan as (Hdir & Hflog & Hquota & Hdst & Hall).
  unfold buildReposWith. rewrite Hint.
  pose proof (os_OpenFile_ok logDir "failed-builds.log" flags w Hcreate Hdir Hflog)
    as Hopen.
  fold (failureLog logDir) in Hopen.
  set (w0 := match files w !! failureLog logDir with
             | Some _ => if bool_decide (O_TRUNC ∈ flags)
                         then set_files (<[failureLog logDir := ""]> (files w)) w
                         else w
             | None => set_files (<[failureLog logDir := ""]> (files w)) w
             end) in *.
  rewrite (bind_Ret _ _ _ _ _ Hopen). cbv beta iota.
  assert (dirs w0 = dirs w ∧ pipe_quota w0 = pipe_quota w ∧ trace w0 = trace w ∧
          files w0 !! failureLog logDir = Some old) as (Hd0 & Hq0 & Ht0 & Hf0).
  { unfold w0, old. destruct (files w !! failureLog logDir) as [o|] eqn:Ho;
      destruct (bool_decide (O_TRUNC ∈ flags)); destruct w; simpl in *;
      by rewrite ?lookup_insert_eq. }
  destruct (worker_runs flags X mk logDir debDir baseDir repos Hcreate
              w0 [] (mkHandle (failureLog logDir) 0) old "")
    as (w1 & logf' & Hw & Htr & Hf & Hlogs & _ & _ & _ & Hd1).
  { unfold canRun. by rewrite Hd0, Hq0. }
  { done. }
  { done. }
  { rewrite Hf0, pwrite_0. by destruct old. }
  simpl in Hw. fold failures in Hw, Hf.
  rewrite (bind_Ret _ _ _ _ _ Hw).
  unfold Println, Fprintln, Fprint. run_monad.
  exists (world_of (Fprint (os_Stdout w1) "finished builds
" w1)).
  unfold Fprint. run_monad.
  destruct (os_Stdout w1) as [n|k], failures as [|e l]; simpl;
    destruct w1; simpl in *; rewrite ?Htr, ?Ht0, ?Hd1, ?Hd0; done.
Qed.

(** C6. A run of [buildRepos] that no interrupt cuts short, in a world
    where every unit can be run: the builder is called for every unit of
    the order, in order, whatever failed before; every failure of the
    builder is in the failure list as a [buildError] that carries the name
    of its unit, and every element of the list is one; the lines of the
    failures are in the failure log from its start; and the result is [nil]
    if and only if the failure list is empty. In both variants. *)
Theorem buildRepos_continues_after_failure
    v X repos logDir debDir baseDir imageName version local w :
  interrupt X = None →
  canRun X logDir debDir baseDir repos w →
  let mk := mkOpts_of v imageName version local in
  let run := unitRun X mk debDir baseDir in
  let failures := omap (λ repo, unitFailure repo (run repo)) repos in
  let old := if bool_decide (O_TRUNC ∈ flags_of v) then ""
             else default "" (files w !! failureLog logDir) in
  ∃ result w',
    buildRepos_of v X repos logDir debDir baseDir imageName version local w
      = Ret result w' ∧
    trace w' = trace w ++
      mjoin ((λ repo, unitEvents (unitOpts X mk debDir baseDir repo) (run repo))
               <$> repos) ∧
    (∀ repo, repo ∈ repos →
       EvMakeBuilder (unitOpts X mk debDir baseDir repo) ∈ trace w') ∧
    (∀ repo err, repo ∈ repos →
       (run repo = MakeBuilderFails err ∨ ∃ out, run repo = Builds out (Some err)) →
       buildError repo err ∈ failures) ∧
    (∀ e, e ∈ failures → ∃ repo err, repo ∈ repos ∧ e = buildError repo err) ∧
    files w' !! failureLog logDir
      = Some (pwrite old 0 (cat (logLine <$> failures))) ∧
    result = match failures with
             | [] => None
             | _ :: _ => Some (errList failures)
             end ∧
    (result = None ↔ failures = []).
Proof.
  intros Hint Hcan mk run failures old.
  destruct (buildRepos_runs (flags_of v) X mk logDir debDir baseDir repos w
              (flags_of_create v) Hint Hcan)
    as (w' & Hrun & Htr & Hlog & _ & _).
  fold run in Hrun, Htr, Hlog. fold failures in Hrun, Hlog. fold old in Hlog.
  eexists _, w'. rewrite buildRepos_of_unfold.
  split; [exact Hrun|]. split; [exact Htr|]. split; [|split; [|split; [|split; [done|split; [done|]]]]].
  - intros repo Hin. rewrite Htr. apply elem_of_app. right.
    apply list_elem_of_join.
    exists (unitEvents (unitOpts X mk debDir baseDir repo) (run repo)).
    split; [destruct (run repo); left|].
    apply list_elem_of_fmap. by exists repo.
  - intros repo err Hin Hfail. unfold failures.
    apply list_elem_of_omap. exists repo. split; [done|].
    destruct Hfail as [->|[out ->]]; done.
  - intros e He. unfold failures in He.
    apply list_elem_of_omap in He as (repo & Hin & He).
    exists repo. destruct (run repo) as [err|out [err|]]; simpl in He;
      [injection He as <-|injection He as <-|done]; by exists err.
  - destruct failures; split; done.
Qed.

Lemma canRun_demo :
  canRun demo.X ["log"] ["pkg"] ["src"] ["a"; "broken"; "z"] demo.world.
Proof.
  unfold canRun. split; [|split; [|split; [|split]]].
  - apply (bool_decide_unpack _). vm_compute. exact I.
  - apply (bool_decide_eq_false_1 _). vm_compute. reflexivity.
  - simpl. lia.
  - by eexists.
  - intros repo Hin. rewrite !elem_of_cons, elem_of_nil in Hin.
    destruct Hin as [->|[->|[->|[]]]];
      (split; [apply (bool_decide_eq_false_1 _); vm_compute; reflexivity|]);
      (split; [apply (bool_decide_eq_false_1 _); vm_compute; reflexivity|]);
      by eexists.
Defined.

(** Three units, the build of the middle one fails. *)
Lemma buildRepos_continues_after_failure_witness :
  let X := demo.X in
  let repos := ["a"; "broken"; "z"] in
  let w := demo.world in
  let mk := mkOpts_of part_000 "image" "latest" false in
  let run := unitRun X mk ["pkg"] ["src"] in
  let failures := omap (λ repo, unitFailure repo (run repo)) repos in
  let old := if bool_decide (O_TRUNC ∈ flags_of part_000) then ""
             else default "" (files w !! failureLog ["log"]) in
  interrupt X = None ∧
  canRun X ["log"] ["pkg"] ["src"] repos w ∧
  failures = [buildError "broken" (Errorf "exit status 2")] ∧
  ∃ result w',
    buildRepos_of part_000 X repos ["log"] ["pkg"] ["src"] "image" "latest" false w
      = Ret result w' ∧
    trace w' = trace w ++
      mjoin ((λ repo, unitEvents (unitOpts X mk ["pkg"] ["src"] repo) (run repo))
               <$> repos) ∧
    (∀ repo, repo ∈ repos →
       EvMakeBuilder (unitOpts X mk ["pkg"] ["src"] repo) ∈ trace w') ∧
    (∀ repo err, repo ∈ repos →
       (run repo = MakeBuilderFails err ∨ ∃ out, run repo = Builds out (Some err)) →
       buildError repo err ∈ failures) ∧
    (∀ e, e ∈ failures → ∃ repo err, repo ∈ repos ∧ e = buildError repo err) ∧
    files w' !! failureLog ["log"]
      = Some (pwrite old 0 (cat (logLine <$> failures))) ∧
    result = match failures with
             | [] => None
             | _ :: _ => Some (errList failures)
             end ∧
    (result = None ↔ failures = []).
Proof.
  intros X repos w mk run failures old.
  split; [reflexivity|]. split; [exact canRun_demo|]. split; [reflexivity|].
  exact (buildRepos_continues_after_failure part_000 X repos ["log"] ["pkg"] ["src"]
           "image" "latest" false w eq_refl canRun_demo).
Defined.

(** ** The failure log *)

(** In [Part000] the failure log holds the lines of the failures of the
    run and nothing else, and every unit has its log. *)
Lemma Part000_failure_log_fresh X repos logDir debDir baseDir imageName version local w :
  interrupt X = None →
  canRun X logDir debDir baseDir repos w →
  let run := unitRun X (mkOpts_of part_000 imageName version local) debDir baseDir in
  let failures := omap (λ repo, unitFailure repo (run repo)) repos in
  ∃ result w',
    Part000.buildRepos X repos logDir debDir baseDir imageName version local w
      = Ret result w' ∧
    files w' !! failureLog logDir = Some (cat (logLine <$> failures)) ∧
    ∀ repo, repo ∈ repos → is_Some (files w' !! logPath logDir repo).
Proof.
  intros Hint Hcan run failures.
  destruct (buildRepos_runs (flags_of part_000) X
              (mkOpts_of part_000 imageName version local)
              logDir debDir baseDir repos w
              (flags_of_create part_000) Hint Hcan)
    as (w' & Hrun & _ & Hlog & Hlogs & _).
  eexists _, w'. split; [exact Hrun|]. split; [|done].
  rewrite Hlog. by rewrite pwrite_empty.
Qed.

(** C7, in [src/main.go]. The log directory holds a failure log that
    lists a failure of an earlier run; a run of one unit whose build
    succeeds returns [nil], and the failure log still lists the earlier
    failure: [src/main.go] opens it without [O_TRUNC]. On the same world
    [Part000] leaves the log empty. *)
Theorem MainGo_failure_log_keeps_old_entries :
  (∃ w',
     MainGo.buildRepos demo.X ["a"] ["log"] ["pkg"] ["src"] "latest" demo.world
       = Ret None w' ∧
     files w' !! failureLog ["log"]
       = Some "build for old failed: exit status 2
" ∧
     is_Some (files w' !! logPath ["log"] "a")) ∧
  (∃ w',
     Part000.buildRepos demo.X ["a"] ["log"] ["pkg"] ["src"] "image" "latest"
       false demo.world = Ret None w' ∧
     files w' !! failureLog ["log"] = Some "").
Proof.
  split.
  - eexists. split; [vm_compute; reflexivity|].
    split; [vm_compute; reflexivity|]. vm_compute. by eexists.
  - eexists. split; [vm_compute; reflexivity|]. vm_compute. reflexivity.
Qed.

(** ** [teeAndEval] when the log cannot be opened *)

Lemma os_OpenFile_failure p flags w e w' :
  os_OpenFile p flags w = Ret (inl e) w' → w' = w.
Proof.
  unfold os_OpenFile. repeat case_bool_decide; try congruence;
    destruct (files w !! p); repeat case_bool_decide; congruence.
Qed.

Lemma os_Pipe_trace w r w' : os_Pipe w = Ret r w' → trace w' = trace w.
Proof.
  unfold os_Pipe. destruct (pipe_quota w); intros [= <- <-]; by destruct w.
Qed.

Lemma teeAndEval_of_unfold v : teeAndEval_of v = teeAndEvalWith (flags_of v).
Proof. by destruct v. Qed.

(** C10. When the pipe is made and opening the log of the unit fails with
    [e], [teeAndEval] returns [e] whatever [fn] is: the world it leaves is
    the one in which the open failed, with the standard streams still on
    the pipe and the calls of the builder as they were at entry, so [fn]
    has not run. In both variants. *)
Theorem teeAndEval_log_open_failure v logdir repo w pipe w1 e w2 :
  os_Pipe w = Ret (inr pipe) w1 →
  os_OpenFile (logPath logdir repo) (flags_of v)
    (set_Stderr (PipeW pipe) (set_Stdout (PipeW pipe) w1)) = Ret (inl e) w2 →
  ∀ fn,
    teeAndEval_of v logdir repo fn w = Ret (Some e) w2 ∧
    w2 = set_Stderr (PipeW pipe) (set_Stdout (PipeW pipe) w1) ∧
    trace w2 = trace w.
Proof.
  intros Hpipe Hopen fn.
  pose proof (os_OpenFile_failure _ _ _ _ _ Hopen) as Hw2.
  split; [|split; [done|]].
  - rewrite teeAndEval_of_unfold. unfold teeAndEvalWith.
    unfold mbind at 1, M_bind at 1, bind at 1, get.
    rewrite (bind_Ret _ _ _ _ _ Hpipe).
    unfold mbind at 1, M_bind at 1, bind at 1, modify.
    unfold mbind at 1, M_bind at 1, bind at 1.
    fold (logPath logdir repo).
    by rewrite (bind_Ret _ _ _ _ _ Hopen).
  - rewrite Hw2. rewrite <- (os_Pipe_trace _ _ _ Hpipe). by destruct w1.
Qed.

(** [teeAndEval] in a world without the log directory. *)
Lemma teeAndEval_log_open_failure_witness :
  let w := demo.worldNoLog in
  let w1 := set_pipe_quota 7 (set_pipes {[0 := ""]} w) in
  let w2 := set_Stderr (PipeW 0) (set_Stdout (PipeW 0) w1) in
  let e := Errorf "open: no such file or directory" in
  os_Pipe w = Ret (inr 0) w1 ∧
  os_OpenFile (logPath ["log"] "a") (flags_of part_000) w2 = Ret (inl e) w2 ∧
  ∀ fn,
    teeAndEval_of part_000 ["log"] "a" fn w = Ret (Some e) w2 ∧
    w2 = set_Stderr (PipeW 0) (set_Stdout (PipeW 0) w1) ∧
    trace w2 = trace w.
Proof.
  intros w w1 w2 e.
  assert (os_Pipe w = Ret (inr 0) w1) as Hpipe by (vm_compute; reflexivity).
  assert (os_OpenFile (logPath ["log"] "a") (flags_of part_000) w2
          = Ret (inl e) w2) as Hopen by (vm_compute; reflexivity).
  split; [exact Hpipe|]. split; [exact Hopen|].
  exact (teeAndEval_log_open_failure part_000 ["log"] "a" w 0 w1 e w2 Hpipe Hopen).
Defined.

(** ** [main] without a mode flag *)

Lemma Fprint_frame f s w :
  let w' := world_of (Fprint f s w) in
  Fprint f s w = Ret tt w' ∧
  files w' = files w ∧ dirs w' = dirs w ∧ trace w' = trace w.
Proof. destruct w, f; done. Qed.

(** C9. With neither [-clone] nor [-build], [main] leaves the directories,
    the files and the calls of the builder as they were, however it ends:
    no log directory and no log is made and no unit is built. When the
    source directory can be read and the order resolves, [main] returns
    after printing the line of the build order to the standard output. In
    both variants. *)
Theorem main_without_mode_flags X c w :
  clone_of c = false → build_of c = false →
  let o := main_of X c w in
  files (world_of o) = files w ∧
  dirs (world_of o) = dirs w ∧
  trace (world_of o) = trace w ∧
  ∀ dir order,
    srcTree w !! srcDir_of c = Some dir →
    determineBuildOrder_of (variant_of c) X
      (foldl (visitEntry_of (variant_of c) X) noRepos dir) = Returns order →
    o = Ret tt (world_of (Fprint (os_Stdout w) (buildOrderLine order) w)) ∧
    ∀ n, os_Stdout w = Fd n →
      console (world_of o) = console w +:+ buildOrderLine order.
Proof.
  intros Hclone Hbuild.
  assert (∀ (enumerate : M repoMetaData) (rest : repoMetaData → M unit)
            (visit : repoMetaData → DirEntry → repoMetaData)
            (determine : repoMetaData → Go (list string)),
    (∀ w, enumerate w = match srcTree w !! srcDir_of c with
                        | None => Panic (Errorf "open: no such file or directory") w
                        | Some repos => Ret (foldl visit noRepos repos) w
                        end) →
    (∀ repos w, rest repos w =
       match determine repos with
       | Panics e => Panic e w
       | Returns order => printBuildOrder order w
       end) →
    let o := (enumerate ≫= rest) w in
    files (world_of o) = files w ∧ dirs (world_of o) = dirs w ∧
    trace (world_of o) = trace w ∧
    ∀ dir order,
      srcTree w !! srcDir_of c = Some dir →
      determine (foldl visit noRepos dir) = Returns order →
      o = Ret tt (world_of (Fprint (os_Stdout w) (buildOrderLine order) w)) ∧
      ∀ n, os_Stdout w = Fd n →
        console (world_of o) = console w +:+ buildOrderLine order) as Hgen.
  { intros enumerate rest visit determine Henum Hrest.
    unfold mbind, M_bind, bind. rewrite Henum.
    destruct (srcTree w !! srcDir_of c) as [dir|] eqn:Hdir; simpl.
    - rewrite Hrest.
      destruct (determine (foldl visit noRepos dir)) as [order|e] eqn:Hdet.
      + unfold printBuildOrder. run_monad.
        destruct (Fprint_frame (os_Stdout w) (buildOrderLine order) w)
          as (Hp & Hf & Hd & Ht).
        rewrite Hp. simpl.
        split; [done|]. split; [done|]. split; [done|].
        intros dir' order' [= <-]. rewrite Hdet. intros [= <-].
        split; [done|]. intros n Hn. rewrite Hn. by destruct w.
      + simpl. split; [done|]. split; [done|]. split; [done|].
        intros dir' order' [= <-]. by rewrite Hdet.
    - split; [done|]. split; [done|]. split; [done|]. by intros dir order. }
  destruct c as [f|f]; simpl in *.
  - unfold MainGo.main. rewrite Hclone.
    unfold mbind at 1, M_bind at 1, bind at 1. simpl.
    apply (Hgen _ _ (MainGo.visitEntry X) (MainGo.determineBuildOrder X)).
    + intros w0. unfold MainGo.enumerateBuildableRepos. run_monad.
      by destruct (srcTree w0 !! MainGo.srcDir f).
    + intros repos w0. unfold MainGo.orderAndBuild. rewrite Hbuild.
      unfold mbind at 1, M_bind at 1, bind at 1.
      destruct (MainGo.determineBuildOrder X repos) as [order|e]; simpl; [|done].
      unfold mbind, M_bind, bind.
      by destruct (printBuildOrder order w0) as [[] ?| |].
  - unfold Part000.main. rewrite Hclone.
    unfold mbind at 1, M_bind at 1, bind at 1. simpl.
    apply (Hgen _ _ (Part000.visitEntry X) (Part000.determineBuildOrder X)).
    + intros w0. unfold Part000.enumerateBuildableRepos. run_monad.
      by destruct (srcTree w0 !! Part000.srcDir f).
    + intros repos w0. unfold Part000.orderAndBuild. rewrite Hbuild.
      unfold mbind at 1, M_bind at 1, bind at 1.
      destruct (Part000.determineBuildOrder X repos) as [order|e]; simpl; [|done].
      unfold mbind, M_bind, bind.
      by destruct (printBuildOrder order w0) as [[] ?| |].
Qed.

(** ** The two goroutines of [teeAndEval] *)

Section tee_facts.
Import Tee.
Variables (stdout stderr : File) (pipe : nat) (chunks : list string) (old : string).

Let step := Tee.step stdout stderr pipe.
Let Inv := Tee.Inv stdout stderr pipe chunks old.

Lemma pwrite_nothing s : pwrite s 0 "" = s.
Proof. rewrite pwrite_0. simpl. by destruct s. Qed.

Lemma cat_singleton c : cat [c] = c.
Proof. unfold cat. simpl. apply sapp_nil_r. Qed.

Lemma Inv_init : Inv (init pipe chunks old).
Proof.
  unfold Inv, Tee.Inv, init. simpl. split; [by exists []|].
  by rewrite pwrite_nothing.
Qed.

Lemma Inv_step s s' : Inv s → step s s' → Inv s'.
Proof.
  intros (Hw & Hlog & Hoff & Hcaller & Hcopier) Hstep.
  inversion Hstep as [s0 c todo Hc|s0 Hc|s0 Hc|s0 Hc|s0 Hc|s0 Hc Hwg
                     |s0 d1 d2 Hcop Hbuf Hd1|s0 Hcop Hbuf Hcl]; subst s0 s';
    unfold Inv, Tee.Inv; simpl.
  - rewrite Hc in Hw, Hcaller. destruct Hcaller as (Hcl & Hso & Hse).
    destruct Hw as (before & Hch & Hdata).
    unfold fnWrite. rewrite bool_decide_eq_true_2 by done.
    split; [|split; [done|split; [done|split; [done|]]]].
    + exists (before ++ [c]). split; [by rewrite <- app_assoc|].
      by rewrite cat_app, cat_singleton, <- Hdata, sapp_assoc.
    + destruct (copier s); [done|]. destruct Hcopier as (_ & _ & Hcl').
      congruence.
  - rewrite Hc in Hw, Hcaller. destruct Hw as (before & Hch & Hdata).
    rewrite app_nil_r in Hch. subst before. done.
  - rewrite Hc in Hw, Hcaller. destruct Hcaller as (Hcl & Hso & Hse).
    split; [done|]. split; [done|]. split; [done|]. split; [done|].
    destruct (copier s); [done|]. destruct Hcopier as (? & ? & ?). done.
  - rewrite Hc in Hw, Hcaller. destruct Hcaller as (Hcl & Hso & Hse). done.
  - rewrite Hc in Hw, Hcaller. destruct Hcaller as (Hcl & Hso & Hse). done.
  - rewrite Hc in Hw, Hcaller. destruct Hcaller as (Hcl & Hso & Hse).
    split; [done|]. split; [done|]. split; [done|].
    destruct (copier s); [|done]. congruence.
  - rewrite Hcop in Hcopier. rewrite Hcop. rewrite Hbuf in Hw.
    split; [by rewrite sapp_assoc|].
    split; [by rewrite Hlog, Hoff, pwrite_pwrite|].
    split; [rewrite slength_app; lia|].
    split; [|done].
    destruct (caller s); try done. destruct Hcaller as (_ & _ & _ & ?). congruence.
  - rewrite Hcop in Hcopier.
    split; [done|]. split; [done|]. split; [done|].
    split; [|split; [lia|done]].
    destruct (caller s); try done. by destruct Hcaller as (? & ? & ? & _).
Qed.

Lemma Inv_reachable s : rtc step (init pipe chunks old) s → Inv s.
Proof.
  intros Hrun.
  apply (rtc_ind_r (R := step) (λ s, Inv s) (init pipe chunks old));
    [apply Inv_init| |exact Hrun].
  intros y z _ Hstep Hy. by apply (Inv_step y z).
Qed.

(** When the caller has returned, both streams are restored, the copy has
    finished, the pipe is empty and every byte [fn] wrote is in both
    sinks. *)
Lemma Inv_Returned s :
  Inv s → caller s = Returned →
  Stdout s = stdout ∧ Stderr s = stderr ∧ copier s = Finished ∧
  buffer s = "" ∧ terminal s = cat chunks ∧
  logFile s = pwrite old 0 (cat chunks).
Proof.
  intros (Hw & Hlog & Hoff & Hcaller & Hcopier) Hret.
  rewrite Hret in Hw, Hcaller. destruct Hcaller as (_ & Hso & Hse & Hfin).
  rewrite Hfin in Hcopier. destruct Hcopier as (_ & Hbuf & _).
  simpl in Hw. rewrite Hbuf, sapp_nil_r in Hw.
  by rewrite Hlog, Hw.
Qed.

(** From [fn] on, the streams are those of the entry to [teeAndEval] as
    soon as the caller is at [wg.Wait]. *)
Lemma Inv_restored s :
  Inv s → caller s = AtWait ∨ caller s = Returned →
  Stdout s = stdout ∧ Stderr s = stderr.
Proof.
  intros (_ & _ & _ & Hcaller & _) [Hc|Hc]; rewrite Hc in Hcaller;
    [by destruct Hcaller as (? & ? & ?)|by destruct Hcaller as (? & ? & ? & _)].
Qed.

(** No run gets stuck: the caller can always be brought to its return. *)
Lemma tee_progress s : Inv s → ∃ s', rtc step s s' ∧ caller s' = Returned.
Proof.
  assert (∀ s, Inv s → caller s = AtWait →
            ∃ s', rtc step s s' ∧ caller s' = Returned) as Hwait.
  { intros s0 HI Hc.
    assert (∀ s1, Inv s1 → caller s1 = AtWait → copier s1 = Finished →
              ∃ s', rtc step s1 s' ∧ caller s' = Returned) as Hfin.
    { intros s1 (_ & _ & _ & _ & Hcop) Hc1 Hf. rewrite Hf in Hcop.
      eexists. split; [apply rtc_once, waits; [done|by destruct Hcop]|done]. }
    assert (∀ s1, Inv s1 → caller s1 = AtWait → copier s1 = Copying →
              buffer s1 = "" → ∃ s', rtc step s1 s' ∧ caller s' = Returned) as Hend.
    { intros s1 HI1 Hc1 Hcop1 Hbuf1.
      assert (outwClosed s1 = true) as Hcl.
      { destruct HI1 as (_ & _ & _ & H & _). rewrite Hc1 in H. by destruct H. }
      pose proof (copy_ends stdout stderr pipe s1 Hcop1 Hbuf1 Hcl) as Hstep.
      destruct (Hfin _ (Inv_step _ _ HI1 Hstep) Hc1 eq_refl) as (s' & Hrun & Hret).
      exists s'. split; [by eapply rtc_l|done]. }
    destruct (copier s0) eqn:Hcop; [|by apply Hfin].
    destruct (decide (buffer s0 = "")) as [Hbuf|Hbuf]; [by apply Hend|].
    assert (buffer s0 = buffer s0 +:+ "") as Hsplit by (by rewrite sapp_nil_r).
    pose proof (copies stdout stderr pipe s0 _ _ Hcop Hsplit Hbuf) as Hstep.
    destruct (Hend _ (Inv_step _ _ HI Hstep) Hc Hcop eq_refl) as (s' & Hrun & Hret).
    exists s'. split; [by eapply rtc_l|done]. }
  assert (∀ s, Inv s → caller s = AtRestoreStderr →
            ∃ s', rtc step s s' ∧ caller s' = Returned) as Hrerr.
  { intros s0 HI Hc. pose proof (restores_stderr stdout stderr pipe s0 Hc) as Hstep.
    destruct (Hwait _ (Inv_step _ _ HI Hstep) eq_refl) as (s' & Hrun & Hret).
    exists s'. split; [by eapply rtc_l|done]. }
  assert (∀ s, Inv s → caller s = AtRestoreStdout →
            ∃ s', rtc step s s' ∧ caller s' = Returned) as Hrout.
  { intros s0 HI Hc. pose proof (restores_stdout stdout stderr pipe s0 Hc) as Hstep.
    destruct (Hrerr _ (Inv_step _ _ HI Hstep) eq_refl) as (s' & Hrun & Hret).
    exists s'. split; [by eapply rtc_l|done]. }
  assert (∀ s, Inv s → caller s = AtClose →
            ∃ s', rtc step s s' ∧ caller s' = Returned) as Hclose.
  { intros s0 HI Hc. pose proof (closes stdout stderr pipe s0 Hc) as Hstep.
    destruct (Hrout _ (Inv_step _ _ HI Hstep) eq_refl) as (s' & Hrun & Hret).
    exists s'. split; [by eapply rtc_l|done]. }
  assert (∀ todo s, Inv s → caller s = InFn todo →
            ∃ s', rtc step s s' ∧ caller s' = Returned) as Hfn.
  { induction todo as [|c todo IH]; intros s0 HI Hc.
    - pose proof (fn_returns stdout stderr pipe s0 Hc) as Hstep.
      destruct (Hclose _ (Inv_step _ _ HI Hstep) eq_refl) as (s' & Hrun & Hret).
      exists s'. split; [by eapply rtc_l|done].
    - pose proof (fn_writes stdout stderr pipe s0 c todo Hc) as Hstep.
      destruct (IH _ (Inv_step _ _ HI Hstep) eq_refl) as (s' & Hrun & Hret).
      exists s'. split; [by eapply rtc_l|done]. }
  intros HI. destruct (caller s) eqn:Hc; eauto.
  exists s. split; [apply rtc_refl|done].
Qed.

End tee_facts.

(** ** [teeAndEval] when [fn] returns *)

Lemma os_OpenFile_handle p flags w h w' :
  os_OpenFile p flags w = Ret (inr h) w' → h = mkHandle p 0.
Proof.
  unfold os_OpenFile. repeat case_bool_decide; try congruence;
    destruct (files w !! p); repeat case_bool_decide; congruence.
Qed.

(** [teeAndEval] around any [fn] that returns: the result is the one of
    [fn], the standard streams are those of the entry, and what [fn] left
    in the pipe is in the log and on the stream saved at entry. *)
Lemma teeAndEval_returns flags logdir repo fn w pipe w1 outf w2 rv w3 :
  os_Pipe w = Ret (inr pipe) w1 →
  os_OpenFile (logPath logdir repo) flags
    (set_Stderr (PipeW pipe) (set_Stdout (PipeW pipe) w1)) = Ret (inr outf) w2 →
  fn w2 = Ret rv w3 →
  let data := default "" (pipes w3 !! pipe) in
  ∃ w',
    teeAndEvalWith flags logdir repo fn w = Ret rv w' ∧
    os_Stdout w' = os_Stdout w ∧ os_Stderr w' = os_Stderr w ∧
    (os_Stdout w ≠ PipeW pipe → pipes w' !! pipe = Some "") ∧
    files w' !! hpath outf
      = Some (pwrite (default "" (files w3 !! hpath outf)) (hpos outf) data) ∧
    (∀ n, os_Stdout w = Fd n → console w' = console w3 +:+ data) ∧
    trace w' = trace w3.
Proof.
  intros Hpipe Hopen Hfn data.
  exists (world_of (io_Copy (os_Stdout w) outf pipe
                      (set_Stderr (os_Stderr w) (set_Stdout (os_Stdout w) w3)))).
  split.
  - unfold teeAndEvalWith.
    unfold mbind at 1, M_bind at 1, bind at 1, get.
    rewrite (bind_Ret _ _ _ _ _ Hpipe).
    unfold mbind at 1, M_bind at 1, bind at 1, modify.
    unfold mbind at 1, M_bind at 1, bind at 1.
    fold (logPath logdir repo).
    rewrite (bind_Ret _ _ _ _ _ Hopen).
    rewrite (bind_Ret _ _ _ _ _ Hfn).
    unfold io_Copy, Write, Fprint. run_monad.
    by destruct w3, (os_Stdout w).
  - unfold io_Copy, Write, Fprint, data. run_monad.
    destruct w3 as [so se con pi qu di fi st tr]. simpl.
    destruct (os_Stdout w) as [n|k] eqn:Hso; simpl;
      rewrite ?lookup_insert_eq; repeat split; try done.
    all: try (intros n' [= <-]; done).
    all: intros Hne; rewrite lookup_insert_ne by congruence;
      by rewrite lookup_insert_eq.
Qed.

(** C8. [teeAndEval] around a function [fn] that wrote [chunks] and
    returned [rv], failure or not, once the pipe and the log are open. In
    the model that places the copy at [wg.Wait], the call returns [rv] with
    the standard streams as they were at entry, the pipe empty and the
    chunks in the log and on the stream saved at entry. In every
    interleaving of the calling and the copying goroutine, the streams are
    restored from [wg.Wait] on, the caller returns only when the copy has
    finished with the pipe empty and every chunk in both sinks, and a
    return can always be reached. In both variants. *)
Theorem teeAndEval_restores_and_drains
    v logdir repo fn w pipe w1 outf w2 rv w3 chunks :
  os_Pipe w = Ret (inr pipe) w1 →
  os_OpenFile (logPath logdir repo) (flags_of v)
    (set_Stderr (PipeW pipe) (set_Stdout (PipeW pipe) w1)) = Ret (inr outf) w2 →
  fn w2 = Ret rv w3 →
  pipes w3 !! pipe = Some (cat chunks) →
  let old := default "" (files w3 !! logPath logdir repo) in
  (∃ w',
     teeAndEval_of v logdir repo fn w = Ret rv w' ∧
     os_Stdout w' = os_Stdout w ∧ os_Stderr w' = os_Stderr w ∧
     (os_Stdout w ≠ PipeW pipe → pipes w' !! pipe = Some "") ∧
     files w' !! logPath logdir repo = Some (pwrite old 0 (cat chunks)) ∧
     (∀ n, os_Stdout w = Fd n → console w' = console w3 +:+ cat chunks)) ∧
  ∀ s,
    rtc (Tee.step (os_Stdout w) (os_Stderr w) pipe) (Tee.init pipe chunks old) s →
    (Tee.caller s = Tee.AtWait ∨ Tee.caller s = Tee.Returned →
       Tee.Stdout s = os_Stdout w ∧ Tee.Stderr s = os_Stderr w) ∧
    (Tee.caller s = Tee.Returned →
       Tee.copier s = Tee.Finished ∧ Tee.buffer s = "" ∧
       Tee.terminal s = cat chunks ∧
       Tee.logFile s = pwrite old 0 (cat chunks)) ∧
    ∃ s', rtc (Tee.step (os_Stdout w) (os_Stderr w) pipe) s s' ∧
          Tee.caller s' = Tee.Returned.
Proof.
  intros Hpipe Hopen Hfn Hdata old. split.
  - destruct (teeAndEval_returns (flags_of v) logdir repo fn w pipe w1 outf w2
                rv w3 Hpipe Hopen Hfn) as (w' & Hrun & Hso & Hse & Hp & Hf & Hc & _).
    pose proof (os_OpenFile_handle _ _ _ _ _ Hopen) as ->. simpl in Hf.
    rewrite Hdata in Hf, Hc. simpl in Hf, Hc.
    exists w'. rewrite teeAndEval_of_unfold. done.
  - intros s Hrun.
    pose proof (Inv_reachable (os_Stdout w) (os_Stderr w) pipe chunks old s Hrun)
      as HI.
    split; [by apply (Inv_restored _ _ pipe chunks old)|].
    split; [|by apply (tee_progress _ _ pipe chunks old)].
    intros Hret.
    by destruct (Inv_Returned _ _ pipe chunks old s HI Hret) as (_ & _ & ? & ? & ? & ?).
Qed.

(** [teeAndEval] around a function that writes two chunks and fails. *)
Lemma teeAndEval_restores_and_drains_witness :
  let w := demo.world in
  let fn : M (option error) := emit ["compiling
"; "failed
"];; mret (Some (Errorf "exit status 2")) in
  let chunks := ["compiling
"; "failed
"] in
  let rv := Some (Errorf "exit status 2") in
  let outf := mkHandle (logPath ["log"] "a") 0 in
  let w1 := world_of (os_Pipe w) in
  let w2 := world_of (os_OpenFile (logPath ["log"] "a") (flags_of part_000)
                        (set_Stderr (PipeW 0) (set_Stdout (PipeW 0) w1))) in
  let w3 := world_of (fn w2) in
  let old := default "" (files w3 !! logPath ["log"] "a") in
  os_Pipe w = Ret (inr 0) w1 ∧
  os_OpenFile (logPath ["log"] "a") (flags_of part_000)
    (set_Stderr (PipeW 0) (set_Stdout (PipeW 0) w1)) = Ret (inr outf) w2 ∧
  fn w2 = Ret rv w3 ∧
  pipes w3 !! 0 = Some (cat chunks) ∧
  (∃ w',
     teeAndEval_of part_000 ["log"] "a" fn w = Ret rv w' ∧
     os_Stdout w' = os_Stdout w ∧ os_Stderr w' = os_Stderr w ∧
     (os_Stdout w ≠ PipeW 0 → pipes w' !! 0 = Some "") ∧
     files w' !! logPath ["log"] "a" = Some (pwrite old 0 (cat chunks)) ∧
     (∀ n, os_Stdout w = Fd n → console w' = console w3 +:+ cat chunks)) ∧
  ∀ s,
    rtc (Tee.step (os_Stdout w) (os_Stderr w) 0) (Tee.init 0 chunks old) s →
    (Tee.caller s = Tee.AtWait ∨ Tee.caller s = Tee.Returned →
       Tee.Stdout s = os_Stdout w ∧ Tee.Stderr s = os_Stderr w) ∧
    (Tee.caller s = Tee.Returned →
       Tee.copier s = Tee.Finished ∧ Tee.buffer s = "" ∧
       Tee.terminal s = cat chunks ∧
       Tee.logFile s = pwrite old 0 (cat chunks)) ∧
    ∃ s', rtc (Tee.step (os_Stdout w) (os_Stderr w) 0) s s' ∧
          Tee.caller s' = Tee.Returned.
Proof.
  intros w fn chunks rv outf w1 w2 w3 old.
  assert (os_Pipe w = Ret (inr 0) w1) as Hpipe by (vm_compute; reflexivity).
  assert (os_OpenFile (logPath ["log"] "a") (flags_of part_000)
            (set_Stderr (PipeW 0) (set_Stdout (PipeW 0) w1))
          = Ret (inr outf) w2) as Hopen by (vm_compute; reflexivity).
  assert (fn w2 = Ret rv w3) as Hfn by (vm_compute; reflexivity).
  assert (pipes w3 !! 0 = Some (cat chunks)) as Hdata by (vm_compute; reflexivity).
  split; [exact Hpipe|]. split; [exact Hopen|]. split; [exact Hfn|].
  split; [exact Hdata|].
  exact (teeAndEval_restores_and_drains part_000 ["log"] "a" fn w 0 w1 outf w2
           rv w3 chunks Hpipe Hopen Hfn Hdata).
Defined.

(** [main] of [Part000] without a mode flag, on the source tree of
    [demo.world]. *)
Lemma main_without_mode_flags_witness :
  let c := ForPart000
             (Part000.mkFlags false false false ["src"] ["pkg"] ["log"]
                "image" "latest" "") in
  let w := demo.world in
  let o := main_of demo.X c w in
  clone_of c = false ∧ build_of c = false ∧
  console (world_of o) =
    "Build order (5 repos): [base-files lintian-profile-vyatta linux-vyatta b a]
" ∧
  files (world_of o) = files w ∧
  dirs (world_of o) = dirs w ∧
  trace (world_of o) = trace w ∧
  ∀ dir order,
    srcTree w !! srcDir_of c = Some dir →
    determineBuildOrder_of (variant_of c) demo.X
      (foldl (visitEntry_of (variant_of c) demo.X) noRepos dir) = Returns order →
    o = Ret tt (world_of (Fprint (os_Stdout w) (buildOrderLine order) w)) ∧
    ∀ n, os_Stdout w = Fd n →
      console (world_of o) = console w +:+ buildOrderLine order.
Proof.
  intros c w o.
  split; [reflexivity|]. split; [reflexivity|].
  split; [vm_compute; reflexivity|].
  exact (main_without_mode_flags demo.X c w eq_refl eq_refl).
Defined.

(** * Further properties of the metadata index *)

Lemma enumerateBuildableRepos_of_Ret v X from w dir :
  srcTree w !! from = Some dir →
  enumerateBuildableRepos_of v X from w
  = Ret (foldl (visitEntry_of v X) noRepos dir) w.
Proof.
  intros Hdir.
  destruct v; simpl;
    unfold MainGo.enumerateBuildableRepos, Part000.enumerateBuildableRepos;
    run_monad; by rewrite Hdir.
Qed.

Lemma ctrlFiles_visitEntry_of v X out e :
  ctrlFiles (visitEntry_of v X out e) =
  match entryControl e with
  | Parsed ctrl => <[entryName e := ctrl]> (ctrlFiles out)
  | _ => ctrlFiles out
  end.
Proof.
  destruct v; simpl; unfold MainGo.visitEntry, Part000.visitEntry;
    by destruct (entryControl e).
Qed.

(** Entries with another name, or whose control file did not parse, leave
    the control file recorded for [n] as it was. *)
Lemma ctrlFiles_foldl_other v X out dir n :
  (∀ e, e ∈ dir → entryName e = n → is_parsed e = false) →
  ctrlFiles (foldl (visitEntry_of v X) out dir) !! n = ctrlFiles out !! n.
Proof.
  revert out. induction dir as [|e dir IH]; intros out Hno; simpl; [done|].
  rewrite IH by (intros e' He'; apply Hno; by right).
  rewrite ctrlFiles_visitEntry_of.
  destruct (entryControl e) as [| |ctrl] eqn:He; try done.
  destruct (decide (entryName e = n)) as [Hn|Hn].
  - assert (is_parsed e = false) as Hp by (apply Hno; [left|done]).
    unfold is_parsed in Hp. by rewrite He in Hp.
  - by rewrite lookup_insert_ne.
Qed.

Lemma ctrlFiles_foldl_parsed v X out dir e ctrl :
  NoDup (entryName <$> dir) → e ∈ dir → entryControl e = Parsed ctrl →
  ctrlFiles (foldl (visitEntry_of v X) out dir) !! entryName e = Some ctrl.
Proof.
  revert out. induction dir as [|e0 dir IH]; intros out Hnd Hin He;
    [by apply not_elem_of_nil in Hin|].
  rewrite fmap_cons in Hnd. apply NoDup_cons in Hnd as [Hfresh Hnd].
  apply elem_of_cons in Hin as [->|Hin]; simpl.
  - rewrite ctrlFiles_foldl_other.
    + by rewrite ctrlFiles_visitEntry_of, He, lookup_insert_eq.
    + intros e' He' Hname. destruct Hfresh.
      apply list_elem_of_fmap. by exists e'.
  - by apply IH.
Qed.

(** X1. Over a directory with distinct entry names the map of control
    files holds, under the name of each entry whose control file parsed,
    that control file, and nothing else. In both variants. *)
Theorem enumerate_ctrlFiles_exact v X from w dir n ctrl :
  srcTree w !! from = Some dir →
  NoDup (entryName <$> dir) →
  ∃ repos,
    enumerateBuildableRepos_of v X from w = Ret repos w ∧
    (ctrlFiles repos !! n = Some ctrl ↔
     ∃ e, e ∈ dir ∧ entryName e = n ∧ entryControl e = Parsed ctrl).
Proof.
  intros Hdir Hnd. eexists. split; [by apply enumerateBuildableRepos_of_Ret|].
  split.
  - intros Hn.
    destruct (ctrlFiles_foldl v X noRepos dir n) as [[? Hc]|(e & He & Hname & Hp)];
      [by eexists|simpl in Hc; by rewrite lookup_empty in Hc|].
    unfold is_parsed in Hp. destruct (entryControl e) as [| |ctrl'] eqn:Hctrl;
      try done.
    pose proof (ctrlFiles_foldl_parsed v X noRepos dir e ctrl' Hnd He Hctrl) as H'.
    rewrite Hname, Hn in H'. injection H' as ->. by exists e.
  - intros (e & He & <- & Hctrl). by apply ctrlFiles_foldl_parsed.
Qed.

Lemma enumerate_ctrlFiles_exact_witness :
  srcTree demo.world !! ["src"] = Some demo.tree ∧
  NoDup (entryName <$> demo.tree) ∧
  ∃ repos,
    enumerateBuildableRepos_of part_000 demo.X ["src"] demo.world
      = Ret repos demo.world ∧
    (ctrlFiles repos !! "base-files" = Some (demo.ctrl [] [("base-files", None)]) ↔
     ∃ e, e ∈ demo.tree ∧ entryName e = "base-files" ∧
          entryControl e = Parsed (demo.ctrl [] [("base-files", None)])).
Proof.
  assert (srcTree demo.world !! ["src"] = Some demo.tree) as Hdir
    by (vm_compute; reflexivity).
  assert (NoDup (entryName <$> demo.tree)) as Hnd
    by (apply (bool_decide_unpack _); vm_compute; exact I).
  split; [exact Hdir|]. split; [exact Hnd|].
  exact (enumerate_ctrlFiles_exact part_000 demo.X ["src"] demo.world demo.tree
           "base-files" _ Hdir Hnd).
Defined.

Lemma visitEntry_of_absent v X out e :
  entryControl e = Absent → visitEntry_of v X out e = out.
Proof.
  intros He. destruct v; simpl; unfold MainGo.visitEntry, Part000.visitEntry;
    by rewrite He.
Qed.

Lemma foldl_without_absent v X out dir :
  foldl (visitEntry_of v X) out dir =
  foldl (visitEntry_of v X) out (filter (λ e, ¬ is_absent e) dir).
Proof.
  revert out. induction dir as [|e dir IH]; intros out; simpl; [done|].
  rewrite filter_cons.
  destruct (entryControl e) as [| |ctrl] eqn:He.
  - rewrite decide_False by (unfold is_absent; rewrite He; simpl; auto).
    rewrite visitEntry_of_absent by done. apply IH.
  - rewrite decide_True by (unfold is_absent; rewrite He; simpl; auto).
    simpl. apply IH.
  - rewrite decide_True by (unfold is_absent; rewrite He; simpl; auto).
    simpl. apply IH.
Qed.

(** X2. A directory without a control file is left out altogether: over a
    directory with distinct entry names its name is no key of the map of
    control files, is not among the unparseable units and owns no package
    name, and the enumeration gives the same result as on the directory
    without such entries. In both variants. *)
Theorem enumerate_skips_units_without_control v X from w dir e :
  srcTree w !! from = Some dir →
  NoDup (entryName <$> dir) →
  e ∈ dir → entryControl e = Absent →
  ∃ repos,
    enumerateBuildableRepos_of v X from w = Ret repos w ∧
    ctrlFiles repos !! entryName e = None ∧
    (entryName e ∉ unparseable repos) ∧
    (∀ n, pack2repo repos !! n ≠ Some (entryName e)) ∧
    repos = foldl (visitEntry_of v X) noRepos (filter (λ e, ¬ is_absent e) dir).
Proof.
  intros Hdir Hnd He Habs.
  assert (∀ e', e' ∈ dir → entryName e' = entryName e → e' = e) as Hsame.
  { intros e' He' Hname.
    apply list_elem_of_lookup in He as [i Hi].
    apply list_elem_of_lookup in He' as [i' Hi'].
    assert (i' = i) as ->; [|congruence].
    apply (NoDup_lookup _ i' i (entryName e) Hnd);
      rewrite list_lookup_fmap; [rewrite Hi'|rewrite Hi]; simpl; congruence. }
  eexists. split; [by apply enumerateBuildableRepos_of_Ret|].
  split; [|split; [|split]].
  - rewrite ctrlFiles_foldl_other; [done|].
    intros e' He' Hname. rewrite (Hsame e' He' Hname).
    unfold is_parsed. by rewrite Habs.
  - rewrite unparseable_foldl. simpl.
    intros (e' & Hname & He')%list_elem_of_fmap.
    apply list_elem_of_filter in He' as [Hm He'].
    rewrite (Hsame e' He' (eq_sym Hname)) in Hm.
    unfold is_malformed in Hm. by rewrite Habs in Hm.
  - intros n Hn.
    apply pack2repo_foldl in Hn as [Hn|(e' & He' & Hname & Hp)].
    + simpl in Hn. by rewrite lookup_empty in Hn.
    + rewrite (Hsame e' He' Hname) in Hp. unfold is_parsed in Hp.
      by rewrite Habs in Hp.
  - apply foldl_without_absent.
Qed.

Lemma enumerate_skips_units_without_control_witness :
  let e := mkDirEntry "docs" Absent in
  srcTree demo.world !! ["src"] = Some demo.tree ∧
  NoDup (entryName <$> demo.tree) ∧
  e ∈ demo.tree ∧ entryControl e = Absent ∧
  ∃ repos,
    enumerateBuildableRepos_of main_go demo.X ["src"] demo.world
      = Ret repos demo.world ∧
    ctrlFiles repos !! entryName e = None ∧
    (entryName e ∉ unparseable repos) ∧
    (∀ n, pack2repo repos !! n ≠ Some (entryName e)) ∧
    repos = foldl (visitEntry_of main_go demo.X) noRepos
              (filter (λ e, ¬ is_absent e) demo.tree).
Proof.
  intros e.
  assert (srcTree demo.world !! ["src"] = Some demo.tree) as Hdir
    by (vm_compute; reflexivity).
  assert (NoDup (entryName <$> demo.tree)) as Hnd
    by (apply (bool_decide_unpack _); vm_compute; exact I).
  assert (e ∈ demo.tree) as He.
  { unfold demo.tree. rewrite !elem_of_cons. auto. }
  split; [exact Hdir|]. split; [exact Hnd|]. split; [exact He|].
  split; [reflexivity|].
  exact (enumerate_skips_units_without_control main_go demo.X ["src"] demo.world
           demo.tree e Hdir Hnd He eq_refl).
Defined.

Lemma ctrlFiles_foldl_keeps v X out dir n :
  is_Some (ctrlFiles out !! n) →
  is_Some (ctrlFiles (foldl (visitEntry_of v X) out dir) !! n).
Proof.
  revert out. induction dir as [|e dir IH]; intros out Hn; simpl; [done|].
  apply IH. rewrite ctrlFiles_visitEntry_of.
  destruct (entryControl e); try done.
  destruct (decide (entryName e = n)) as [->|?];
    [by rewrite lookup_insert_eq|by rewrite lookup_insert_ne].
Qed.

Lemma ctrlFiles_foldl_has v X out dir e :
  e ∈ dir → is_parsed e →
  is_Some (ctrlFiles (foldl (visitEntry_of v X) out dir) !! entryName e).
Proof.
  revert out. induction dir as [|e0 dir IH]; intros out Hin Hp;
    [by apply not_elem_of_nil in Hin|].
  apply elem_of_cons in Hin as [->|Hin]; simpl; [|by apply IH].
  apply ctrlFiles_foldl_keeps. rewrite ctrlFiles_visitEntry_of.
  unfold is_parsed in Hp. destruct (entryControl e0); try done.
  by rewrite lookup_insert_eq.
Qed.

(** X3. Every unit the index of package names gives has parsed metadata:
    a value of [pack2repo] is a key of [ctrlFiles]. In both variants. *)
Theorem enumerate_index_points_to_parsed_units v X from w dir n r :
  srcTree w !! from = Some dir →
  ∃ repos,
    enumerateBuildableRepos_of v X from w = Ret repos w ∧
    (pack2repo repos !! n = Some r → is_Some (ctrlFiles repos !! r)).
Proof.
  intros Hdir. eexists. split; [by apply enumerateBuildableRepos_of_Ret|].
  intros [Hn|(e & He & <- & Hp)]%pack2repo_foldl.
  - simpl in Hn. by rewrite lookup_empty in Hn.
  - by apply ctrlFiles_foldl_has.
Qed.

Lemma enumerate_index_points_to_parsed_units_witness :
  srcTree demo.world !! ["src"] = Some demo.tree ∧
  ∃ repos,
    enumerateBuildableRepos_of part_000 demo.X ["src"] demo.world
      = Ret repos demo.world ∧
    (pack2repo repos !! "libb-dev" = Some "b" → is_Some (ctrlFiles repos !! "b")).
Proof.
  assert (srcTree demo.world !! ["src"] = Some demo.tree) as Hdir
    by (vm_compute; reflexivity).
  split; [exact Hdir|].
  exact (enumerate_index_points_to_parsed_units part_000 demo.X ["src"]
           demo.world demo.tree "libb-dev" "b" Hdir).
Defined.

Lemma pack2repo_foldl_declared v X out dir n r :
  pack2repo (foldl (visitEntry_of v X) out dir) !! n = Some r →
  pack2repo out !! n = Some r ∨
  ∃ e, e ∈ dir ∧ entryName e = r ∧ declares v X n e.
Proof.
  revert out. induction dir as [|e dir IH]; intros out; simpl; [auto|].
  intros [H|(e' & ? & ? & ?)]%IH.
  - rewrite pack2repo_visitEntry_of in H.
    destruct (entryControl e) as [| |ctrl] eqn:He; auto.
    destruct (decide (n ∈ namesOf v X ctrl)); auto.
    injection H as <-. right. exists e. split; [left|]. split; [done|].
    by exists ctrl.
  - right. exists e'. split; [by right|done].
Qed.

(** X4. The index of package names has an entry for a name exactly when
    some unit with parsed metadata declares it, and the entry is the last
    unit of the directory that does: a later declaration replaces an
    earlier one. In both variants. *)
Theorem enumerate_index_last_declaration_wins v X from w dir n :
  srcTree w !! from = Some dir →
  ∃ repos,
    enumerateBuildableRepos_of v X from w = Ret repos w ∧
    (is_Some (pack2repo repos !! n) ↔ ∃ e, e ∈ dir ∧ declares v X n e) ∧
    ∀ l1 e l2,
      dir = l1 ++ e :: l2 → declares v X n e →
      (∀ e', e' ∈ l2 → ¬ declares v X n e') →
      pack2repo repos !! n = Some (entryName e).
Proof.
  intros Hdir. eexists. split; [by apply enumerateBuildableRepos_of_Ret|].
  assert (∀ l1 e l2,
    dir = l1 ++ e :: l2 → declares v X n e →
    (∀ e', e' ∈ l2 → ¬ declares v X n e') →
    pack2repo (foldl (visitEntry_of v X) noRepos dir) !! n = Some (entryName e))
    as Hlast.
  { intros l1 e l2 -> (ctrl & Hctrl & Hn) Hl2.
    apply (pack2repo_last_writer v X noRepos l1 e l2 ctrl); [done..|].
    intros e' ctrl' He' Hctrl' Hn'. apply (Hl2 e' He'). by exists ctrl'. }
  split; [|exact Hlast]. split.
  - intros [r [Hr|(e & He & _ & Hd)]%pack2repo_foldl_declared].
    + simpl in Hr. by rewrite lookup_empty in Hr.
    + by exists e.
  - intros (e & He & (ctrl & Hctrl & Hn)).
    apply (foldl_elem_invariant (λ out, is_Some (pack2repo out !! n)) _ _ _ e He).
    + intros out. rewrite pack2repo_visitEntry_of, Hctrl.
      by rewrite decide_True.
    + intros out e' Hout. rewrite pack2repo_visitEntry_of.
      destruct (entryControl e') as [| |ctrl']; try done.
      by destruct (decide (n ∈ namesOf v X ctrl')).
Qed.

Lemma enumerate_index_last_declaration_wins_witness :
  srcTree demo.world !! ["src"] = Some demo.tree ∧
  ∃ repos,
    enumerateBuildableRepos_of part_000 demo.X ["src"] demo.world
      = Ret repos demo.world ∧
    (is_Some (pack2repo repos !! "libb-dev") ↔
     ∃ e, e ∈ demo.tree ∧ declares part_000 demo.X "libb-dev" e) ∧
    ∀ l1 e l2,
      demo.tree = l1 ++ e :: l2 → declares part_000 demo.X "libb-dev" e →
      (∀ e', e' ∈ l2 → ¬ declares part_000 demo.X "libb-dev" e') →
      pack2repo repos !! "libb-dev" = Some (entryName e).
Proof.
  assert (srcTree demo.world !! ["src"] = Some demo.tree) as Hdir
    by (vm_compute; reflexivity).
  split; [exact Hdir|].
  exact (enumerate_index_last_declaration_wins part_000 demo.X ["src"]
           demo.world demo.tree "libb-dev" Hdir).
Defined.

(** * Further properties of the dependency graph *)

(** X5. The edges of the graph [determineBuildOrder] builds are the
    implicit edges of the units with parsed metadata and, for each of their
    build-time alternatives that the index resolves, the edge to the unit
    it resolves to; an alternative the index does not have gives no edge.
    In both variants. *)
Theorem depGraph_edges_exact v X repos u d :
  (tsort.edge (depGraph_of v X repos) u d ↔
   ∃ ctrl, ctrlFiles repos !! u = Some ctrl ∧
           (implicit v u d ∨ declared X repos ctrl d)) ∧
  ∀ ctrl,
    ctrlFiles repos !! u = Some ctrl →
    (∀ rel pos,
       rel ∈ control.Relations (control.BuildDepends (control.Source ctrl)) →
       pos ∈ control.Possibilities rel →
       pack2repo repos !! TrimSpace X (control.Name pos) = None) →
    (tsort.edge (depGraph_of v X repos) u d ↔ implicit v u d).
Proof.
  split; [apply edge_depGraph_of|].
  intros ctrl Hu Hnone. rewrite edge_depGraph_of. split.
  - intros (ctrl' & Hu' & [Hi|(rel & pos & Hrel & Hpos & Hd)]); [done|].
    rewrite Hu in Hu'. injection Hu' as <-.
    by rewrite (Hnone rel pos Hrel Hpos) in Hd.
  - intros Hi. exists ctrl. auto.
Qed.

Lemma vertices_addBuildDepends_keep X repos repo ctrl g x :
  x ∈ tsort.vertices g →
  x ∈ tsort.vertices (addBuildDepends X repos repo ctrl g).
Proof.
  intros Hg. unfold addBuildDepends.
  apply (foldl_invariant (λ g, x ∈ tsort.vertices g)); [done|]. intros g1 rel Hg1.
  apply (foldl_invariant (λ g, x ∈ tsort.vertices g)); [done|]. intros g2 pos Hg2.
  simpl. destruct (pack2repo repos !! _); [|done].
  apply vertices_AddEdge. auto.
Qed.

Lemma vertices_addBaseEdges_keep repo g x :
  x ∈ tsort.vertices g → x ∈ tsort.vertices (Part000.addBaseEdges repo g).
Proof.
  intros Hg. unfold Part000.addBaseEdges.
  repeat case_bool_decide; repeat (apply vertices_AddEdge; right; right); done.
Qed.

Lemma vertices_visitRepo_keep v X repos g entry x :
  x ∈ tsort.vertices g →
  x ∈ tsort.vertices
        (match v with
         | main_go => MainGo.visitRepo X repos g entry
         | part_000 => Part000.visitRepo X repos g entry
         end).
Proof.
  intros Hg. destruct entry as [repo ctrl]. destruct v; simpl.
  - apply vertices_addBuildDepends_keep, vertices_AddEdge.
    right; right. simpl. apply elem_of_union. by right.
  - apply vertices_addBuildDepends_keep, vertices_addBaseEdges_keep.
    simpl. apply elem_of_union. by right.
Qed.

(** Every unit with parsed metadata is a vertex. *)
Lemma parsed_unit_is_vertex v X repos u ctrl :
  ctrlFiles repos !! u = Some ctrl →
  u ∈ tsort.vertices (depGraph_of v X repos).
Proof.
  intros Hu. apply elem_of_mapRange with (X := X) in Hu.
  destruct v; simpl; unfold MainGo.depGraph, Part000.depGraph.
  - apply (foldl_elem_invariant (λ g, u ∈ tsort.vertices g) _ _ _ (u, ctrl) Hu).
    + intros g. simpl. apply vertices_addBuildDepends_keep, vertices_AddEdge. auto.
    + intros g e Hg. by apply (vertices_visitRepo_keep main_go).
  - apply (foldl_elem_invariant (λ g, u ∈ tsort.vertices g) _ _ _ (u, ctrl) Hu).
    + intros g. simpl.
      apply vertices_addBuildDepends_keep, vertices_addBaseEdges_keep.
      simpl. apply elem_of_union. left. by apply elem_of_singleton.
    + intros g e Hg. by apply (vertices_visitRepo_keep part_000).
Qed.

(** The vertices of the graph: the units with parsed metadata and the
    targets of the edges. *)
Lemma vertices_depGraph_of_iff v X repos x :
  x ∈ tsort.vertices (depGraph_of v X repos) ↔
  is_Some (ctrlFiles repos !! x) ∨ ∃ u, tsort.edge (depGraph_of v X repos) u x.
Proof.
  split.
  - set (P := λ g, ∀ x, x ∈ tsort.vertices g →
                is_Some (ctrlFiles repos !! x) ∨ ∃ u, tsort.edge g u x).
    assert (∀ g from to, is_Some (ctrlFiles repos !! from) → P g →
              P (tsort.AddEdge from to g)) as Hedge.
    { intros g from to Hfrom Hg y. rewrite vertices_AddEdge.
      intros [->|[->|Hy]]; [by left| |].
      - right. exists from. apply edge_AddEdge. by left.
      - destruct (Hg y Hy) as [?|[u Hu]]; [by left|].
        right. exists u. apply edge_AddEdge. by right. }
    assert (∀ g repo ctrl, is_Some (ctrlFiles repos !! repo) → P g →
              P (addBuildDepends X repos repo ctrl g)) as Hdep.
    { intros g repo ctrl Hrepo Hg. unfold addBuildDepends.
      apply (foldl_invariant P); [done|]. intros g1 rel Hg1.
      apply (foldl_invariant P); [done|]. intros g2 pos Hg2. simpl.
      destruct (pack2repo repos !! _); [|done]. by apply Hedge. }
    assert (∀ g repo, is_Some (ctrlFiles repos !! repo) → P g →
              P (tsort.AddVertex repo g)) as Hvert.
    { intros g repo Hrepo Hg y. simpl. rewrite elem_of_union, elem_of_singleton.
      intros [->|Hy]; [by left|]. apply (Hg y Hy). }
    assert (P tsort.New) as Hnew.
    { intros y Hy. simpl in Hy. by apply not_elem_of_empty in Hy. }
    revert x. fold P.
    destruct v; simpl; (apply (foldl_invariant_in P); [done|]);
      intros g [repo ctrl] Hin%elem_of_mapRange Hg; simpl;
      (assert (is_Some (ctrlFiles repos !! repo)) as Hrepo by eauto).
    + apply Hdep; [done|]. apply Hedge; [done|]. by apply Hvert.
    + apply Hdep; [done|]. unfold Part000.addBaseEdges.
      repeat case_bool_decide; repeat (apply Hedge; [done|]); by apply Hvert.
  - intros [[ctrl Hc]|[u Hu]]; [by eapply parsed_unit_is_vertex|].
    by destruct (closed_depGraph_of v X repos u x Hu).
Qed.

(** Two graphs with the same vertices and the same edges are equal. *)
Lemma Graph_ext (g g' : tsort.Graph) :
  (∀ x, x ∈ tsort.vertices g ↔ x ∈ tsort.vertices g') →
  (∀ u d, tsort.edge g u d ↔ tsort.edge g' u d) →
  g = g'.
Proof.
  destruct g as [vs es], g' as [vs' es']. unfold tsort.edge. simpl.
  intros Hv He. f_equal; apply set_eq; [done|]. intros [u d]. apply He.
Qed.

(** X6. The graph does not depend on the order in which the map of
    control files is ranged over: two runs that differ in that order only
    build the same graph, and [determineBuildOrder] gives the same result.
    In both variants. *)
Theorem depGraph_independent_of_range_order v X X' repos :
  TrimSpace X = TrimSpace X' →
  depGraph_of v X repos = depGraph_of v X' repos ∧
  determineBuildOrder_of v X repos = determineBuildOrder_of v X' repos.
Proof.
  intros Htrim.
  assert (∀ u d, tsort.edge (depGraph_of v X repos) u d ↔
                 tsort.edge (depGraph_of v X' repos) u d) as Hedges.
  { intros u d. rewrite !edge_depGraph_of. unfold declared. by rewrite Htrim. }
  assert (depGraph_of v X repos = depGraph_of v X' repos) as Heq.
  { apply Graph_ext; [|done]. intros x. rewrite !vertices_depGraph_of_iff.
    by setoid_rewrite Hedges. }
  split; [done|]. by rewrite !determineBuildOrder_of_unfold, Heq.
Qed.

(** The same tree with the map ranged over in reverse. *)
Lemma depGraph_independent_of_range_order_witness :
  let X' := mkExternals (TrimSpace demo.X) (dependency_Parse demo.X)
              (filepath_Abs demo.X) (bpkg demo.X)
              (λ m, reverse (map_to_list m))
              (λ m, reverse_Permutation (map_to_list m))
              (cloning demo.X) (interrupt demo.X) in
  let repos := foldl (Part000.visitEntry demo.X) noRepos demo.tree in
  TrimSpace demo.X = TrimSpace X' ∧
  depGraph_of part_000 demo.X repos = depGraph_of part_000 X' repos ∧
  determineBuildOrder_of part_000 demo.X repos
  = determineBuildOrder_of part_000 X' repos.
Proof.
  intros X' repos. split; [reflexivity|].
  exact (depGraph_independent_of_range_order part_000 demo.X X' repos eq_refl).
Defined.

(** X7. With no unit whose metadata parsed the graph is empty, and
    [determineBuildOrder] returns the unparseable units as they are. In
    both variants. *)
Theorem determineBuildOrder_without_parsed_units v X repos :
  ctrlFiles repos = ∅ →
  tsort.vertices (depGraph_of v X repos) = ∅ ∧
  determineBuildOrder_of v X repos = Returns (unparseable repos).
Proof.
  intros Hempty.
  assert (mapRange X (ctrlFiles repos) = []) as Hrange.
  { apply Permutation_nil_r. rewrite (mapRange_perm X), Hempty.
    by rewrite map_to_list_empty. }
  assert (depGraph_of v X repos = tsort.New) as Hg.
  { destruct v; simpl; unfold MainGo.depGraph, Part000.depGraph;
      by rewrite Hrange. }
  rewrite determineBuildOrder_of_unfold, Hg. done.
Qed.

Lemma determineBuildOrder_without_parsed_units_witness :
  let repos := foldl (MainGo.visitEntry demo.X) noRepos
                 [mkDirEntry "m" Malformed; mkDirEntry "docs" Absent;
                  mkDirEntry "k" Malformed] in
  ctrlFiles repos = ∅ ∧
  tsort.vertices (depGraph_of main_go demo.X repos) = ∅ ∧
  determineBuildOrder_of main_go demo.X repos = Returns ["m"; "k"].
Proof.
  intros repos.
  exact (conj eq_refl
           (determineBuildOrder_without_parsed_units main_go demo.X repos eq_refl)).
Defined.

(** X8. When [determineBuildOrder] returns, the part of the order before
    the unparseable units lists each vertex of the graph once: the units
    with parsed metadata, those without an edge included, and the targets
    of the edges. In both variants. *)
Theorem determineBuildOrder_lists_every_vertex_once v X repos order :
  determineBuildOrder_of v X repos = Returns order →
  ∃ sorted,
    order = sorted ++ unparseable repos ∧
    NoDup sorted ∧
    (∀ x, x ∈ sorted ↔
       is_Some (ctrlFiles repos !! x) ∨
       ∃ u, tsort.edge (depGraph_of v X repos) u x) ∧
    ∀ u ctrl, ctrlFiles repos !! u = Some ctrl → u ∈ order.
Proof.
  rewrite determineBuildOrder_of_unfold. unfold sortAndAppend.
  destruct (tsort.Sort (depGraph_of v X repos)) as [sorted|] eqn:Hs; [|done].
  intros [= <-]. exists sorted. split; [done|].
  apply Sort_Some in Hs as [_ Hperm].
  assert (∀ x, x ∈ sorted ↔ x ∈ tsort.vertices (depGraph_of v X repos)) as Hin.
  { intros x. rewrite Hperm. apply elem_of_elements. }
  split; [rewrite Hperm; apply NoDup_elements|].
  split; [intros x; by rewrite Hin, vertices_depGraph_of_iff|].
  intros u ctrl Hu. apply elem_of_app. left. apply Hin.
  by eapply parsed_unit_is_vertex.
Qed.

Lemma determineBuildOrder_lists_every_vertex_once_witness :
  let repos := foldl (Part000.visitEntry demo.X) noRepos demo.treeMiddle in
  let order :=
    ["base-files"; "lintian-profile-vyatta"; "linux-vyatta"; "z"; "a"; "m"] in
  determineBuildOrder_of part_000 demo.X repos = Returns order ∧
  ∃ sorted,
    order = sorted ++ unparseable repos ∧
    NoDup sorted ∧
    (∀ x, x ∈ sorted ↔
       is_Some (ctrlFiles repos !! x) ∨
       ∃ u, tsort.edge (depGraph_of part_000 demo.X repos) u x) ∧
    ∀ u ctrl, ctrlFiles repos !! u = Some ctrl → u ∈ order.
Proof.
  intros repos order.
  assert (determineBuildOrder_of part_000 demo.X repos = Returns order) as Hret
    by (vm_compute; reflexivity).
  split; [exact Hret|].
  exact (determineBuildOrder_lists_every_vertex_once part_000 demo.X repos order Hret).
Defined.

(** * Further properties of [main] and of the build executor *)

(** X9. [Part000.main] with [-clone] and no git reference prints the
    message to the standard error and ends the process with status 1,
    before anything is cloned, enumerated or built: the world is left as
    it was but for the message. *)
Theorem Part000_clone_without_git_ref X f w :
  Part000.clone f = true → Part000.gitRef f = "" →
  Part000.main X f w
  = Exit 1 (world_of (Fprintln (os_Stderr w) "Must supply git ref to clone" w)).
Proof.
  intros Hclone Href. unfold Part000.main. rewrite Hclone.
  rewrite bool_decide_eq_true_2 by done.
  unfold handleError, Fprintln, Fprint, os_Exit. run_monad.
  by destruct (os_Stderr w).
Qed.

Lemma Part000_clone_without_git_ref_witness :
  let f := Part000.mkFlags true true false ["src"] ["pkg"] ["log"]
             "image" "latest" "" in
  let o := Part000.main demo.X f demo.world in
  Part000.clone f = true ∧ Part000.gitRef f = "" ∧
  console (world_of o) = "Must supply git ref to clone
" ∧
  dirs (world_of o) = dirs demo.world ∧
  o = Exit 1 (world_of (Fprintln (os_Stderr demo.world)
                          "Must supply git ref to clone" demo.world)).
Proof.
  intros f o. split; [reflexivity|]. split; [reflexivity|].
  split; [vm_compute; reflexivity|]. split; [vm_compute; reflexivity|].
  exact (Part000_clone_without_git_ref demo.X f demo.world eq_refl eq_refl).
Defined.

(** X10. With [-clone], when [cloneRepos] returns an error [main] prints
    it to the standard error and ends the process with status 1 in the
    world the cloning left: no repository is enumerated, no order is
    printed, nothing is built. In both variants. *)
Theorem main_clone_failure X c w e w1 :
  clone_of c = true → gitRefGiven c →
  cloneRepos_of (variant_of c) X (srcDir_of c) w = Ret (Some e) w1 →
  main_of X c w = Exit 1 (world_of (Fprintln (os_Stderr w1) (Error e) w1)) ∧
  trace (world_of (main_of X c w)) = trace w1.
Proof.
  intros Hclone Href Hfail.
  assert (∀ rest : M unit,
    ((err ← cloneRepos_of (variant_of c) X (srcDir_of c); handleError err);; rest) w
    = Exit 1 (world_of (Fprintln (os_Stderr w1) (Error e) w1))) as Hgen.
  { intros rest. unfold mbind, M_bind, bind. rewrite Hfail.
    unfold handleError, Fprintln, Fprint, os_Exit. run_monad.
    by destruct (os_Stderr w1). }
  assert (main_of X c w
          = Exit 1 (world_of (Fprintln (os_Stderr w1) (Error e) w1))) as Hmain.
  { destruct c as [f|f]; simpl in *.
    - unfold MainGo.main. rewrite Hclone. apply Hgen.
    - unfold Part000.main. rewrite Hclone.
      rewrite bool_decide_eq_false_2 by done.
      rewrite <- (Hgen (repos ← Part000.enumerateBuildableRepos X (Part000.srcDir f);
                        Part000.orderAndBuild X f repos)).
      done. }
  split; [done|]. rewrite Hmain. simpl.
  by destruct (Fprint_frame (os_Stderr w1) (Error e +:+ "
") w1) as (_ & _ & _ & Ht).
Qed.

Lemma main_clone_failure_witness :
  let X := mkExternals (TrimSpace demo.X) (dependency_Parse demo.X)
             (filepath_Abs demo.X) (bpkg demo.X) (mapRange demo.X)
             (mapRange_perm demo.X)
             (λ _, mret (Some (Errorf "rate limit exceeded")))
             (interrupt demo.X) in
  let c := ForPart000
             (Part000.mkFlags true true false ["src"] ["pkg"] ["log"]
                "image" "latest" "master") in
  let w := demo.world in
  let w1 := set_dirs ({[ ["src"] ]} ∪ dirs w) w in
  let e := Errorf "rate limit exceeded" in
  clone_of c = true ∧ gitRefGiven c ∧
  cloneRepos_of (variant_of c) X (srcDir_of c) w = Ret (Some e) w1 ∧
  console (world_of (main_of X c w)) = "rate limit exceeded
" ∧
  main_of X c w = Exit 1 (world_of (Fprintln (os_Stderr w1) (Error e) w1)) ∧
  trace (world_of (main_of X c w)) = trace w1.
Proof.
  intros X c w w1 e.
  assert (gitRefGiven c) as Href by (simpl; discriminate).
  assert (cloneRepos_of (variant_of c) X (srcDir_of c) w = Ret (Some e) w1)
    as Hfail.
  { unfold w1. vm_compute. reflexivity. }
  split; [reflexivity|]. split; [exact Href|]. split; [exact Hfail|].
  split; [vm_compute; reflexivity|].
  exact (main_clone_failure X c w e w1 eq_refl Href Hfail).
Defined.

(** X11. Without [-clone], when the source directory cannot be read
    [main] panics with the error of [ioutil.ReadDir], with or without
    [-build]: nothing is printed, no log directory is made and nothing is
    built. In both variants. *)
Theorem main_unreadable_source X c w :
  clone_of c = false → srcTree w !! srcDir_of c = None →
  main_of X c w = Panic (Errorf "open: no such file or directory") w.
Proof.
  intros Hclone Hdir. destruct c as [f|f]; simpl in *.
  - unfold MainGo.main, MainGo.enumerateBuildableRepos.
    rewrite Hclone. run_monad. by rewrite Hdir.
  - unfold Part000.main, Part000.enumerateBuildableRepos.
    rewrite Hclone. run_monad. by rewrite Hdir.
Qed.

Lemma main_unreadable_source_witness :
  let c := ForMainGo (MainGo.mkFlags false true ["checkout"] ["pkg"] ["log"]
                        "latest") in
  clone_of c = false ∧ srcTree demo.world !! srcDir_of c = None ∧
  main_of demo.X c demo.world
  = Panic (Errorf "open: no such file or directory") demo.world.
Proof.
  intros c.
  assert (srcTree demo.world !! srcDir_of c = None) as Hdir
    by (vm_compute; reflexivity).
  split; [reflexivity|]. split; [exact Hdir|].
  exact (main_unreadable_source demo.X c demo.world eq_refl Hdir).
Defined.

(** [enumerateBuildableRepos] followed by the computation of the order,
    when the source directory can be read and the order resolves. *)
Lemma main_of_build X c w dir order :
  clone_of c = false → build_of c = true →
  srcTree w !! srcDir_of c = Some dir →
  determineBuildOrder_of (variant_of c) X
    (foldl (visitEntry_of (variant_of c) X) noRepos dir) = Returns order →
  main_of X c w =
  (printBuildOrder order;;
   err ← os_MkdirAll (logDir_of c);
   handleError err;;
   err ← buildRepos_of (variant_of c) X order (logDir_of c) (pkgDir_of c)
           (srcDir_of c)
           (imageName_of c) (version_of c) (local_of c);
   handleError err) w.
Proof.
  intros Hclone Hbuild Hdir Horder. destruct c as [f|f]; simpl in *.
  - unfold MainGo.main, MainGo.enumerateBuildableRepos, MainGo.orderAndBuild.
    rewrite Hclone, Hbuild. run_monad. rewrite Hdir. simpl.
    by rewrite Horder.
  - unfold Part000.main, Part000.enumerateBuildableRepos, Part000.orderAndBuild.
    rewrite Hclone, Hbuild. run_monad. rewrite Hdir. simpl.
    by rewrite Horder.
Qed.

(** X12. [main] with [-build] when the log directory cannot be made, a
    component of its path being a regular file: the order is printed, the
    error of [os.MkdirAll] is printed and the process ends with status 1;
    the builder is not called and no file or directory is made. In both
    variants. *)
Theorem main_log_directory_failure X c w dir order :
  clone_of c = false → build_of c = true →
  srcTree w !! srcDir_of c = Some dir →
  determineBuildOrder_of (variant_of c) X
    (foldl (visitEntry_of (variant_of c) X) noRepos dir) = Returns order →
  Exists (λ q, q ∈ dom (files w)) (prefixes (logDir_of c)) →
  ∃ w',
    main_of X c w = Exit 1 w' ∧
    trace w' = trace w ∧ files w' = files w ∧ dirs w' = dirs w ∧
    ∀ n m, os_Stdout w = Fd n → os_Stderr w = Fd m →
      console w' = console w +:+ buildOrderLine order +:+ "mkdir: not a directory
".
Proof.
  intros Hclone Hbuild Hdir Horder Hfile.
  rewrite (main_of_build X c w dir order Hclone Hbuild Hdir Horder).
  unfold printBuildOrder, os_MkdirAll, handleError, Fprintln, Fprint, os_Exit.
  run_monad.
  destruct w as [so se con pi qu di fi st tr]. simpl in *.
  destruct so as [n|k]; simpl; rewrite (bool_decide_eq_true_2 _ Hfile); simpl;
    destruct se as [m|j]; simpl; eexists; (split; [reflexivity|]); simpl;
    repeat (split; [done|]); intros n' m' ? ?; try done.
  by rewrite sapp_assoc.
Qed.

Lemma main_log_directory_failure_witness :
  let c := ForPart000
             (Part000.mkFlags false true false ["src"] ["pkg"]
                ["log"; "failed-builds.log"; "today"] "image" "latest" "") in
  let w := demo.world in
  let order :=
    ["base-files"; "lintian-profile-vyatta"; "linux-vyatta"; "b"; "a"] in
  clone_of c = false ∧ build_of c = true ∧
  srcTree w !! srcDir_of c = Some demo.tree ∧
  determineBuildOrder_of (variant_of c) demo.X
    (foldl (visitEntry_of (variant_of c) demo.X) noRepos demo.tree)
    = Returns order ∧
  Exists (λ q, q ∈ dom (files w)) (prefixes (logDir_of c)) ∧
  ∃ w',
    main_of demo.X c w = Exit 1 w' ∧
    trace w' = trace w ∧ files w' = files w ∧ dirs w' = dirs w ∧
    ∀ n m, os_Stdout w = Fd n → os_Stderr w = Fd m →
      console w' = console w +:+ buildOrderLine order +:+ "mkdir: not a directory
".
Proof.
  intros c w order.
  assert (srcTree w !! srcDir_of c = Some demo.tree) as Hdir
    by (vm_compute; reflexivity).
  assert (determineBuildOrder_of (variant_of c) demo.X
            (foldl (visitEntry_of (variant_of c) demo.X) noRepos demo.tree)
          = Returns order) as Horder by (vm_compute; reflexivity).
  assert (Exists (λ q, q ∈ dom (files w)) (prefixes (logDir_of c))) as Hfile.
  { apply (bool_decide_unpack _). vm_compute. exact I. }
  split; [reflexivity|]. split; [reflexivity|]. split; [exact Hdir|].
  split; [exact Horder|]. split; [exact Hfile|].
  exact (main_log_directory_failure demo.X c w demo.tree order
           eq_refl eq_refl Hdir Horder Hfile).
Defined.



Lemma buildRepo_of_unfold v X debDir baseDir repo imageName version local :
  buildRepo_of v X debDir baseDir repo imageName version local =
  buildRepoWith X (mkOpts_of v imageName version local) debDir baseDir repo.
Proof. by destruct v. Qed.

(** X14. When [filepath.Abs] fails for the directory of the unit or for
    the package directory, [buildRepo] ends the process with status 1
    after printing to the standard error; the builder is never called. In
    both variants. *)
Theorem buildRepo_unresolved_path
    v X debDir baseDir repo imageName version local w :
  filepath_Abs X (Join baseDir repo) = None ∨ filepath_Abs X debDir = None →
  ∃ w',
    buildRepo_of v X debDir baseDir repo imageName version local w = Exit 1 w' ∧
    trace w' = trace w ∧ files w' = files w ∧ dirs w' = dirs w.
Proof.
  intros Hbad. rewrite buildRepo_of_unfold.
  unfold buildRepoWith, Println, Fprintln, Fprint, resolvePath, os_Exit.
  run_monad.
  destruct w as [so se con pi qu di fi st tr]. simpl.
  destruct (filepath_Abs X (Join baseDir repo)) as [src|] eqn:Hsrc.
  - destruct Hbad as [?|Hdst]; [done|]. rewrite Hdst.
    destruct so, se; simpl; by eexists.
  - destruct so, se; simpl; by eexists.
Qed.

Lemma buildRepo_unresolved_path_witness :
  let X := mkExternals (TrimSpace demo.X) (dependency_Parse demo.X)
             (λ p, if bool_decide (p = ["pkg"]) then None else Some ("work" :: p))
             (bpkg demo.X) (mapRange demo.X) (mapRange_perm demo.X)
             (cloning demo.X) (interrupt demo.X) in
  let w := demo.world in
  (filepath_Abs X (Join ["src"] "a") = None ∨ filepath_Abs X ["pkg"] = None) ∧
  ∃ w',
    buildRepo_of main_go X ["pkg"] ["src"] "a" "" "latest" false w = Exit 1 w' ∧
    trace w' = trace w ∧ files w' = files w ∧ dirs w' = dirs w.
Proof.
  intros X w.
  assert (filepath_Abs X (Join ["src"] "a") = None ∨ filepath_Abs X ["pkg"] = None)
    as Hbad by (right; reflexivity).
  split; [exact Hbad|].
  exact (buildRepo_unresolved_path main_go X ["pkg"] ["src"] "a" "" "latest"
           false w Hbad).
Defined.

(** The text of an [errList] is the lines of its elements. *)
Lemma Error_errList l : Error (errList l) = cat (logLine <$> l).
Proof.
  induction l as [|e l IH]; [done|].
  change (Error (errList (e :: l)))
    with (Error e +:+ "
" +:+ Error (errList l)).
  rewrite IH. unfold cat, logLine. simpl. by rewrite sapp_assoc.
Qed.

(** X15. When [buildRepos] returns after a run of every unit, the failure
    log and the returned error say the same: written from the start of the
    log is the text of the error, nothing when the result is [nil]. In
    [Part000], whose log is emptied first, the log is that text. *)
Theorem failure_log_is_text_of_result
    v X repos logDir debDir baseDir imageName version local w :
  interrupt X = None →
  canRun X logDir debDir baseDir repos w →
  let old := if bool_decide (O_TRUNC ∈ flags_of v) then ""
             else default "" (files w !! failureLog logDir) in
  ∃ result w',
    buildRepos_of v X repos logDir debDir baseDir imageName version local w
      = Ret result w' ∧
    files w' !! failureLog logDir
      = Some (pwrite old 0 (from_option Error "" result)) ∧
    (v = part_000 →
     files w' !! failureLog logDir = Some (from_option Error "" result)).
Proof.
  intros Hint Hcan old.
  destruct (buildRepos_runs (flags_of v) X (mkOpts_of v imageName version local)
              logDir debDir baseDir repos w (flags_of_create v) Hint Hcan)
    as (w' & Hrun & _ & Hlog & _ & _).
  fold old in Hlog. rewrite buildRepos_of_unfold.
  eexists _, w'. split; [exact Hrun|].
  set (failures := omap _ repos) in *.
  assert (from_option Error "" (match failures with
                                | [] => None
                                | _ :: _ => Some (errList failures)
                                end) = cat (logLine <$> failures)) as ->.
  { destruct failures as [|e l] eqn:Hf; [done|].
    exact (Error_errList (e :: l)). }
  split; [done|]. intros ->. rewrite Hlog. unfold old. simpl.
  by rewrite pwrite_empty.
Qed.

Lemma failure_log_is_text_of_result_witness :
  let X := demo.X in
  let w := demo.world in
  interrupt X = None ∧
  canRun X ["log"] ["pkg"] ["src"] ["a"; "broken"; "z"] w ∧
  ∃ result w',
    buildRepos_of part_000 X ["a"; "broken"; "z"] ["log"] ["pkg"] ["src"]
      "image" "latest" false w = Ret result w' ∧
    files w' !! failureLog ["log"]
      = Some (pwrite "" 0 (from_option Error "" result)) ∧
    (part_000 = part_000 →
     files w' !! failureLog ["log"] = Some (from_option Error "" result)).
Proof.
  intros X w. split; [reflexivity|]. split; [exact canRun_demo|].
  exact (failure_log_is_text_of_result part_000 X ["a"; "broken"; "z"] ["log"]
           ["pkg"] ["src"] "image" "latest" false w eq_refl canRun_demo).
Defined.

(** The error of [os.Pipe]. *)
Lemma os_Pipe_none w :
  pipe_quota w = 0 → os_Pipe w = Ret (inl (Errorf "pipe: too many open files")) w.
Proof. intros H. unfold os_Pipe. by rewrite H. Qed.

Lemma teeAndEvalWith_without_pipe flags logdir repo fn w :
  pipe_quota w = 0 →
  teeAndEvalWith flags logdir repo fn w
  = Ret (Some (Errorf "pipe: too many open files")) w.
Proof.
  intros Hq. unfold teeAndEvalWith.
  unfold mbind at 1, M_bind at 1, bind at 1, get.
  by rewrite (bind_Ret _ _ _ _ _ (os_Pipe_none w Hq)).
Qed.

(** The loop of the worker when the system grants no pipe. *)
Lemma worker_without_pipes flags logDir (fn : string → M (option error)) repos :
  ∀ w buildErrs logf,
  pipe_quota w = 0 → hpath logf = failureLog logDir →
  ∃ w' logf',
    worker (λ repo, teeAndEvalWith flags logDir repo (fn repo)) repos buildErrs logf w
      = Ret (buildErrs ++ replicate (length repos)
                            (Errorf "pipe: too many open files"), logf') w' ∧
    trace w' = trace w ∧ console w' = console w ∧ dirs w' = dirs w ∧
    os_Stdout w' = os_Stdout w ∧ os_Stderr w' = os_Stderr w ∧
    ∀ p, p ≠ failureLog logDir → files w' !! p = files w !! p.
Proof.
  induction repos as [|repo repos IH]; intros w buildErrs logf Hq Hlogf.
  - exists w, logf. simpl. by rewrite app_nil_r.
  - cbn [worker].
    rewrite (bind_Ret _ _ _ _ _
               (teeAndEvalWith_without_pipe flags logDir repo (fn repo) w Hq)).
    cbv beta iota.
    set (e := Errorf "pipe: too many open files").
    set (w1 := world_of (Write logf (Error e +:+ "
") w)).
    assert (Write logf (Error e +:+ "
") w = Ret (mkHandle (hpath logf) (hpos logf + String.length (Error e +:+ "
"))) w1) as Hw by done.
    rewrite (bind_Ret _ _ _ _ _ Hw). cbv beta.
    destruct (IH w1 (buildErrs ++ [e])
                (mkHandle (hpath logf) (hpos logf + String.length (Error e +:+ "
"))))
      as (w' & logf' & Hrun & Ht & Hc & Hd & Hso & Hse & Hf).
    { unfold w1. by destruct w. }
    { done. }
    exists w', logf'. rewrite Hrun, <- app_assoc. simpl.
    split; [done|]. unfold w1 in *. destruct w; simpl in *.
    repeat (split; [done|]). intros p Hp. rewrite (Hf p Hp).
    rewrite Hlogf. by rewrite lookup_insert_ne.
Qed.

(** X16. When the system grants no pipe, [teeAndEval] returns the error of
    [os.Pipe] without running [fn], and a run of [buildRepos] goes through
    the whole order without building anything: every unit is reported with
    that error, the builder is never called, no log of a unit is written
    and the console only gets the closing line. In both variants. *)
Theorem buildRepos_without_pipes
    v X repos logDir debDir baseDir imageName version local w :
  interrupt X = None →
  pipe_quota w = 0 → logDir ∈ dirs w → failureLog logDir ∉ dirs w →
  let e := Errorf "pipe: too many open files" in
  (∀ repo fn, teeAndEval_of v logDir repo fn w = Ret (Some e) w) ∧
  ∃ w',
    buildRepos_of v X repos logDir debDir baseDir imageName version local w
      = Ret (match repos with
             | [] => None
             | _ :: _ => Some (errList (replicate (length repos) e))
             end) w' ∧
    trace w' = trace w ∧
    (∀ p, p ≠ failureLog logDir → files w' !! p = files w !! p) ∧
    ∀ n, os_Stdout w = Fd n → console w' = console w +:+ "finished builds
".
Proof.
  intros Hint Hq Hdir Hflog e. split.
  { intros repo fn. rewrite teeAndEval_of_unfold.
    by apply teeAndEvalWith_without_pipe. }
  rewrite buildRepos_of_unfold. unfold buildReposWith. rewrite Hint.
  pose proof (os_OpenFile_ok logDir "failed-builds.log" (flags_of v) w
                (flags_of_create v) Hdir Hflog) as Hopen.
  fold (failureLog logDir) in Hopen.
  set (w0 := match files w !! failureLog logDir with
             | Some _ => if bool_decide (O_TRUNC ∈ flags_of v)
                         then set_files (<[failureLog logDir := ""]> (files w)) w
                         else w
             | None => set_files (<[failureLog logDir := ""]> (files w)) w
             end) in *.
  rewrite (bind_Ret _ _ _ _ _ Hopen). cbv beta iota.
  assert (pipe_quota w0 = 0 ∧ trace w0 = trace w ∧ console w0 = console w ∧
          os_Stdout w0 = os_Stdout w ∧
          ∀ p, p ≠ failureLog logDir → files w0 !! p = files w !! p)
    as (Hq0 & Ht0 & Hc0 & Hso0 & Hf0).
  { unfold w0. destruct (files w !! failureLog logDir);
      [destruct (bool_decide (O_TRUNC ∈ flags_of v))|];
      destruct w; simpl in *; repeat (split; [done|]); try done;
      intros p Hp; by rewrite lookup_insert_ne. }
  destruct (worker_without_pipes (flags_of v) logDir
              (buildRepoWith X (mkOpts_of v imageName version local) debDir baseDir)
              repos w0 [] (mkHandle (failureLog logDir) 0) Hq0 eq_refl)
    as (w1 & logf' & Hrun & Ht & Hc & _ & Hso & _ & Hf).
  unfold unitCall. rewrite (bind_Ret _ _ _ _ _ Hrun). cbv beta.
  unfold Println, Fprintln, Fprint. run_monad.
  exists (world_of (Fprint (os_Stdout w1) "finished builds
" w1)).
  unfold Fprint. run_monad.
  destruct repos as [|repo repos]; simpl;
    (split; [by destruct (os_Stdout w1)|]);
    (split; [destruct (os_Stdout w1), w1; simpl in *; congruence|]);
    (split; [intros p Hp; rewrite <- (Hf0 p Hp), <- (Hf p Hp);
             by destruct (os_Stdout w1), w1|]);
    intros n Hn; rewrite Hso, Hso0, Hn; simpl; congruence.
Qed.

Lemma buildRepos_without_pipes_witness :
  let X := demo.X in
  let w := set_pipe_quota 0 demo.world in
  let e := Errorf "pipe: too many open files" in
  interrupt X = None ∧ pipe_quota w = 0 ∧
  ["log"] ∈ dirs w ∧ (failureLog ["log"] ∉ dirs w) ∧
  (∀ repo fn, teeAndEval_of main_go ["log"] repo fn w = Ret (Some e) w) ∧
  ∃ w',
    buildRepos_of main_go X ["a"; "z"] ["log"] ["pkg"] ["src"] "" "latest" false w
      = Ret (Some (errList [e; e])) w' ∧
    trace w' = trace w ∧
    (∀ p, p ≠ failureLog ["log"] → files w' !! p = files w !! p) ∧
    ∀ n, os_Stdout w = Fd n → console w' = console w +:+ "finished builds
".
Proof.
  intros X w e.
  assert (["log"] ∈ dirs w) as Hdir.
  { apply (bool_decide_unpack _). vm_compute. exact I. }
  assert (failureLog ["log"] ∉ dirs w) as Hflog.
  { apply (bool_decide_eq_false_1 _). vm_compute. reflexivity. }
  split; [reflexivity|]. split; [reflexivity|]. split; [exact Hdir|].
  split; [exact Hflog|].
  exact (buildRepos_without_pipes main_go X ["a"; "z"] ["log"] ["pkg"] ["src"]
           "" "latest" false w eq_refl eq_refl Hdir Hflog).
Defined.

(** ** Runs with the standard streams on pipes *)

Lemma quiet_ret {A} (a : A) : quiet (mret a : M A).
Proof. by intros w Hp. Qed.

Lemma quiet_bind {A B} (m : M A) (k : A → M B) :
  quiet m → (∀ a, quiet (k a)) → quiet (m ≫= k).
Proof.
  intros Hm Hk w Hp. unfold mbind, M_bind, bind.
  destruct (Hm w Hp) as [H1 H2].
  destruct (m w) as [a w1|c w1|e w1]; simpl in *; [|done..].
  destruct (Hk a w1 H1) as [H3 H4]. split; [done|congruence].
Qed.

Lemma quiet_get_bind {A} (k : World → M A) :
  (∀ w0, piped w0 → quiet (k w0)) → quiet (get ≫= k).
Proof. intros Hk w Hp. unfold mbind, M_bind, bind, get. by apply Hk. Qed.

Lemma quiet_modify (f : World → World) :
  (∀ w, piped w → piped (f w) ∧ console (f w) = console w) → quiet (modify f).
Proof. intros Hf w Hp. unfold modify. simpl. by apply Hf. Qed.

Lemma quiet_os_Exit {A} code : quiet (os_Exit code : M A).
Proof. by intros w Hp. Qed.

Lemma quiet_Fprint f s : is_pipe f → quiet (Fprint f s).
Proof.
  intros Hf. apply quiet_modify. intros w Hp.
  destruct f as [n|id]; [done|]. by destruct w.
Qed.

Lemma quiet_Println s : quiet (Println s).
Proof.
  apply quiet_get_bind. intros w0 [Hout _]. by apply quiet_Fprint.
Qed.

Lemma quiet_emit out : quiet (emit out).
Proof.
  induction out as [|chunk out IH]; [apply quiet_ret|].
  simpl. apply quiet_get_bind. intros w0 [Hout _].
  apply quiet_bind; [by apply quiet_Fprint|done].
Qed.

Lemma quiet_resolvePath X p : quiet (resolvePath X p).
Proof.
  unfold resolvePath. destruct (filepath_Abs X p); [apply quiet_ret|].
  apply quiet_get_bind. intros w0 [_ Herr].
  apply quiet_bind; [by apply quiet_Fprint|]. intros _. apply quiet_os_Exit.
Qed.

Lemma quiet_record e : quiet (record e).
Proof. apply quiet_modify. intros w Hp. by destruct w. Qed.

Lemma quiet_runBuilder X repo opts : quiet (runBuilder X repo opts).
Proof.
  unfold runBuilder. apply quiet_bind; [apply quiet_record|]. intros _.
  destruct (bpkg X opts) as [err|out res]; [apply quiet_ret|].
  apply quiet_bind; [apply quiet_record|]. intros _.
  apply quiet_bind; [apply quiet_emit|]. intros _.
  destruct res; apply quiet_ret.
Qed.

Lemma quiet_buildRepoWith X mk debDir baseDir repo :
  quiet (buildRepoWith X mk debDir baseDir repo).
Proof.
  unfold buildRepoWith.
  apply quiet_bind; [apply quiet_Println|]. intros _.
  apply quiet_bind; [apply quiet_resolvePath|]. intros src.
  apply quiet_bind; [apply quiet_resolvePath|]. intros dst.
  apply quiet_bind; [apply quiet_resolvePath|]. intros pref.
  apply quiet_runBuilder.
Qed.

Lemma quiet_os_Pipe : quiet os_Pipe.
Proof.
  intros w Hp. unfold os_Pipe. destruct (pipe_quota w); [done|]. by destruct w.
Qed.

Lemma quiet_os_OpenFile p flags : quiet (os_OpenFile p flags).
Proof.
  intros w Hp. unfold os_OpenFile.
  repeat case_bool_decide; try done;
    destruct (files w !! p); repeat case_bool_decide; try done; by destruct w.
Qed.

Lemma quiet_Write h data : quiet (Write h data).
Proof. intros w Hp. unfold Write. by destruct w. Qed.

Lemma quiet_io_Copy stdout outf outr : is_pipe stdout → quiet (io_Copy stdout outf outr).
Proof.
  intros Hout. unfold io_Copy. apply quiet_get_bind. intros w0 _.
  apply quiet_bind.
  { apply quiet_modify. intros w Hp. by destruct w. }
  intros _. apply quiet_bind; [by apply quiet_Fprint|]. intros _.
  apply quiet_Write.
Qed.

Lemma quiet_set_Stdout f : is_pipe f → quiet (modify (set_Stdout f)).
Proof. intros Hf. apply quiet_modify. intros w [_ Hp]. by destruct w. Qed.

Lemma quiet_set_Stderr f : is_pipe f → quiet (modify (set_Stderr f)).
Proof. intros Hf. apply quiet_modify. intros w [Hp _]. by destruct w. Qed.

(** [teeAndEval] entered with both streams on pipes saves pipes and hands
    pipes back. *)
Lemma quiet_teeAndEvalWith flags logdir repo fn :
  quiet fn → quiet (teeAndEvalWith flags logdir repo fn).
Proof.
  intros Hfn. unfold teeAndEvalWith.
  apply quiet_get_bind. intros w0 [Hout Herr].
  apply quiet_bind; [apply quiet_os_Pipe|]. intros [e|pipe]; [apply quiet_ret|].
  apply quiet_bind; [by apply quiet_set_Stdout|]. intros _.
  apply quiet_bind; [by apply quiet_set_Stderr|]. intros _.
  apply quiet_bind; [apply quiet_os_OpenFile|]. intros [e|outf]; [apply quiet_ret|].
  apply quiet_bind; [done|]. intros rval.
  apply quiet_bind; [by apply quiet_set_Stdout|]. intros _.
  apply quiet_bind; [by apply quiet_set_Stderr|]. intros _.
  apply quiet_bind; [by apply quiet_io_Copy|]. intros _.
  apply quiet_ret.
Qed.

Lemma quiet_worker unit repos :
  (∀ repo, quiet (unit repo)) →
  ∀ buildErrs logf, quiet (worker unit repos buildErrs logf).
Proof.
  intros Hunit. induction repos as [|repo repos IH]; intros buildErrs logf.
  - apply quiet_ret.
  - simpl. apply quiet_bind; [done|]. intros [e|]; [|done].
    apply quiet_bind; [apply quiet_Write|]. intros logf'. done.
Qed.

Lemma quiet_handleError err : quiet (handleError err).
Proof.
  destruct err as [e|]; [|apply quiet_ret]. simpl.
  apply quiet_get_bind. intros w0 [_ Herr].
  apply quiet_bind; [by apply quiet_Fprint|]. intros _. apply quiet_os_Exit.
Qed.

(** [teeAndEval] when the path of the log is a directory. *)
Lemma teeAndEvalWith_log_is_directory flags logdir repo fn w :
  pipe_quota w ≠ 0 → logPath logdir repo ∈ dirs w →
  ∃ w2,
    teeAndEvalWith flags logdir repo fn w
      = Ret (Some (Errorf "open: is a directory")) w2 ∧
    piped w2 ∧ console w2 = console w ∧ trace w2 = trace w.
Proof.
  intros Hq Hdir. unfold teeAndEvalWith, os_Pipe. run_monad.
  destruct (pipe_quota w) as [|q] eqn:Hquota; [done|]. simpl.
  fold (logPath logdir repo). unfold os_OpenFile. simpl.
  rewrite (bool_decide_eq_true_2 _ Hdir). eexists. split; [done|].
  by destruct w.
Qed.

Lemma bind_bind_Ret {A B C} (m : M A) (k1 : A → M B) (k2 : B → M C) w a w1 :
  m w = Ret a w1 → ((m ≫= k1) ≫= k2) w = (k1 a ≫= k2) w1.
Proof. intros H. unfold mbind, M_bind, bind. by rewrite H. Qed.

(** The list of failures of the worker only grows. *)
Lemma worker_extends unit repos :
  ∀ buildErrs logf w l h w',
  worker unit repos buildErrs logf w = Ret (l, h) w' →
  ∃ more, l = buildErrs ++ more.
Proof.
  induction repos as [|repo repos IH]; intros buildErrs logf w l h w'.
  - intros [= <- <- <-]. exists []. by rewrite app_nil_r.
  - cbn [worker]. unfold mbind at 1, M_bind at 1, bind at 1.
    destruct (unit repo w) as [[e|] w1| |]; [| |done..].
    + unfold mbind at 1, M_bind at 1, bind at 1. simpl.
      intros [more ->]%IH. exists (e :: more). by rewrite <- app_assoc.
    + apply IH.
Qed.

(** X17. A run of [buildRepos] from the console in which the log of the
    first unit cannot be opened, its path being a directory: [teeAndEval]
    returns with the standard streams still on its pipe, every later call
    saves that pipe and hands it back, and so nothing of the run reaches
    the console, neither the output of the later units nor the closing
    line, nor the error [main] prints after it; and the run does not
    return [nil]. In both variants. *)
Theorem buildRepos_silent_after_log_failure
    v X repo rest logDir debDir baseDir imageName version local w :
  interrupt X = None →
  logDir ∈ dirs w → failureLog logDir ∉ dirs w → pipe_quota w ≠ 0 →
  logPath logDir repo ∈ dirs w →
  let run :=
    buildRepos_of v X (repo :: rest) logDir debDir baseDir imageName version local in
  console (world_of (run w)) = console w ∧
  piped (world_of (run w)) ∧
  console (world_of ((run ≫= handleError) w)) = console w ∧
  ∀ w', run w ≠ Ret None w'.
Proof.
  intros Hint Hdir Hflog Hq Hlog run.
  assert (∃ w2 (K : M (option error)),
            piped w2 ∧ console w2 = console w ∧ quiet K ∧ run w = K w2 ∧
            ∀ w', K w2 ≠ Ret None w') as (w2 & K & Hp & Hc & HK & Hrun & Hnil).
  { unfold run. rewrite buildRepos_of_unfold. unfold buildReposWith. rewrite Hint.
    pose proof (os_OpenFile_ok logDir "failed-builds.log" (flags_of v) w
                  (flags_of_create v) Hdir Hflog) as Hopen.
    fold (failureLog logDir) in Hopen.
    set (w0 := match files w !! failureLog logDir with
               | Some _ => if bool_decide (O_TRUNC ∈ flags_of v)
                           then set_files (<[failureLog logDir := ""]> (files w)) w
                           else w
               | None => set_files (<[failureLog logDir := ""]> (files w)) w
               end) in *.
    rewrite (bind_Ret _ _ _ _ _ Hopen). cbv beta iota.
    assert (pipe_quota w0 = pipe_quota w ∧ dirs w0 = dirs w ∧
            console w0 = console w) as (Hq0 & Hd0 & Hc0).
    { unfold w0. destruct (files w !! failureLog logDir);
        [destruct (bool_decide (O_TRUNC ∈ flags_of v))|]; by destruct w. }
    set (mk := mkOpts_of v imageName version local).
    destruct (teeAndEvalWith_log_is_directory (flags_of v) logDir repo
                (buildRepoWith X mk debDir baseDir repo) w0)
      as (w2 & Hunit & Hp & Hc & _); [by rewrite Hq0|by rewrite Hd0|].
    set (e := Errorf "open: is a directory") in *.
    set (unit := unitCall (flags_of v) X mk logDir debDir baseDir).
    set (logf := mkHandle (failureLog logDir) 0).
    exists w2,
      (r ← (logf' ← Write logf (Error e +:+ "
"); worker unit rest ([] ++ [e]) logf');
       Println "finished builds";;
       match r.1 with
       | [] => mret None
       | _ :: _ => mret (Some (errList r.1))
       end).
    split; [done|]. split; [congruence|]. split; [|split].
    - apply quiet_bind.
      + apply quiet_bind; [apply quiet_Write|]. intros logf'.
        apply quiet_worker. intros r. unfold unit, unitCall.
        apply quiet_teeAndEvalWith, quiet_buildRepoWith.
      + intros r. apply quiet_bind; [apply quiet_Println|]. intros _.
        destruct (r.1); apply quiet_ret.
    - cbn [worker]. exact (bind_bind_Ret _ _ _ _ _ _ Hunit).
    - intros w'. unfold mbind at 1, M_bind at 1, bind at 1.
      destruct ((logf' ← Write logf (Error e +:+ "
"); worker unit rest ([] ++ [e]) logf') w2) as [[l h] w3| |] eqn:Hw; [|done..].
      unfold mbind, M_bind, bind in Hw. simpl in Hw.
      apply worker_extends in Hw as [more ->]. simpl.
      unfold mbind, M_bind, bind.
      by destruct (Println "finished builds" w3). }
  destruct (HK w2 Hp) as [Hp' Hc'].
  split; [rewrite Hrun; congruence|]. split; [by rewrite Hrun|].
  split; [|intros w'; by rewrite Hrun].
  assert (quiet (K ≫= handleError)) as HKh.
  { apply quiet_bind; [done|]. apply quiet_handleError. }
  destruct (HKh w2 Hp) as [_ Hc''].
  unfold mbind, M_bind, bind in *. rewrite Hrun. congruence.
Qed.

(** The log of the first unit is a directory; the second unit builds. *)
Lemma buildRepos_silent_after_log_failure_witness :
  let X := demo.X in
  let w := set_dirs ({[ ["log"; "a.log"] ]} ∪ dirs demo.world) demo.world in
  let run := buildRepos_of part_000 X ["a"; "z"] ["log"] ["pkg"] ["src"]
               "image" "latest" false in
  interrupt X = None ∧
  ["log"] ∈ dirs w ∧ (failureLog ["log"] ∉ dirs w) ∧ pipe_quota w ≠ 0 ∧
  logPath ["log"] "a" ∈ dirs w ∧
  trace (world_of (run w))
  = unitEvents (unitOpts X (mkOpts_of part_000 "image" "latest" false)
                  ["pkg"] ["src"] "z")
      (unitRun X (mkOpts_of part_000 "image" "latest" false) ["pkg"] ["src"] "z") ∧
  console (world_of (run w)) = console w ∧
  piped (world_of (run w)) ∧
  console (world_of ((run ≫= handleError) w)) = console w ∧
  ∀ w', run w ≠ Ret None w'.
Proof.
  intros X w run.
  assert (["log"] ∈ dirs w) as Hdir.
  { apply (bool_decide_unpack _). vm_compute. exact I. }
  assert (failureLog ["log"] ∉ dirs w) as Hflog.
  { apply (bool_decide_eq_false_1 _). vm_compute. reflexivity. }
  assert (pipe_quota w ≠ 0) as Hq by (simpl; lia).
  assert (logPath ["log"] "a" ∈ dirs w) as Hlog.
  { apply (bool_decide_unpack _). vm_compute. exact I. }
  split; [reflexivity|]. split; [exact Hdir|]. split; [exact Hflog|].
  split; [exact Hq|]. split; [exact Hlog|].
  split; [vm_compute; reflexivity|].
  exact (buildRepos_silent_after_log_failure part_000 X "a" ["z"] ["log"] ["pkg"]
           ["src"] "image" "latest" false w eq_refl Hdir Hflog Hq Hlog).
Defined.

(** ** The logs of the units and the console *)

Lemma sapp_inj_r s t u : s +:+ u = t +:+ u → s = t.
Proof.
  revert t. induction s as [|a s IH]; intros [|b t] H.
  - done.
  - apply (f_equal String.length) in H. rewrite sapp_nil_l, sapp_cons in H.
    simpl in H. rewrite slength_app in H. lia.
  - apply (f_equal String.length) in H. rewrite sapp_nil_l, sapp_cons in H.
    simpl in H. rewrite slength_app in H. lia.
  - rewrite !sapp_cons in H. injection H as -> H. f_equal. by apply IH.
Qed.

(** Two units have two logs. *)
Lemma logPath_inj logDir r r' : logPath logDir r = logPath logDir r' → r = r'.
Proof.
  unfold logPath, Join. intros H%app_inv_head. injection H as H.
  by apply sapp_inj_r in H.
Qed.

(** The log of the unit and the console after [teeAndEval]. *)
Lemma afterUnit_output flags logdir repo data evs w :
  let w' := afterUnit flags logdir repo data evs w in
  files w' !! logPath logdir repo
  = Some (pwrite (if bool_decide (O_TRUNC ∈ flags) then ""
                  else default "" (files w !! logPath logdir repo)) 0 data) ∧
  ∀ n, os_Stdout w = Fd n → console w' = console w +:+ data.
Proof.
  unfold afterUnit. destruct w as [so se con pi qu di fi st tr]. simpl.
  destruct so as [n|k]; simpl; (split; [by rewrite lookup_insert_eq|]);
    by intros n' [= <-].
Qed.

(** The loop of the worker over distinct units, run from the console. *)
Lemma worker_outputs flags X mk logDir debDir baseDir repos :
  O_CREATE ∈ flags → NoDup repos →
  ∀ w buildErrs logf n,
  canRun X logDir debDir baseDir repos w →
  hpath logf = failureLog logDir →
  os_Stdout w = Fd n →
  let out := λ repo, unitOutput repo (unitRun X mk debDir baseDir repo) in
  ∃ r w',
    worker (unitCall flags X mk logDir debDir baseDir) repos buildErrs logf w
      = Ret r w' ∧
    os_Stdout w' = Fd n ∧
    console w' = console w +:+ cat (out <$> repos) ∧
    (∀ repo, repo ∈ repos →
       files w' !! logPath logDir repo
       = Some (pwrite (if bool_decide (O_TRUNC ∈ flags) then ""
                       else default "" (files w !! logPath logDir repo))
                 0 (out repo))) ∧
    ∀ p, p ≠ failureLog logDir →
         (∀ repo, repo ∈ repos → p ≠ logPath logDir repo) →
         files w' !! p = files w !! p.
Proof.
  intros Hcreate Hnd. induction Hnd as [|repo repos Hnotin Hnd IH];
    intros w buildErrs logf n Hcan Hpath Hout out.
  - exists (buildErrs, logf), w. simpl. unfold cat. simpl.
    rewrite sapp_nil_r. repeat split; try done.
    intros repo Hin. by apply not_elem_of_nil in Hin.
  - destruct Hcan as (Hdir & Hflog & Hquota & [dst Hdst] & Hall).
    destruct (Hall repo) as (Hlog & Hne & [src Hsrc]); [left|].
    simpl in Hquota.
    pose proof (teeAndEval_runs flags X mk logDir debDir baseDir repo w src dst
                  Hcreate ltac:(lia) Hdir Hlog Hsrc Hdst) as Hunit.
    simpl in Hunit.
    assert (unitOpts X mk debDir baseDir repo = mk src dst dst) as Hopts.
    { unfold unitOpts. by rewrite Hsrc, Hdst. }
    rewrite <- Hopts in Hunit. fold (unitRun X mk debDir baseDir repo) in Hunit.
    set (run := unitRun X mk debDir baseDir repo) in *.
    set (w1 := afterUnit flags logDir repo (unitOutput repo run)
                 (unitEvents (unitOpts X mk debDir baseDir repo) run) w) in *.
    destruct (afterUnit_frame flags logDir repo (unitOutput repo run)
                (unitEvents (unitOpts X mk debDir baseDir repo) run) w)
      as (Hso & _ & Hd & Hq & _ & _ & _ & Hother).
    destruct (afterUnit_output flags logDir repo (unitOutput repo run)
                (unitEvents (unitOpts X mk debDir baseDir repo) run) w)
      as (Hmade & Hcons).
    fold w1 in Hso, Hd, Hq, Hother, Hmade, Hcons.
    specialize (Hcons n Hout).
    assert (∃ errs2 logf2 w2,
              worker (unitCall flags X mk logDir debDir baseDir) (repo :: repos)
                buildErrs logf w
              = worker (unitCall flags X mk logDir debDir baseDir) repos
                  errs2 logf2 w2 ∧
              hpath logf2 = failureLog logDir ∧
              os_Stdout w2 = os_Stdout w1 ∧ console w2 = console w1 ∧
              dirs w2 = dirs w1 ∧ pipe_quota w2 = pipe_quota w1 ∧
              ∀ p, p ≠ failureLog logDir → files w2 !! p = files w1 !! p)
      as (errs2 & logf2 & w2 & Hstep & Hpath2 & Hso2 & Hc2 & Hd2 & Hq2 & Hf2).
    { cbn [worker].
      rewrite (bind_Ret (unitCall flags X mk logDir debDir baseDir repo) _ _ _ _ Hunit).
      cbv beta. destruct (unitFailure repo run) as [e|].
      - eexists _, _, (world_of (Write logf (Error e +:+ "
") w1)).
        split; [reflexivity|]. destruct w1; simpl in *.
        repeat (split; [done|]). intros p Hp. rewrite Hpath.
        by rewrite lookup_insert_ne.
      - by exists buildErrs, logf, w1. }
    destruct (IH w2 errs2 logf2 n) as (r & w' & Hrun & Hso' & Hc' & Hlogs & Hrest).
    { unfold canRun. rewrite Hd2, Hq2, Hd, Hq.
      repeat split; try done; try lia; try (by eexists); apply Hall; by right. }
    { done. }
    { congruence. }
    exists r, w'. rewrite Hstep. split; [done|]. split; [done|].
    split; [|split].
    + rewrite Hc', Hc2, Hcons. rewrite fmap_cons.
      change (cat (out repo :: (out <$> repos)))
        with (out repo +:+ cat (out <$> repos)).
      by rewrite sapp_assoc.
    + intros r0 [->|Hr0]%elem_of_cons.
      * rewrite Hrest; [|by apply not_eq_sym|].
        -- by rewrite Hf2 by (by apply not_eq_sym).
        -- intros r' Hr' Heq%logPath_inj. by subst.
      * rewrite (Hlogs r0 Hr0).
        assert (logPath logDir r0 ≠ logPath logDir repo) as Hdiff.
        { intros Heq%logPath_inj. by subst. }
        destruct (Hall r0) as (_ & Hne0 & _); [by right|].
        by rewrite Hf2, Hother.
    + intros p Hp Hnot. rewrite Hrest; [|done|].
      * rewrite Hf2 by done. apply Hother, Hnot. by left.
      * intros r' Hr'. apply Hnot. by right.
Qed.

(** X18. A run of [buildRepos] over distinct units, from the console, in a
    world where every unit can be run and with no interrupt: the console
    gets the output of the units in the order of the run, then the closing
    line; the log of each unit holds the output of that unit, written from
    the start of the log ([Part000] empties the log first); and no file
    but these logs and the failure log is touched. In both variants. *)
Theorem buildRepos_logs_and_console
    v X repos logDir debDir baseDir imageName version local w n :
  interrupt X = None →
  canRun X logDir debDir baseDir repos w →
  NoDup repos →
  os_Stdout w = Fd n →
  let mk := mkOpts_of v imageName version local in
  let out := λ repo, unitOutput repo (unitRun X mk debDir baseDir repo) in
  ∃ result w',
    buildRepos_of v X repos logDir debDir baseDir imageName version local w
      = Ret result w' ∧
    console w' = console w +:+ cat (out <$> repos) +:+ "finished builds
" ∧
    (∀ repo, repo ∈ repos →
       files w' !! logPath logDir repo
       = Some (pwrite (if bool_decide (O_TRUNC ∈ flags_of v) then ""
                       else default "" (files w !! logPath logDir repo))
                 0 (out repo))) ∧
    ∀ p, p ≠ failureLog logDir →
         (∀ repo, repo ∈ repos → p ≠ logPath logDir repo) →
         files w' !! p = files w !! p.
Proof.
  intros Hint Hcan Hnd Hout mk out.
  pose proof Hcan as (Hdir & Hflog & Hquota & Hdst & Hall).
  rewrite buildRepos_of_unfold. unfold buildReposWith. rewrite Hint.
  pose proof (os_OpenFile_ok logDir "failed-builds.log" (flags_of v) w
                (flags_of_create v) Hdir Hflog) as Hopen.
  fold (failureLog logDir) in Hopen.
  set (w0 := match files w !! failureLog logDir with
             | Some _ => if bool_decide (O_TRUNC ∈ flags_of v)
                         then set_files (<[failureLog logDir := ""]> (files w)) w
                         else w
             | None => set_files (<[failureLog logDir := ""]> (files w)) w
             end) in *.
  rewrite (bind_Ret _ _ _ _ _ Hopen). cbv beta iota.
  assert (dirs w0 = dirs w ∧ pipe_quota w0 = pipe_quota w ∧
          console w0 = console w ∧ os_Stdout w0 = os_Stdout w ∧
          ∀ p, p ≠ failureLog logDir → files w0 !! p = files w !! p)
    as (Hd0 & Hq0 & Hc0 & Hso0 & Hf0).
  { unfold w0. destruct (files w !! failureLog logDir);
      [destruct (bool_decide (O_TRUNC ∈ flags_of v))|];
      destruct w; simpl in *; repeat (split; [done|]); try done;
      intros p Hp; by rewrite lookup_insert_ne. }
  destruct (worker_outputs (flags_of v) X mk logDir debDir baseDir repos
              (flags_of_create v) Hnd w0 [] (mkHandle (failureLog logDir) 0) n)
    as (r & w1 & Hrun & Hso1 & Hc1 & Hlogs & Hrest).
  { unfold canRun. by rewrite Hd0, Hq0. }
  { done. }
  { congruence. }
  fold mk. rewrite (bind_Ret _ _ _ _ _ Hrun). cbv beta.
  unfold Println, Fprintln, Fprint. run_monad. rewrite Hso1.
  exists (match r.1 with [] => None | _ :: _ => Some (errList r.1) end),
         (set_console (console w1 +:+ "finished builds
") w1).
  split; [by destruct (r.1)|].
  simpl. split; [|split].
  - rewrite Hc1, Hc0. fold out. by rewrite sapp_assoc.
  - intros repo Hin. destruct (Hall repo Hin) as (_ & Hne & _).
    rewrite (Hlogs repo Hin). by rewrite Hf0.
  - intros p Hp Hnot. rewrite (Hrest p Hp Hnot). by apply Hf0.
Qed.

Lemma buildRepos_logs_and_console_witness :
  let X := demo.X in
  let w := demo.world in
  let repos := ["a"; "broken"; "z"] in
  let mk := mkOpts_of part_000 "image" "latest" false in
  let out := λ repo, unitOutput repo (unitRun X mk ["pkg"] ["src"] repo) in
  interrupt X = None ∧
  canRun X ["log"] ["pkg"] ["src"] repos w ∧
  NoDup repos ∧
  os_Stdout w = Fd 1 ∧
  out "broken" = "Building broken
compiling
" ∧
  ∃ result w',
    buildRepos_of part_000 X repos ["log"] ["pkg"] ["src"] "image" "latest" false w
      = Ret result w' ∧
    console w' = console w +:+ cat (out <$> repos) +:+ "finished builds
" ∧
    (∀ repo, repo ∈ repos →
       files w' !! logPath ["log"] repo
       = Some (pwrite (if bool_decide (O_TRUNC ∈ flags_of part_000) then ""
                       else default "" (files w !! logPath ["log"] repo))
                 0 (out repo))) ∧
    ∀ p, p ≠ failureLog ["log"] →
         (∀ repo, repo ∈ repos → p ≠ logPath ["log"] repo) →
         files w' !! p = files w !! p.
Proof.
  intros X w repos mk out.
  assert (NoDup repos) as Hnd.
  { apply (bool_decide_unpack _). vm_compute. exact I. }
  split; [reflexivity|]. split; [exact canRun_demo|]. split; [exact Hnd|].
  split; [reflexivity|]. split; [vm_compute; reflexivity|].
  exact (buildRepos_logs_and_console part_000 X repos ["log"] ["pkg"] ["src"]
           "image" "latest" false w 1 eq_refl canRun_demo Hnd eq_refl).
Defined.

(** ** [main] with [-build] *)

Lemma elem_of_prefixes_self (p : path) : p ≠ [] → p ∈ prefixes p.
Proof.
  intros Hp. unfold prefixes. apply list_elem_of_fmap.
  exists (length p). split; [by rewrite firstn_all|].
  apply elem_of_seq. destruct p; [done|]. simpl. lia.
Qed.

Lemma prefixes_length (p q : path) : q ∈ prefixes p → length q ≤ length p.
Proof.
  unfold prefixes. intros (n & -> & _)%list_elem_of_fmap.
  rewrite length_take. lia.
Qed.

Lemma Join_not_prefix (dir : path) name : Join dir name ∉ prefixes dir.
Proof.
  intros H%prefixes_length. unfold Join in H. rewrite length_app in H.
  simpl in H. lia.
Qed.

(** After the order is printed and the log directory is made, every unit
    can be run. *)
Lemma canRun_after_MkdirAll X logDir debDir baseDir repos order w :
  canStart X logDir debDir baseDir repos w →
  ∃ w1,
    (printBuildOrder order;; os_MkdirAll logDir) w = Ret None w1 ∧
    canRun X logDir debDir baseDir repos w1 ∧
    trace w1 = trace w.
Proof.
  intros (Hne & Hfiles & Hflog & Hquota & Hdst & Hall).
  unfold printBuildOrder, os_MkdirAll, Fprint. run_monad.
  assert (∀ name, Join logDir name ∉ dirs w →
            Join logDir name ∉ list_to_set (prefixes logDir) ∪ dirs w) as Hjoin.
  { intros name Hn [Hin%elem_of_list_to_set|Hin]%elem_of_union; [|done].
    by apply Join_not_prefix in Hin. }
  destruct w as [so se con pi qu di fi st tr]. simpl in *.
  destruct so as [n|k]; simpl; rewrite (bool_decide_eq_false_2 _ Hfiles);
    eexists; (split; [reflexivity|]); (split; [|done]); unfold canRun; simpl;
    (split; [apply elem_of_union; left; apply elem_of_list_to_set;
             by apply elem_of_prefixes_self|]);
    (split; [by apply Hjoin|]); (split; [done|]); (split; [done|]);
    intros repo Hin; destruct (Hall repo Hin) as (H1 & H2 & H3);
    (split; [by apply Hjoin|done]).
Qed.

Lemma main_of_build_run X c w dir order :
  clone_of c = false → build_of c = true →
  srcTree w !! srcDir_of c = Some dir →
  determineBuildOrder_of (variant_of c) X
    (foldl (visitEntry_of (variant_of c) X) noRepos dir) = Returns order →
  main_of X c w =
  (err ← (printBuildOrder order;; os_MkdirAll (logDir_of c));
   handleError err;;
   err ← buildRepos_of (variant_of c) X order (logDir_of c) (pkgDir_of c)
           (srcDir_of c) (imageName_of c) (version_of c) (local_of c);
   handleError err) w.
Proof.
  intros Hclone Hbuild Hdir Horder.
  rewrite (main_of_build X c w dir order Hclone Hbuild Hdir Horder).
  unfold printBuildOrder. destruct c; reflexivity.
Qed.

(** X19. [main] with [-build] and without [-clone], no interrupt, in a
    world where the source directory can be read, the order resolves, the
    log directory can be made and every unit can be run: the builder is
    called for every unit of the order, in order; then [main] returns when
    no unit failed and ends the process with status 1 when one did. In
    both variants. *)
Theorem main_build_exit_status X c w dir order :
  clone_of c = false → build_of c = true →
  srcTree w !! srcDir_of c = Some dir →
  determineBuildOrder_of (variant_of c) X
    (foldl (visitEntry_of (variant_of c) X) noRepos dir) = Returns order →
  interrupt X = None →
  canStart X (logDir_of c) (pkgDir_of c) (srcDir_of c) order w →
  let mk := mkOpts_of (variant_of c) (imageName_of c) (version_of c) (local_of c) in
  let run := unitRun X mk (pkgDir_of c) (srcDir_of c) in
  let failures := omap (λ repo, unitFailure repo (run repo)) order in
  ∃ w',
    main_of X c w = match failures with
                    | [] => Ret tt w'
                    | _ :: _ => Exit 1 w'
                    end ∧
    trace w' = trace w ++
      mjoin ((λ repo, unitEvents (unitOpts X mk (pkgDir_of c) (srcDir_of c) repo)
                        (run repo)) <$> order) ∧
    logDir_of c ∈ dirs w' ∧
    is_Some (files w' !! failureLog (logDir_of c)).
Proof.
  intros Hclone Hbuild Hdir Horder Hint Hstart mk run failures.
  rewrite (main_of_build_run X c w dir order Hclone Hbuild Hdir Horder).
  destruct (canRun_after_MkdirAll X _ _ _ _ order w Hstart)
    as (w1 & Hmk & Hcan & Htr1).
  rewrite (bind_Ret _ _ _ _ _ Hmk). cbv beta.
  unfold handleError at 1.
  unfold mbind at 1, M_bind at 1, bind at 1. simpl.
  destruct (buildRepos_runs (flags_of (variant_of c)) X mk
              (logDir_of c) (pkgDir_of c) (srcDir_of c) order w1
              (flags_of_create _) Hint Hcan)
    as (w2 & Hrun & Htr & Hlog & _ & Hd).
  fold run in Hrun, Htr. fold failures in Hrun, Hlog.
  rewrite buildRepos_of_unfold. fold mk.
  rewrite (bind_Ret _ _ _ _ _ Hrun).
  destruct Hcan as (Hdir1 & _).
  destruct failures as [|e l].
  - exists w2. simpl. split; [done|]. split; [by rewrite Htr, Htr1|].
    split; [by rewrite Hd|]. rewrite Hlog. by eexists.
  - exists (world_of (Fprintln (os_Stderr w2) (Error (errList (e :: l))) w2)).
    unfold handleError, Fprintln, Fprint, os_Exit. run_monad.
    destruct (os_Stderr w2), w2; simpl in *;
      (split; [done|]); (split; [by rewrite Htr, Htr1|]);
      (split; [by rewrite Hd|]); rewrite Hlog; by eexists.
Qed.

Lemma canStart_demo :
  canStart demo.X ["logs"; "today"] ["pkg"] ["src"]
    ["base-files"; "lintian-profile-vyatta"; "linux-vyatta"; "b"; "a"]
    demo.world.
Proof.
  unfold canStart. split; [done|]. split; [|split; [|split; [|split]]].
  - apply (bool_decide_eq_false_1 _). vm_compute. reflexivity.
  - apply (bool_decide_eq_false_1 _). vm_compute. reflexivity.
  - simpl. lia.
  - by eexists.
  - intros repo Hin. rewrite !elem_of_cons, elem_of_nil in Hin.
    destruct Hin as [->|[->|[->|[->|[->|[]]]]]];
      (split; [apply (bool_decide_eq_false_1 _); vm_compute; reflexivity|]);
      (split; [apply (bool_decide_eq_false_1 _); vm_compute; reflexivity|]);
      by eexists.
Defined.

(** [Part000.main -build -log logs/today] on the source tree of
    [demo.world]: five units, none fails. *)
Lemma main_build_exit_status_witness :
  let X := demo.X in
  let c := ForPart000
             (Part000.mkFlags false true false ["src"] ["pkg"] ["logs"; "today"]
                "image" "latest" "") in
  let w := demo.world in
  let order :=
    ["base-files"; "lintian-profile-vyatta"; "linux-vyatta"; "b"; "a"] in
  let mk := mkOpts_of (variant_of c) (imageName_of c) (version_of c) (local_of c) in
  let run := unitRun X mk (pkgDir_of c) (srcDir_of c) in
  let failures := omap (λ repo, unitFailure repo (run repo)) order in
  clone_of c = false ∧ build_of c = true ∧
  srcTree w !! srcDir_of c = Some demo.tree ∧
  determineBuildOrder_of (variant_of c) X
    (foldl (visitEntry_of (variant_of c) X) noRepos demo.tree) = Returns order ∧
  interrupt X = None ∧
  canStart X (logDir_of c) (pkgDir_of c) (srcDir_of c) order w ∧
  failures = [] ∧
  ∃ w',
    main_of X c w = match failures with
                    | [] => Ret tt w'
                    | _ :: _ => Exit 1 w'
                    end ∧
    trace w' = trace w ++
      mjoin ((λ repo, unitEvents (unitOpts X mk (pkgDir_of c) (srcDir_of c) repo)
                        (run repo)) <$> order) ∧
    logDir_of c ∈ dirs w' ∧
    is_Some (files w' !! failureLog (logDir_of c)).
Proof.
  intros X c w order mk run failures.
  assert (srcTree w !! srcDir_of c = Some demo.tree) as Hdir
    by (vm_compute; reflexivity).
  assert (determineBuildOrder_of (variant_of c) X
            (foldl (visitEntry_of (variant_of c) X) noRepos demo.tree)
          = Returns order) as Horder by (vm_compute; reflexivity).
  split; [reflexivity|]. split; [reflexivity|]. split; [exact Hdir|].
  split; [exact Horder|]. split; [reflexivity|]. split; [exact canStart_demo|].
  split; [vm_compute; reflexivity|].
  exact (main_build_exit_status X c w demo.tree order eq_refl eq_refl Hdir Horder
           eq_refl canStart_demo).
Defined.

(** * Further properties of [tagIsElementOf] and [cloneRepos] *)

(** X20. [tagIsElementOf] returns [true] exactly when some tag of the set
    has the name and every tag before it has another name: the tags after
    the first match are not looked at, so a tag without a name there does
    no harm. It returns [false] exactly when every tag has a name other
    than the one looked for; over a set in which every tag has a name it
    decides membership. *)
Theorem tagIsElementOf_first_match tag set :
  let other := λ x, ∃ n, Cloning.TagName x = Some n ∧ n ≠ tag in
  (Cloning.tagIsElementOf tag set = Returns true ↔
   ∃ before elem after,
     set = before ++ elem :: after ∧ Cloning.TagName elem = Some tag ∧
     Forall other before) ∧
  (Cloning.tagIsElementOf tag set = Returns false ↔ Forall other set) ∧
  (Forall (λ x, is_Some (Cloning.TagName x)) set →
   Cloning.tagIsElementOf tag set
   = Returns (bool_decide (Some tag ∈ Cloning.TagName <$> set))).
Proof.
  intros other. induction set as [|x set (IHt & IHf & IHm)].
  - split; [|split]; simpl.
    + split; [done|]. intros (before & elem & after & H & _).
      by destruct before.
    + split; [intros _; constructor|done].
    + done.
  - cbn [Cloning.tagIsElementOf]. destruct (Cloning.TagName x) as [n|] eqn:Hx.
    + destruct (decide (tag = n)) as [<-|Hn];
        [rewrite (bool_decide_eq_true_2 (tag = tag)) by done
        |rewrite (bool_decide_eq_false_2 (tag = n)) by done].
      * split; [|split].
        -- split; [|done]. intros _. exists [], x, set. repeat split; [done|].
           constructor.
        -- split; [done|]. intros [(n & Hn & Hne) _]%Forall_cons_1. congruence.
        -- intros _. rewrite bool_decide_eq_true_2; [done|].
           rewrite fmap_cons, Hx. left.
      * assert (other x) as Hother by (exists n; auto).
        split; [|split].
        -- rewrite IHt. split.
           ++ intros (before & elem & after & -> & He & Hb).
              exists (x :: before), elem, after. repeat split; [done|].
              by constructor.
           ++ intros (before & elem & after & Hset & He & Hb).
              destruct before as [|y before]; simpl in Hset.
              ** injection Hset as -> ->. congruence.
              ** injection Hset as -> ->. apply Forall_cons_1 in Hb as [_ Hb].
                 by exists before, elem, after.
        -- rewrite IHf. split; [by constructor|by intros [_ ?]%Forall_cons_1].
        -- intros [_ Hall]%Forall_cons_1. rewrite (IHm Hall). f_equal.
           rewrite fmap_cons, Hx. apply bool_decide_ext.
           rewrite elem_of_cons. split; [auto|]. intros [[= ->]|]; done.
    + split; [|split].
      * split; [done|]. intros (before & elem & after & Hset & He & Hb).
        destruct before as [|y before]; simpl in Hset; injection Hset as -> ->.
        -- congruence.
        -- apply Forall_cons_1 in Hb as [(n & Hn & _) _]. congruence.
      * split; [done|]. intros [(n & Hn & _) _]%Forall_cons_1. congruence.
      * intros [[n Hn] _]%Forall_cons_1. congruence.
Qed.

Section cloning_facts.
Import Cloning.

(** More requests do not change what the listing gives. *)
Lemma listAll_fuel E fuel fuel' page allRepos r :
  listAll E fuel page allRepos = Some r → fuel ≤ fuel' →
  listAll E fuel' page allRepos = Some r.
Proof.
  revert fuel' page allRepos.
  induction fuel as [|fuel IH]; intros fuel' page allRepos; [done|].
  intros H Hle. destruct fuel' as [|fuel']; [lia|]. simpl in *.
  destruct (ListByOrg E page) as [err|[repos next]]; [done|].
  case_bool_decide; [done|]. apply IH; [done|lia].
Qed.

Lemma cloneRepos_of_unfold v E fuel gitRef into :
  cloneRepos_of v E fuel gitRef into =
  listAndClone E fuel (cloneOne_of v E gitRef into)
    (mkProgress (before v E into) []).
Proof. by destruct v. Qed.

Lemma cloneEach_invariant (P : Progress → Prop) one allRepos p p' :
  cloneEach one allRepos p = Returns p' →
  (∀ url name p, P p → P (one url name p)) →
  P p → P p'.
Proof.
  intros Hrun Hone. revert p Hrun.
  induction allRepos as [|repo allRepos IH]; intros p Hrun Hp; simpl in Hrun.
  - by injection Hrun as <-.
  - destruct (archived repo); [by eapply IH|].
    destruct (CloneURL repo) as [url|]; [|done].
    destruct (Name repo) as [name|]; [|done].
    eapply IH; [done|]. by apply Hone.
Qed.

(** A repository the loop can handle: archived, or with a name and a
    URL. *)
Lemma cloneEach_returns one allRepos p :
  (∃ p', cloneEach one allRepos p = Returns p') ↔
  Forall (λ repo, archived repo = false →
                  is_Some (CloneURL repo) ∧ is_Some (Name repo)) allRepos.
Proof.
  revert p. induction allRepos as [|repo allRepos IH]; intros p; simpl.
  - split; [constructor|by eexists].
  - destruct (archived repo) eqn:Harch.
    + rewrite IH. split; [|by intros [_ ?]%Forall_cons_1].
      intros Hall. constructor; [congruence|done].
    + destruct (CloneURL repo) as [url|] eqn:Hurl.
      * destruct (Name repo) as [name|] eqn:Hname.
        -- rewrite IH. split; [|by intros [_ ?]%Forall_cons_1].
           intros Hall. constructor; [|done]. intros _. by split; eexists.
        -- split; [by intros [? ?]|].
           intros [H _]%Forall_cons_1. destruct (H Harch) as [_ [? ?]].
           congruence.
      * split; [by intros [? ?]|].
        intros [H _]%Forall_cons_1. destruct (H Harch) as [[? ?] _].
        congruence.
Qed.

Ltac run_one :=
  unfold Cloning.MainGo.cloneOne, Cloning.Part000.cloneOne, perform, print,
    collect; simpl;
  repeat (match goal with
          | |- context [result ?E ?h ?a] => destruct (result E h a) eqn:?
          end; simpl).

(** The one clone a round of the loop makes. *)
Lemma cloned_cloneOne_of v E gitRef into url name p :
  omap cloned (made (cloneOne_of v E gitRef into url name p))
  = omap cloned (made p) ++ [(url, Join into name)].
Proof.
  destruct v; simpl; run_one;
    rewrite <- ?app_assoc, !omap_app; simpl; by rewrite ?app_nil_r.
Qed.

Lemma cloned_cloneEach v E gitRef into allRepos p p' :
  cloneEach (cloneOne_of v E gitRef into) allRepos p = Returns p' →
  omap cloned (made p') = omap cloned (made p) ++ omap (target into) allRepos.
Proof.
  revert p. induction allRepos as [|repo allRepos IH]; intros p Hrun;
    simpl in Hrun.
  - injection Hrun as <-. simpl. by rewrite app_nil_r.
  - cbn [omap list_omap]. unfold target at 1.
    destruct (archived repo); [by apply IH|].
    destruct (CloneURL repo) as [url|]; [|done].
    destruct (Name repo) as [name|]; [|done].
    rewrite (IH _ Hrun), cloned_cloneOne_of. by rewrite <- app_assoc.
Qed.

(** What a round of the loop keeps: no error collected exactly when
    every run of git went well, and only [cloneError]s collected. *)
Lemma cloneOne_of_errors v E gitRef into url name p :
  ((cloneErrs p = [] ↔ Forall went_well (made p)) ∧
   Forall is_cloneError (cloneErrs p)) →
  (cloneErrs (cloneOne_of v E gitRef into url name p) = [] ↔
   Forall went_well (made (cloneOne_of v E gitRef into url name p))) ∧
  Forall is_cloneError (cloneErrs (cloneOne_of v E gitRef into url name p)).
Proof.
  intros [Hiff Hall].
  assert (∀ (l : list error) e, l ++ [e] ≠ []) as Hne by (by intros [|??] ?).
  destruct v; simpl; run_one;
    (split; [|rewrite ?Forall_app; repeat split; try done; by repeat constructor]);
    rewrite ?Forall_app, ?Forall_cons; unfold went_well; simpl;
    (split; intros H;
     first [ by apply Hne in H
           | exfalso; naive_solver
           | apply Hiff in H; naive_solver
           | apply Hiff; naive_solver ]).
Qed.

Lemma exists_elem_of_app {A B} (f : B → A) (l k : list A) :
  (∃ r, f r ∈ l ++ k) ↔ (∃ r, f r ∈ l) ∨ (∃ r, f r ∈ k).
Proof. setoid_rewrite elem_of_app. naive_solver. Qed.

(** In [Part000] a round of the loop removes a clone exactly when its
    checkout failed. *)
Lemma cloneOne_removes E gitRef into url name p dir :
  ((∃ r, (RemoveAll dir, r) ∈ made p) ↔
   (∃ e, (GitCheckout gitRef dir, Some e) ∈ made p)) →
  (∃ r, (RemoveAll dir, r)
        ∈ made (Cloning.Part000.cloneOne E gitRef into url name p)) ↔
  (∃ e, (GitCheckout gitRef dir, Some e)
        ∈ made (Cloning.Part000.cloneOne E gitRef into url name p)).
Proof.
  intros Hiff. run_one; rewrite <- ?app_assoc; simpl;
    rewrite (exists_elem_of_app (λ r, (RemoveAll dir, r))),
            (exists_elem_of_app (λ e, (GitCheckout gitRef dir, Some e))), Hiff;
    apply or_iff_compat_l;
    (split; intros [r Hr];
     repeat (apply elem_of_cons in Hr as [Hr|Hr]);
     try (by apply elem_of_nil in Hr); simplify_eq;
     eexists; rewrite !elem_of_cons; eauto 10).
Qed.

(** X21. When a request of the listing fails, [cloneRepos] returns the
    error of that request as it is, whatever the pages before it listed:
    nothing is cloned. [Part000] has made the directory by then,
    [src/main.go] has done nothing. More requests than the listing needed
    change nothing. *)
Theorem cloneRepos_listing_error v E fuel gitRef into err fuel' :
  listAll E fuel 0 [] = Some (inl err) →
  fuel ≤ fuel' →
  cloneRepos_of v E fuel' gitRef into
  = Some (Returns (before v E into, Some err)) ∧
  omap cloned (before v E into) = [].
Proof.
  intros Hlist Hle. rewrite cloneRepos_of_unfold. unfold listAndClone.
  rewrite (listAll_fuel E fuel fuel' 0 [] _ Hlist Hle). by destruct v.
Qed.

Lemma cloneRepos_listing_error_witness :
  listAll demoBroken 2 0 [] = Some (inl (Errorf "403 rate limit exceeded")) ∧
  2 ≤ 5 ∧
  cloneRepos_of main_go demoBroken 5 "" ["src"]
  = Some (Returns (before main_go demoBroken ["src"],
                   Some (Errorf "403 rate limit exceeded"))) ∧
  omap cloned (before main_go demoBroken ["src"]) = [].
Proof.
  assert (2 ≤ 5) as Hle by lia.
  split; [reflexivity|]. split; [exact Hle|].
  exact (cloneRepos_listing_error main_go demoBroken 2 "" ["src"] _ 5 eq_refl Hle).
Defined.

(** X22. Once the listing is complete, [cloneRepos] returns exactly when
    every repository that is not archived has a name and a URL, a nil
    field of an archived one being never read; it has then made one
    clone for each repository that is not archived, in the order of the
    listing, whatever failed on the way, and none for an archived one. In
    both variants. *)
Theorem cloneRepos_clones_each_unarchived v E fuel gitRef into allRepos :
  listAll E fuel 0 [] = Some (inr allRepos) →
  ((∃ acts res, cloneRepos_of v E fuel gitRef into = Some (Returns (acts, res))) ↔
   Forall (λ repo, archived repo = false →
                   is_Some (CloneURL repo) ∧ is_Some (Name repo)) allRepos) ∧
  ∀ acts res,
    cloneRepos_of v E fuel gitRef into = Some (Returns (acts, res)) →
    omap cloned acts = omap (target into) allRepos.
Proof.
  intros Hlist. rewrite cloneRepos_of_unfold. unfold listAndClone. rewrite Hlist.
  set (p0 := mkProgress (before v E into) []).
  split.
  - rewrite <- (cloneEach_returns (cloneOne_of v E gitRef into) allRepos p0).
    split.
    + intros (acts & res & H).
      destruct (cloneEach _ allRepos p0) as [p'|e]; [by eexists|done].
    + intros [p' ->]. by eexists _, _.
  - intros acts res H.
    destruct (cloneEach _ allRepos p0) as [p'|e] eqn:Hrun; [|done].
    injection H as <- _.
    rewrite (cloned_cloneEach v E gitRef into allRepos p0 p' Hrun).
    by destruct v.
Qed.

Lemma cloneRepos_clones_each_unarchived_witness :
  let acts :=
    [(MkdirAll ["src"], None);
     (GitClone "https://github.com/danos/vyatta-cfg" ["src"] "vyatta-cfg", None);
     (GitCheckout "master" ["src"; "vyatta-cfg"], None);
     (GitClone "https://github.com/danos/tools" ["src"] "tools", None);
     (GitCheckout "master" ["src"; "tools"], Some (Errorf "exit status 1"));
     (Print Stderr "checkout clone for tools failed: the reference did not exist
", None);
     (RemoveAll ["src"; "tools"], None)] in
  let res :=
    Some (errList [cloneError "tools" (Errorf "the reference did not exist")]) in
  ∃ allRepos,
    listAll demoEnv 2 0 [] = Some (inr allRepos) ∧
    cloneRepos_of part_000 demoEnv 2 "master" ["src"] = Some (Returns (acts, res)) ∧
    ((∃ acts res,
        cloneRepos_of part_000 demoEnv 2 "master" ["src"]
        = Some (Returns (acts, res))) ↔
     Forall (λ repo, archived repo = false →
                     is_Some (CloneURL repo) ∧ is_Some (Name repo)) allRepos) ∧
    ∀ acts res,
      cloneRepos_of part_000 demoEnv 2 "master" ["src"] = Some (Returns (acts, res)) →
      omap cloned acts = omap (target ["src"]) allRepos.
Proof.
  intros acts res. eexists. split; [vm_compute; reflexivity|].
  split; [vm_compute; reflexivity|].
  exact (cloneRepos_clones_each_unarchived part_000 demoEnv 2 "master" ["src"] _
           eq_refl).
Defined.

(** X23. Once the listing is complete and [cloneRepos] returns, the result
    is [nil] exactly when every run of git went well; otherwise it is an
    [errList] that is not empty and holds [cloneError]s only. The error of
    [os.MkdirAll] is not looked at. In both variants. *)
Theorem cloneRepos_result v E fuel gitRef into allRepos acts res :
  listAll E fuel 0 [] = Some (inr allRepos) →
  cloneRepos_of v E fuel gitRef into = Some (Returns (acts, res)) →
  (res = None ↔ Forall went_well acts) ∧
  ∀ e, res = Some e →
       ∃ l, e = errList l ∧ l ≠ [] ∧ Forall is_cloneError l.
Proof.
  intros Hlist. rewrite cloneRepos_of_unfold. unfold listAndClone. rewrite Hlist.
  set (p0 := mkProgress (before v E into) []).
  destruct (cloneEach _ allRepos p0) as [p'|e] eqn:Hrun; [|done].
  intros [= <- <-].
  pose proof (cloneEach_invariant
                (λ p, (cloneErrs p = [] ↔ Forall went_well (made p)) ∧
                      Forall is_cloneError (cloneErrs p))
                _ allRepos p0 p' Hrun
                (cloneOne_of_errors v E gitRef into)) as [Hiff Hall].
  { split; [|constructor]. split; [|done]. intros _.
    destruct v; simpl; [constructor|]. by repeat constructor. }
  destruct (cloneErrs p') as [|e l] eqn:Herrs.
  - split; [|done]. split; [intros _; by apply Hiff|done].
  - split.
    + split; [done|]. intros H. by apply Hiff in H.
    + intros e' [= <-]. by exists (e :: l).
Qed.

Lemma cloneRepos_result_witness :
  ∃ allRepos acts res,
    listAll demoEnv 2 0 [] = Some (inr allRepos) ∧
    cloneRepos_of part_000 demoEnv 2 "master" ["src"] = Some (Returns (acts, res)) ∧
    res = Some (errList [cloneError "tools"
                           (Errorf "the reference did not exist")]) ∧
    (res = None ↔ Forall went_well acts) ∧
    ∀ e, res = Some e →
         ∃ l, e = errList l ∧ l ≠ [] ∧ Forall is_cloneError l.
Proof.
  eexists _, _, _. split; [vm_compute; reflexivity|].
  split; [vm_compute; reflexivity|]. split; [reflexivity|].
  exact (cloneRepos_result part_000 demoEnv 2 "master" ["src"] _ _ _
           eq_refl eq_refl).
Defined.

(** X24. In [Part000], once the listing is complete and [cloneRepos]
    returns, a clone has been removed exactly when the checkout of the
    reference in it failed. *)
Theorem Part000_cloneRepos_removes_failed_checkouts
    E fuel gitRef into allRepos acts res dir :
  listAll E fuel 0 [] = Some (inr allRepos) →
  Cloning.Part000.cloneRepos E fuel gitRef into = Some (Returns (acts, res)) →
  (∃ r, (RemoveAll dir, r) ∈ acts) ↔
  (∃ e, (GitCheckout gitRef dir, Some e) ∈ acts).
Proof.
  intros Hlist. unfold Cloning.Part000.cloneRepos, listAndClone. rewrite Hlist.
  set (p0 := (perform E (MkdirAll into) (mkProgress [] [])).2).
  destruct (cloneEach _ allRepos p0) as [p'|e] eqn:Hrun; [|done].
  intros [= <- _].
  apply (cloneEach_invariant
           (λ p, (∃ r, (RemoveAll dir, r) ∈ made p) ↔
                 (∃ e, (GitCheckout gitRef dir, Some e) ∈ made p))
           _ allRepos p0 p' Hrun).
  - intros url name p. apply cloneOne_removes.
  - unfold p0, perform. simpl. setoid_rewrite elem_of_cons.
    setoid_rewrite elem_of_nil. naive_solver.
Qed.

Lemma Part000_cloneRepos_removes_failed_checkouts_witness :
  ∃ allRepos acts res,
    listAll demoEnv 2 0 [] = Some (inr allRepos) ∧
    Cloning.Part000.cloneRepos demoEnv 2 "master" ["src"]
    = Some (Returns (acts, res)) ∧
    (RemoveAll ["src"; "tools"], None) ∈ acts ∧
    ((∃ r, (RemoveAll ["src"; "tools"], r) ∈ acts) ↔
     (∃ e, (GitCheckout "master" ["src"; "tools"], Some e) ∈ acts)).
Proof.
  eexists _, _, _. split; [vm_compute; reflexivity|].
  split; [vm_compute; reflexivity|].
  split; [rewrite !elem_of_cons; auto 10|].
  exact (Part000_cloneRepos_removes_failed_checkouts demoEnv 2 "master" ["src"]
           _ _ _ ["src"; "tools"] eq_refl eq_refl).
Defined.

End cloning_facts.
